(** * cozy-stack: the lock package and the account credentials

    A shallow embedding of
    - [pkg/lock]: the [Getter] factory [New] and the [longOperation] wrapper
      ([Lock], the renewal goroutine it spawns, [Unlock]), as an interleaving
      step function over an explicit world state;
    - [model/account/credentials.go]: [EncryptCredentialsWithKey] and
      [DecryptCredentialsWithKey] over byte slices;
    together with the parts of the lock subsystem that are described by the
    specification only (the key namer and the distributed backend). *)

From Stdlib Require Import ZArith List String Ascii Bool Lia.
From Stdlib.Strings Require Import Byte.
From stdpp Require Import base tactics option list strings gmap relations.

Local Open Scope Z_scope.

(* ===================================================================== *)
(** * Part I: definitions                                                 *)
(* ===================================================================== *)

Module Lock.

(** [error]: a Go error value, [None] standing for [nil]. *)
Definition error := string.

(** [time.Duration] is an int64 count of nanoseconds. *)
Definition Duration := Z.

(** ** The interfaces

    [ErrorLocker] has [Lock() error] and [Unlock()]; [longOperationLocker]
    adds [Extend()].  A locker is an object with private state [L]; every
    method threads that state.  [Unlock] and [Extend] have no result. *)
Class longOperationLocker (L : Type) := {
  Lock : L -> option error * L;
  Unlock : L -> L;
  Extend : L -> L
}.

(** ** [time.Ticker]

    A ticker owns a channel [C] with a one-element buffer: a tick that finds
    the buffer full is dropped.  [Stop] turns the ticker off and does not
    close the channel. *)
Record Ticker := mkTicker {
  period : Duration;
  running : bool;
  C : bool
}.

Definition Stop (t : Ticker) : Ticker :=
  {| period := period t; running := false; C := C t |}.

Definition fire (t : Ticker) : Ticker :=
  {| period := period t; running := running t; C := true |}.

Definition drain (t : Ticker) : Ticker :=
  {| period := period t; running := running t; C := false |}.

(** [time.NewTicker d] panics unless [0 < d]. *)
Definition NewTicker (d : Duration) : option Ticker :=
  if d <=? 0 then None else Some (mkTicker d true false).

(** ** The [longOperation] struct.  [tick] is a [*time.Ticker]: an index in
    the heap of tickers, or [None] for [nil]; [mu] is [true] when locked. *)
Record longOperation (L : Type) := mkLongOperation {
  lock : L;
  mu : bool;
  tick : option nat;
  timeout : Duration
}.
Arguments mkLongOperation {L}.
Arguments lock {L}.
Arguments mu {L}.
Arguments tick {L}.
Arguments timeout {L}.

(** ** Program points

    The caller runs [l.Lock()] and, when that returned [nil], one
    [l.Unlock()].  Names are the source lines about to be executed. *)
Inductive cpc :=
| L57             (* err := l.lock.Lock() *)
| L60             (* l.tick = time.NewTicker(l.timeout / 3) *)
| L61             (* go func() {...}(); return nil *)
| U83             (* Lock returned nil; Unlock: l.mu.Lock() *)
| U85             (* if l.tick != nil { l.tick.Stop() *)
| U87             (* l.tick = nil } *)
| U89             (* l.lock.Unlock() *)
| U84             (* deferred l.mu.Unlock() *)
| Released        (* Unlock returned *)
| Failed (e : error)   (* Lock returned e *)
| Panicked.       (* NewTicker or a nil dereference panicked *)

(** The renewal goroutine, lines 61 to 78. *)
Inductive gpc :=
| G64             (* l.mu.Lock() *)
| G65             (* if l.tick == nil { return }; ch := l.tick.C *)
| G69 (ch : nat)  (* l.mu.Unlock() *)
| G70 (ch : nat)  (* <-ch *)
| G71             (* l.mu.Lock() *)
| G72             (* if l.tick == nil { return } *)
| G75             (* l.lock.Extend() *)
| G76             (* l.mu.Unlock() *)
| G62             (* return: deferred l.mu.Unlock() *)
| Gexit.

(** What the program did, oldest event last in [trace]. *)
Inductive event :=
| EvLock (r : option error)
| EvNewTicker (d : Duration)
| EvGo
| EvFire (t : nat)
| EvRecv (t : nat)
| EvExtend
| EvStop (t : nat)
| EvTickNil
| EvUnlock.

#[global] Instance event_eq_dec : EqDecision event.
Proof. solve_decision. Defined.

#[global] Instance gpc_eq_dec : EqDecision gpc.
Proof. solve_decision. Defined.

#[global] Instance cpc_eq_dec : EqDecision cpc.
Proof. solve_decision. Defined.

Record world (L : Type) := mkWorld {
  self : longOperation L;
  tickers : list Ticker;
  caller : cpc;
  tasks : list gpc;
  trace : list event;
  fatal : bool
}.
Arguments mkWorld {L}.
Arguments self {L}.
Arguments tickers {L}.
Arguments caller {L}.
Arguments tasks {L}.
Arguments trace {L}.
Arguments fatal {L}.

Section Semantics.
Context {L : Type} {locker : longOperationLocker L}.

Definition with_lock (x : L) (l : longOperation L) : longOperation L :=
  mkLongOperation x (mu l) (tick l) (timeout l).
Definition with_mu (b : bool) (l : longOperation L) : longOperation L :=
  mkLongOperation (lock l) b (tick l) (timeout l).
Definition with_tick (t : option nat) (l : longOperation L) : longOperation L :=
  mkLongOperation (lock l) (mu l) t (timeout l).

Definition on_self (f : longOperation L -> longOperation L) (w : world L) : world L :=
  mkWorld (f (self w)) (tickers w) (caller w) (tasks w) (trace w) (fatal w).
Definition set_tickers (ts : list Ticker) (w : world L) : world L :=
  mkWorld (self w) ts (caller w) (tasks w) (trace w) (fatal w).
Definition goto (pc : cpc) (w : world L) : world L :=
  mkWorld (self w) (tickers w) pc (tasks w) (trace w) (fatal w).
Definition set_tasks (gs : list gpc) (w : world L) : world L :=
  mkWorld (self w) (tickers w) (caller w) gs (trace w) (fatal w).
Definition emit (e : event) (w : world L) : world L :=
  mkWorld (self w) (tickers w) (caller w) (tasks w) (e :: trace w) (fatal w).
Definition crash (w : world L) : world L :=
  mkWorld (self w) (tickers w) (caller w) (tasks w) (trace w) true.

(** [sync.Mutex]: [Lock] blocks while the mutex is held; [Unlock] of an
    unlocked mutex is a fatal error of the whole process. *)
Definition mu_Lock (w : world L) : option (world L) :=
  if mu (self w) then None else Some (on_self (with_mu true) w).

Definition mu_Unlock (w : world L) : world L :=
  if mu (self w) then on_self (with_mu false) w else crash w.

(** ** One step of the caller: [Lock()] (lines 56-80), then [Unlock()]
    (lines 82-90). *)
Definition caller_step (w : world L) : option (world L) :=
  match caller w with
  | L57 =>
      let (err, lk) := Lock (lock (self w)) in
      let w := emit (EvLock err) (on_self (with_lock lk) w) in
      match err with
      | Some e => Some (goto (Failed e) w)
      | None => Some (goto L60 w)
      end
  | L60 =>
      let d := Z.quot (timeout (self w)) 3 in
      match NewTicker d with
      | None => Some (goto Panicked w)
      | Some tk =>
          let p := length (tickers w) in
          Some (goto L61 (emit (EvNewTicker d)
                  (on_self (with_tick (Some p)) (set_tickers (tickers w ++ [tk]) w))))
      end
  | L61 => Some (goto U83 (emit EvGo (set_tasks (tasks w ++ [G64]) w)))
  | U83 => goto U85 <$> mu_Lock w
  | U85 =>
      match tick (self w) with
      | Some p =>
          match tickers w !! p with
          | Some tk => Some (goto U87 (emit (EvStop p) (set_tickers (<[p := Stop tk]> (tickers w)) w)))
          | None => Some (goto Panicked (mu_Unlock w))
          end
      | None => Some (goto U89 w)
      end
  | U87 => Some (goto U89 (emit EvTickNil (on_self (with_tick None) w)))
  | U89 => Some (goto U84 (emit EvUnlock (on_self (with_lock (Unlock (lock (self w)))) w)))
  | U84 => Some (goto Released (mu_Unlock w))
  | Released | Failed _ | Panicked => None
  end.

(** ** One step of renewal goroutine number [i]. *)
Definition jump (i : nat) (pc : gpc) (w : world L) : world L :=
  set_tasks (<[i := pc]> (tasks w)) w.

Definition task_step (i : nat) (w : world L) : option (world L) :=
  match tasks w !! i with
  | Some G64 => jump i G65 <$> mu_Lock w
  | Some G65 =>
      match tick (self w) with
      | None => Some (jump i G62 w)
      | Some p => Some (jump i (G69 p) w)
      end
  | Some (G69 ch) => Some (jump i (G70 ch) (mu_Unlock w))
  | Some (G70 ch) =>
      match tickers w !! ch with
      | Some tk =>
          if C tk
          then Some (jump i G71 (emit (EvRecv ch) (set_tickers (<[ch := drain tk]> (tickers w)) w)))
          else None
      | None => None
      end
  | Some G71 => jump i G72 <$> mu_Lock w
  | Some G72 =>
      match tick (self w) with
      | None => Some (jump i G62 w)
      | Some _ => Some (jump i G75 w)
      end
  | Some G75 => Some (jump i G76 (emit EvExtend (on_self (with_lock (Extend (lock (self w)))) w)))
  | Some G76 => Some (jump i G64 (mu_Unlock w))
  | Some G62 => Some (jump i Gexit (mu_Unlock w))
  | Some Gexit | None => None
  end.

(** ** The runtime timer delivering a tick of ticker [t]. *)
Definition clock_step (t : nat) (w : world L) : option (world L) :=
  match tickers w !! t with
  | Some tk =>
      if running tk
      then Some (emit (EvFire t) (set_tickers (<[t := fire tk]> (tickers w)) w))
      else None
  | None => None
  end.

Inductive tid := Caller | Task (i : nat) | Clock (t : nat).

Definition step_of (a : tid) (w : world L) : option (world L) :=
  if fatal w then None else
  match a with
  | Caller => caller_step w
  | Task i => task_step i w
  | Clock t => clock_step t w
  end.

Definition step (w w' : world L) : Prop := exists a, step_of a w = Some w'.

(** Running a schedule. *)
Fixpoint exec (sched : list tid) (w : world L) : option (world L) :=
  match sched with
  | [] => Some w
  | a :: sched => match step_of a w with Some w' => exec sched w' | None => None end
  end.

(** A fresh wrapper, as a getter builds it, about to be locked. *)
Definition init (lk : L) (d : Duration) : world L :=
  mkWorld (mkLongOperation lk false None d) [] L57 [] [] false.

Definition reachable (lk : L) (d : Duration) (w : world L) : Prop :=
  rtc step (init lk d) w.

(** The events in the order they happened. *)
Definition history (w : world L) : list event := rev (trace w).

(** The result of the [Lock()] call, once it has returned. *)
Definition returned (c : cpc) : option (option error) :=
  match c with
  | L57 | L60 | L61 | Panicked => None
  | Failed e => Some (Some e)
  | U83 | U85 | U87 | U89 | U84 | Released => Some None
  end.

Fixpoint tally (p : event -> bool) (tr : list event) : nat :=
  match tr with
  | [] => 0
  | e :: tr => (if p e then 1 else 0) + tally p tr
  end.

Definition is_extend (e : event) : bool :=
  match e with EvExtend => true | _ => false end.
Definition is_recv (e : event) : bool :=
  match e with EvRecv _ => true | _ => false end.
Definition is_fire (e : event) : bool :=
  match e with EvFire _ => true | _ => false end.
Definition is_go (e : event) : bool :=
  match e with EvGo => true | _ => false end.
Definition is_stop (e : event) : bool :=
  match e with EvStop _ => true | _ => false end.
Definition is_tick_nil (e : event) : bool :=
  match e with EvTickNil => true | _ => false end.
Definition is_unlock (e : event) : bool :=
  match e with EvUnlock => true | _ => false end.

(** [Unlock] is releasing from the moment it clears the timer field. *)
Definition releasing (e : event) : bool := is_tick_nil e || is_unlock e.

(** No [Extend] is newer than a releasing event ([trace] is newest first). *)
Fixpoint quiet (tr : list event) : bool :=
  match tr with
  | [] => true
  | e :: tr => (if is_extend e then negb (existsb releasing tr) else true) && quiet tr
  end.

(** The timer field is cleared after one [Stop], and the wrapped [Unlock] is
    called after the field was cleared once. *)
Fixpoint staged (tr : list event) : bool :=
  match tr with
  | [] => true
  | e :: tr =>
      (if is_tick_nil e then Nat.eqb (tally is_stop tr) 1 else true) &&
      (if is_unlock e then Nat.eqb (tally is_tick_nil tr) 1 else true) &&
      staged tr
  end.

(** ** The invariant of one [Lock()]/[Unlock()] pair *)

(** The goroutine is inside a critical section of [l.mu]. *)
Definition in_mu (g : gpc) : bool :=
  match g with
  | G65 | G69 _ | G72 | G75 | G76 | G62 => true
  | G64 | G70 _ | G71 | Gexit => false
  end.

(** The goroutine saw [l.tick != nil] in the critical section it is in. *)
Definition saw_tick (g : gpc) : bool :=
  match g with
  | G69 _ | G75 | G76 => true
  | _ => false
  end.

(** The goroutine took a tick and has not renewed yet. *)
Definition in_flight (g : gpc) : nat :=
  match g with
  | G71 | G72 | G75 => 1
  | _ => 0
  end.

Definition chan_ok (g : gpc) : Prop :=
  match g with
  | G69 ch | G70 ch => ch = 0%nat
  | _ => True
  end.

Definition buffered (t : Ticker) : nat := if C t then 1 else 0.

Definition one_ticker (d : Duration) (r : bool) (ts : list Ticker) : Prop :=
  exists c, ts = [mkTicker (Z.quot d 3) r c].

Definition one_task (d : Duration) (r : bool) (tk : option nat) (m : gpc -> bool)
    (w : world L) : Prop :=
  exists g, tasks w = [g] /\ one_ticker d r (tickers w) /\ tick (self w) = tk /\
            mu (self w) = m g /\ chan_ok g.

Definition stops (w : world L) : nat * nat * nat :=
  (tally is_stop (trace w), tally is_tick_nil (trace w), tally is_unlock (trace w)).

Definition phase (d : Duration) (w : world L) : Prop :=
  match caller w with
  | L57 | L60 | Failed _ | Panicked =>
      tasks w = [] /\ tickers w = [] /\ tick (self w) = None /\ mu (self w) = false /\
      stops w = (0, 0, 0)%nat
  | L61 =>
      tasks w = [] /\ one_ticker d true (tickers w) /\ tick (self w) = Some 0%nat /\
      mu (self w) = false /\ stops w = (0, 0, 0)%nat
  | U83 => one_task d true (Some 0%nat) in_mu w /\ stops w = (0, 0, 0)%nat
  | U85 =>
      one_task d true (Some 0%nat) (fun g => negb (in_mu g)) w /\ mu (self w) = true /\
      stops w = (0, 0, 0)%nat
  | U87 =>
      one_task d false (Some 0%nat) (fun g => negb (in_mu g)) w /\ mu (self w) = true /\
      stops w = (1, 0, 0)%nat
  | U89 =>
      one_task d false None (fun g => negb (in_mu g)) w /\ mu (self w) = true /\
      stops w = (1, 1, 0)%nat
  | U84 =>
      one_task d false None (fun g => negb (in_mu g)) w /\ mu (self w) = true /\
      stops w = (1, 1, 1)%nat
  | Released =>
      one_task d false None in_mu w /\
      (forall g, tasks w = [g] -> saw_tick g = false) /\
      stops w = (1, 1, 1)%nat
  end.

Definition Inv (d : Duration) (w : world L) : Prop :=
  fatal w = false /\
  timeout (self w) = d /\
  quiet (trace w) = true /\
  staged (trace w) = true /\
  (tally is_extend (trace w) + sum_list (in_flight <$> tasks w)
     <= tally is_recv (trace w))%nat /\
  (tally is_recv (trace w) + sum_list (buffered <$> tickers w)
     <= tally is_fire (trace w))%nat /\
  tally is_go (trace w) = length (tasks w) /\
  phase d w.

(** The caller is inside the critical section of [Unlock]. *)
Definition caller_in_mu (c : cpc) : bool :=
  match c with
  | U85 | U87 | U89 | U84 => true
  | _ => false
  end.

(** The goroutine has returned. *)
Definition exited (g : gpc) : bool :=
  match g with Gexit => true | _ => false end.

End Semantics.

(** ** The factory [New] (lines 23-29).  The two getters are opaque here:
    [NewInMemory] takes nothing, [NewRedisLockGetter] keeps the client. *)
Section Factory.
Context {UniversalClient : Type}.

Inductive Getter :=
| InMemoryLockGetter
| RedisLockGetter (client : UniversalClient).

Definition NewInMemory : Getter := InMemoryLockGetter.
Definition NewRedisLockGetter (client : UniversalClient) : Getter := RedisLockGetter client.

Definition New (client : option UniversalClient) : Getter :=
  match client with
  | None => NewInMemory
  | Some c => NewRedisLockGetter c
  end.

Definition is_in_memory (g : Getter) : bool :=
  match g with InMemoryLockGetter => true | RedisLockGetter _ => false end.

End Factory.
Arguments Getter : clear implicits.

(** Two lockers for the examples: [granted] is never refused and counts its
    renewals; [refused e] fails every acquisition with [e]. *)
Definition granted : longOperationLocker nat :=
  {| Lock := fun n => (None, n); Unlock := fun n => n; Extend := S |}.

Definition refused (e : error) : longOperationLocker unit :=
  {| Lock := fun u => (Some e, u); Unlock := fun u => u; Extend := fun u => u |}.

End Lock.

(** * The key namer *)
Module KeyNamer.

(** Modelled from the spec: the key namer [key(tenant, name)], whose code is
    not among the sources.  The lock key is the tenant identifier, a slash
    and the resource name. *)
Definition key (tenant name : string) : string :=
  tenant +:+ "/" +:+ name.

(** A tenant identifier without a slash (an instance domain). *)
Fixpoint no_slash (s : string) : bool :=
  match s with
  | EmptyString => true
  | String c s => negb (Ascii.eqb c "/") && no_slash s
  end.

End KeyNamer.

(** * The in-memory backend *)
Module InMemory.

(** Modelled from the spec: the in-memory backend, whose code is not among
    the sources.  Each key has a native readers-writer lock; [Lock] is
    granted when there is no writer and no reader, [RLock] when there is no
    writer; nothing expires and [Extend] does nothing. *)
Record memLock := mkMemLock { writer : bool; readers : nat }.

Definition free : memLock := mkMemLock false 0.

Record sys := mkSys {
  locks : gmap string memLock;
  held : gmap nat string
}.

Definition get (s : sys) (k : string) : memLock := default free (locks s !! k).

Inductive action :=
| Acquire (h : nat) (k : string)   (* Lock() of client h on key k returns nil *)
| Release (h : nat)                (* Unlock() of client h *)
| Renew (h : nat)                  (* Extend() of client h *)
| RAcquire (k : string)            (* an RLock() on k returns nil *)
| RRelease (k : string).           (* an RUnlock() on k *)

Definition act (a : action) (s : sys) : option sys :=
  match a with
  | Acquire h k =>
      match held s !! h with
      | Some _ => None
      | None =>
          let m := get s k in
          if negb (writer m) && Nat.eqb (readers m) 0
          then Some (mkSys (<[k := mkMemLock true 0]> (locks s)) (<[h := k]> (held s)))
          else None
      end
  | Release h =>
      match held s !! h with
      | Some k => Some (mkSys (<[k := mkMemLock false (readers (get s k))]> (locks s)) (delete h (held s)))
      | None => None
      end
  | Renew h =>
      match held s !! h with
      | Some _ => Some s
      | None => None
      end
  | RAcquire k =>
      let m := get s k in
      if writer m then None
      else Some (mkSys (<[k := mkMemLock false (S (readers m))]> (locks s)) (held s))
  | RRelease k =>
      let m := get s k in
      Some (mkSys (<[k := mkMemLock (writer m) (pred (readers m))]> (locks s)) (held s))
  end.

Definition step (s s' : sys) : Prop := exists a, act a s = Some s'.

Definition init : sys := mkSys ∅ ∅.

(** Client [h] holds the exclusive lock of [k]: its [Lock()] returned [nil]
    and it has not called [Unlock()]. *)
Definition holds (s : sys) (h : nat) (k : string) : Prop := held s !! h = Some k.

Definition Inv (s : sys) : Prop :=
  (forall h k, held s !! h = Some k -> writer (get s k) = true) /\
  (forall h1 h2 k, held s !! h1 = Some k -> held s !! h2 = Some k -> h1 = h2).

End InMemory.

(** * The distributed backend *)
Module Redis.

(** Modelled from the spec: the lease of the distributed backend, a
    (key, token, expiry-time) triple kept in the store under its key. *)
Record lease := mkLease { token : nat; expiry : Z }.

(** Modelled from the spec: the external store, with the leases, the reader
    counts and its clock. *)
Record store := mkStore {
  leases : gmap string lease;
  readers : gmap string nat;
  now : Z
}.

Section Backend.
(** The default lease duration. *)
Variable ttl : Z.

(** Modelled from the spec: an expired lease is gone; [owner] is the token
    of the live lease of a key. *)
Definition owner (s : store) (k : string) : option nat :=
  match leases s !! k with
  | Some l => if now s <? expiry l then Some (token l) else None
  | None => None
  end.

Definition reader_count (s : store) (k : string) : nat :=
  default 0%nat (readers s !! k).

Definition put_lease (k : string) (tok : nat) (s : store) : store :=
  mkStore (<[k := mkLease tok (now s + ttl)]> (leases s)) (readers s) (now s).

(** Modelled from the spec: atomic "set if absent with expiry". *)
Definition set_if_absent (k : string) (tok : nat) (s : store) : bool * store :=
  match owner s k with
  | Some _ => (false, s)
  | None => (true, put_lease k tok s)
  end.

(** Modelled from the spec: one attempt of the exclusive acquisition; a
    writer is let in only when the reader count is zero. *)
Definition try_Lock (k : string) (tok : nat) (s : store) : bool * store :=
  if Nat.eqb (reader_count s k) 0 then set_if_absent k tok s else (false, s).

(** Modelled from the spec: atomic "delete if stored value equals my token". *)
Definition delete_if_equals (k : string) (tok : nat) (s : store) : bool * store :=
  match owner s k with
  | Some t =>
      if Nat.eqb t tok
      then (true, mkStore (delete k (leases s)) (readers s) (now s))
      else (false, s)
  | None => (false, s)
  end.

(** Modelled from the spec: exclusive release.  [Unlock()] has no result
    ([ErrorLocker], lines 32-35 of the lock package): whether the delete
    happened is dropped. *)
Definition Unlock (k : string) (tok : nat) (s : store) : store :=
  snd (delete_if_equals k tok s).

(** Modelled from the spec: [Extend] resets the expiry to now + default
    lease only if the stored token is still this holder's. *)
Definition Extend (k : string) (tok : nat) (s : store) : store :=
  match owner s k with
  | Some t => if Nat.eqb t tok then put_lease k tok s else s
  | None => s
  end.

(** Modelled from the spec: shared acquisition and release. *)
Definition try_RLock (k : string) (s : store) : bool * store :=
  match owner s k with
  | Some _ => (false, s)
  | None => (true, mkStore (leases s) (<[k := S (reader_count s k)]> (readers s)) (now s))
  end.

Definition RUnlock (k : string) (s : store) : store :=
  mkStore (leases s) (<[k := pred (reader_count s k)]> (readers s)) (now s).

Definition elapse (d : Z) (s : store) : store :=
  mkStore (leases s) (readers s) (now s + d).

(** The clients of the store: [held] has the clients whose [Lock()]
    returned [nil] and who have not called [Unlock()] yet, with their key
    and token; [fresh] is the supply of per-acquisition tokens. *)
Record sys := mkSys {
  st : store;
  held : gmap nat (string * nat);
  fresh : nat
}.

Inductive action :=
| Acquire (h : nat) (k : string)   (* Lock() of client h on key k returns nil *)
| Release (h : nat)                (* Unlock() of client h *)
| Renew (h : nat)                  (* Extend() of client h *)
| RAcquire (k : string)            (* an RLock() on k returns nil *)
| RRelease (k : string)            (* an RUnlock() on k *)
| Elapse (d : Z).                  (* d units of time pass *)

Definition act (a : action) (s : sys) : option sys :=
  match a with
  | Acquire h k =>
      match held s !! h with
      | Some _ => None
      | None =>
          let (ok, st') := try_Lock k (fresh s) (st s) in
          if ok then Some (mkSys st' (<[h := (k, fresh s)]> (held s)) (S (fresh s)))
          else None
      end
  | Release h =>
      match held s !! h with
      | Some (k, tok) => Some (mkSys (Unlock k tok (st s)) (delete h (held s)) (fresh s))
      | None => None
      end
  | Renew h =>
      match held s !! h with
      | Some (k, tok) => Some (mkSys (Extend k tok (st s)) (held s) (fresh s))
      | None => None
      end
  | RAcquire k =>
      let (ok, st') := try_RLock k (st s) in
      if ok then Some (mkSys st' (held s) (fresh s)) else None
  | RRelease k => Some (mkSys (RUnlock k (st s)) (held s) (fresh s))
  | Elapse d =>
      if 0 <? d then Some (mkSys (elapse d (st s)) (held s) (fresh s)) else None
  end.

Definition step (s s' : sys) : Prop := exists a, act a s = Some s'.

Fixpoint run (acts : list action) (s : sys) : option sys :=
  match acts with
  | [] => Some s
  | a :: acts => match act a s with Some s' => run acts s' | None => None end
  end.

Definition init : sys := mkSys (mkStore ∅ ∅ 0) ∅ 0.

(** Client [h] holds the exclusive lock of [k]. *)
Definition holds (s : sys) (h : nat) (k : string) : Prop :=
  exists tok, held s !! h = Some (k, tok).

(** Client [h] holds [k] and its lease is still the live one. *)
Definition holds_live (s : sys) (h : nat) (k : string) : Prop :=
  exists tok, held s !! h = Some (k, tok) /\ owner (st s) k = Some tok.

(** Mutual exclusion as the specification words it: never two holders of
    one key. *)
Definition mutual_exclusion : Prop :=
  forall s, rtc step init s ->
  forall h1 h2 k, holds s h1 k -> holds s h2 k -> h1 = h2.

(** Tokens are unique to an acquisition. *)
Definition Inv (s : sys) : Prop :=
  (forall h k t, held s !! h = Some (k, t) -> (t < fresh s)%nat) /\
  (forall h1 h2 k1 k2 t,
     held s !! h1 = Some (k1, t) -> held s !! h2 = Some (k2, t) -> h1 = h2).

End Backend.
End Redis.

(** * Go values shared by the account package *)
Module Go.

(** A call either returns or panics. *)
Inductive outcome (A : Type) :=
| Returned (a : A)
| Panic.
Arguments Returned {A}.
Arguments Panic {A}.

#[global] Instance outcome_ret : MRet outcome := fun A a => Returned a.
#[global] Instance outcome_bind : MBind outcome := fun A B f m =>
  match m with
  | Returned a => f a
  | Panic => Panic
  end.

#[global] Instance byte_eq_dec : EqDecision byte := Byte.byte_eq_dec.

(** [uint(b)] and [byte(z)], the latter keeping the low eight bits. *)
Definition u8 (b : byte) : Z := Z.of_N (Byte.to_N b).

Definition to_byte (z : Z) : byte :=
  default x00 (Byte.of_N (Z.to_N (z mod 256))).

(** [[]byte(s)] and [string(b)]. *)
Definition bytes (s : string) : list byte := list_byte_of_string s.
Definition str (b : list byte) : string := string_of_list_byte b.

(** [make([]byte, n)]. *)
Definition make (n : nat) : list byte := replicate n x00.

(** [s[lo:]] and [s[:hi]]; out of range panics. *)
Definition slice_from (s : list byte) (lo : nat) : outcome (list byte) :=
  if (lo <=? length s)%nat then Returned (drop lo s) else Panic.

Definition slice_to (s : list byte) (hi : nat) : outcome (list byte) :=
  if (hi <=? length s)%nat then Returned (take hi s) else Panic.

(** [copy(dst, src)] overwrites the first [min(len dst, len src)] bytes. *)
Definition copy (dst src : list byte) : list byte :=
  take (length dst) src ++ drop (length src) dst.

(** [copy(dst[off:], src)], as seen on the whole of [dst]. *)
Definition copy_at (off : nat) (dst src : list byte) : outcome (list byte) :=
  tail ← slice_from dst off;
  Returned (take off dst ++ copy tail src).

(** [bytes.HasPrefix]. *)
Definition HasPrefix (s prefix : list byte) : bool :=
  (length prefix <=? length s)%nat && bool_decide (take (length prefix) s = prefix).

(** [uint32(n)]. *)
Definition uint32 (n : Z) : Z := n mod 2 ^ 32.

(** [binary.BigEndian.PutUint32] and [binary.BigEndian.Uint32]; both index
    [b[3]] first and so panic on a shorter slice. *)
Definition PutUint32 (b : list byte) (v : Z) : outcome (list byte) :=
  if (4 <=? length b)%nat
  then Returned ([to_byte (Z.shiftr v 24); to_byte (Z.shiftr v 16);
                  to_byte (Z.shiftr v 8); to_byte v] ++ drop 4 b)
  else Panic.

Definition Uint32 (b : list byte) : outcome Z :=
  match b with
  | b0 :: b1 :: b2 :: b3 :: _ =>
      Returned (Z.lor (Z.lor (Z.lor (u8 b3) (Z.shiftl (u8 b2) 8))
                             (Z.shiftl (u8 b1) 16)) (Z.shiftl (u8 b0) 24))
  | _ => Panic
  end.

(** [io.ReadFull(r, buf)]: [r] is what the reader can still deliver; fewer
    bytes than [len buf] is an error ([None]). *)
Definition ReadFull (r : list byte) (buf : list byte) : option (list byte) :=
  if (length buf <=? length r)%nat then Some (copy buf r) else None.

End Go.

(** * [encoding/base64], the standard padded encoding *)
Module Base64.
Import Go.

Definition encodeStd : string :=
  "ABCDEFGHIJKLMNOPQRSTUVWXYZabcdefghijklmnopqrstuvwxyz0123456789+/".

Definition padChar : ascii := "="%char.

(** [enc.encode[v]] *)
Definition encode_char (v : Z) : ascii :=
  default padChar (list_ascii_of_string encodeStd !! Z.to_nat v).

Fixpoint index_of (c : ascii) (l : list ascii) : option nat :=
  match l with
  | [] => None
  | x :: l => if Ascii.eqb x c then Some 0%nat else S <$> index_of c l
  end.

(** [enc.decodeMap[c]], [None] for the invalid marker. *)
Definition decode_char (c : ascii) : option Z :=
  Z.of_nat <$> index_of c (list_ascii_of_string encodeStd).

Definition sextet (val : Z) (sh : Z) : ascii :=
  encode_char (Z.land (Z.shiftr val sh) 63).

Fixpoint encode (src : list byte) : list ascii :=
  match src with
  | [] => []
  | [b0] =>
      let val := Z.shiftl (u8 b0) 16 in
      [sextet val 18; sextet val 12; padChar; padChar]
  | [b0; b1] =>
      let val := Z.lor (Z.shiftl (u8 b0) 16) (Z.shiftl (u8 b1) 8) in
      [sextet val 18; sextet val 12; sextet val 6; padChar]
  | b0 :: b1 :: b2 :: rest =>
      let val := Z.lor (Z.lor (Z.shiftl (u8 b0) 16) (Z.shiftl (u8 b1) 8)) (u8 b2) in
      sextet val 18 :: sextet val 12 :: sextet val 6 :: sextet val 0 :: encode rest
  end.

Definition EncodeToString (src : list byte) : string :=
  string_of_list_ascii (encode src).

Definition pack (v0 v1 v2 v3 : Z) : Z :=
  Z.lor (Z.lor (Z.lor (Z.shiftl v0 18) (Z.shiftl v1 12)) (Z.shiftl v2 6)) v3.

Definition quantum (c0 c1 c2 c3 : ascii) : option (list byte) :=
  v0 ← decode_char c0;
  v1 ← decode_char c1;
  v2 ← decode_char c2;
  v3 ← decode_char c3;
  let val := pack v0 v1 v2 v3 in
  Some [to_byte (Z.shiftr val 16); to_byte (Z.shiftr val 8); to_byte val].

Definition last_quantum (c0 c1 c2 c3 : ascii) : option (list byte) :=
  if Ascii.eqb c3 padChar then
    if Ascii.eqb c2 padChar then
      v0 ← decode_char c0;
      v1 ← decode_char c1;
      Some [to_byte (Z.shiftr (pack v0 v1 0 0) 16)]
    else
      v0 ← decode_char c0;
      v1 ← decode_char c1;
      v2 ← decode_char c2;
      let val := pack v0 v1 v2 0 in
      Some [to_byte (Z.shiftr val 16); to_byte (Z.shiftr val 8)]
  else quantum c0 c1 c2 c3.

Fixpoint decode (src : list ascii) : option (list byte) :=
  match src with
  | [] => Some []
  | c0 :: c1 :: c2 :: c3 :: rest =>
      match rest with
      | [] => last_quantum c0 c1 c2 c3
      | _ => q ← quantum c0 c1 c2 c3; r ← decode rest; Some (q ++ r)
      end
  | _ => None
  end.

Definition is_newline (c : ascii) : bool :=
  Ascii.eqb c "010"%char || Ascii.eqb c "013"%char.

(** [DecodeString]: line breaks are skipped; [None] is a corrupt input. *)
Definition DecodeString (s : string) : option (list byte) :=
  decode (List.filter (fun c => negb (is_newline c)) (list_ascii_of_string s)).

End Base64.

(** * [model/account]: the credentials *)
Module Account.
Import Go.

Definition error := string.

Definition cipherHeader : string := "nacl".
Definition nonceLen : nat := 24.
Definition plainPrefixLen : nat := 4.

Definition errCannotDecrypt : error := "accounts: cannot decrypt credentials".
Definition errCannotEncrypt : error := "accounts: cannot encrypt credentials".
Definition ErrBadCredentials : error := "accounts: bad credentials".

(** [keyring.NACLKey]: a pair of 32-byte keys behind a pointer. *)
Record NACLKey := mkNACLKey {
  publicKey : list byte;
  privateKey : list byte
}.

Definition PublicKey (k : option NACLKey) : outcome (list byte) :=
  match k with Some k => Returned (publicKey k) | None => Panic end.

Definition PrivateKey (k : option NACLKey) : outcome (list byte) :=
  match k with Some k => Returned (privateKey k) | None => Panic end.

Definition key_ok (k : NACLKey) : Prop :=
  length (publicKey k) = 32%nat /\ length (privateKey k) = 32%nat.

(** [golang.org/x/crypto/nacl/box]: [seal message nonce peersPublicKey
    privateKey] is the authenticated ciphertext, [open] its inverse, failing
    on a forged box. *)
Class Box := {
  seal : list byte -> list byte -> list byte -> list byte -> list byte;
  open : list byte -> list byte -> list byte -> list byte -> option (list byte)
}.

(** What the library promises: a box opens under the nonce and the keys it
    was sealed with. *)
Class BoxCorrect (B : Box) : Prop :=
  open_seal : forall message nonce pk sk,
    length nonce = 24%nat -> length pk = 32%nat -> length sk = 32%nat ->
    open (seal message nonce pk sk) nonce pk sk = Some message.

(** The plain text that is sealed (lines 41-48): the length of the login on
    four bytes, big endian, then the login and the password. *)
Definition plain (login password : string) : list byte :=
  [to_byte (Z.shiftr (Z.of_nat (String.length login)) 24);
   to_byte (Z.shiftr (Z.of_nat (String.length login)) 16);
   to_byte (Z.shiftr (Z.of_nat (String.length login)) 8);
   to_byte (Z.of_nat (String.length login))] ++ bytes login ++ bytes password.

Section Credentials.
Context {B : Box}.

(** [box.Seal] appends the box to [out]; [box.Open] appends the message. *)
Definition box_Seal (out message nonce pk sk : list byte) : list byte :=
  out ++ seal message nonce pk sk.

Definition box_Open (out box nonce pk sk : list byte) : option (list byte) :=
  (fun m => out ++ m) <$> open box nonce pk sk.

(** Lines 32-61.  [rand] is what [rand.Reader] delivers. *)
Definition EncryptCredentialsWithKey (encryptorKey : option NACLKey)
    (login password : string) (rand : list byte) : outcome (string * option error) :=
  match encryptorKey with
  | None => Returned (EmptyString, Some errCannotEncrypt)
  | Some _ =>
      let loginLen := String.length login in
      let creds := make (plainPrefixLen + loginLen + String.length password) in
      creds ← PutUint32 creds (uint32 (Z.of_nat loginLen));
      creds ← copy_at plainPrefixLen creds (bytes login);
      creds ← copy_at (plainPrefixLen + loginLen) creds (bytes password);
      match ReadFull rand (make nonceLen) with
      | None => Panic
      | Some nonce =>
          let encryptedOut := make (String.length cipherHeader + length nonce) in
          encryptedOut ← copy_at 0 encryptedOut (bytes cipherHeader);
          encryptedOut ← copy_at (String.length cipherHeader) encryptedOut nonce;
          pk ← PublicKey encryptorKey;
          sk ← PrivateKey encryptorKey;
          let encryptedCreds := box_Seal encryptedOut creds nonce pk sk in
          Returned (Base64.EncodeToString encryptedCreds, None)
      end
  end.

Definition bad : outcome (string * string * option error) :=
  Returned (EmptyString, EmptyString, Some ErrBadCredentials).

(** Lines 123-162. *)
Definition DecryptCredentialsWithKey (decryptorKey : option NACLKey)
    (encryptedCreds : list byte) : outcome (string * string * option error) :=
  if negb (HasPrefix encryptedCreds (bytes cipherHeader)) then bad else
  encryptedCreds ← slice_from encryptedCreds (String.length cipherHeader);
  if (length encryptedCreds <? nonceLen)%nat then bad else
  head ← slice_to encryptedCreds nonceLen;
  let nonce := copy (make nonceLen) head in
  encryptedCreds ← slice_from encryptedCreds nonceLen;
  pk ← PublicKey decryptorKey;
  sk ← PrivateKey decryptorKey;
  match box_Open [] encryptedCreds nonce pk sk with
  | None => bad
  | Some creds =>
      v ← Uint32 creds;
      let loginLen := Z.to_nat v in
      creds ← slice_from creds plainPrefixLen;
      if (length creds <? loginLen)%nat then bad else
      lo ← slice_to creds loginLen;
      hi ← slice_from creds loginLen;
      Returned (str lo, str hi, None)
  end.

End Credentials.

(** A box for examples: sixteen bytes in front of the message stand for the
    authenticator. *)
Definition toy_tag : list byte := replicate 16 x2a.

Definition toy_box : Box := {|
  seal := fun message _ _ _ => toy_tag ++ message;
  open := fun box _ _ _ =>
    if bool_decide (take 16 box = toy_tag) then Some (drop 16 box) else None
|}.

(** ** The other entry points of the file *)

(** [keyring.Keyring], as [config.GetKeyring()] hands it out: the two keys
    of the credentials, each possibly [nil]. *)
Record Keyring := mkKeyring {
  CredentialsEncryptorKey : option NACLKey;
  CredentialsDecryptorKey : option NACLKey
}.

(** [encoding/json] on the values ([interface{}]) of a document: [inl] is an
    error. *)
Class Json (V : Type) := {
  Marshal : V -> error + list byte;
  Unmarshal : list byte -> error + V
}.

Section Buffers.
Context {B : Box}.

(** The box sealed under [enc] opens under [dec] (the two keys of a keyring
    are made for one another). *)
Definition opens_for (enc dec : NACLKey) : Prop :=
  forall message nonce, length nonce = 24%nat ->
    open (seal message nonce (publicKey enc) (privateKey enc)) nonce
      (publicKey dec) (privateKey dec) = Some message.

(** Lines 83-95. *)
Definition EncryptBufferWithKey (encryptorKey : option NACLKey)
    (buf rand : list byte) : outcome (list byte * option error) :=
  match ReadFull rand (make nonceLen) with
  | None => Panic
  | Some nonce =>
      let encryptedOut := make (String.length cipherHeader + length nonce) in
      encryptedOut ← copy_at 0 encryptedOut (bytes cipherHeader);
      encryptedOut ← copy_at (String.length cipherHeader) encryptedOut nonce;
      pk ← PublicKey encryptorKey;
      sk ← PrivateKey encryptorKey;
      let encryptedCreds := box_Seal encryptedOut buf nonce pk sk in
      Returned (encryptedCreds, None)
  end.

Definition bad_buffer : outcome (list byte * option error) :=
  Returned ([], Some ErrBadCredentials).

(** Lines 188-217. *)
Definition DecryptBufferWithKey (decryptorKey : option NACLKey)
    (encryptedBuffer : list byte) : outcome (list byte * option error) :=
  if negb (HasPrefix encryptedBuffer (bytes cipherHeader)) then bad_buffer else
  encryptedBuffer ← slice_from encryptedBuffer (String.length cipherHeader);
  if (length encryptedBuffer <? nonceLen)%nat then bad_buffer else
  head ← slice_to encryptedBuffer nonceLen;
  let nonce := copy (make nonceLen) head in
  encryptedBuffer ← slice_from encryptedBuffer nonceLen;
  pk ← PublicKey decryptorKey;
  sk ← PrivateKey decryptorKey;
  match box_Open [] encryptedBuffer nonce pk sk with
  | None => bad_buffer
  | Some plainBuffer => Returned (plainBuffer, None)
  end.

(** Lines 99-105. *)
Definition EncryptCredentials (kr : Keyring) (login password : string)
    (rand : list byte) : outcome (string * option error) :=
  let encryptorKey := CredentialsEncryptorKey kr in
  match encryptorKey with
  | None => Returned (EmptyString, Some errCannotEncrypt)
  | Some _ => EncryptCredentialsWithKey encryptorKey login password rand
  end.

(** Lines 109-119. *)
Definition DecryptCredentials (kr : Keyring) (encryptedData : string)
    : outcome (string * string * option error) :=
  let decryptorKey := CredentialsDecryptorKey kr in
  match decryptorKey with
  | None => Returned (EmptyString, EmptyString, Some errCannotDecrypt)
  | Some _ =>
      match Base64.DecodeString encryptedData with
      | None => Returned (EmptyString, EmptyString, Some errCannotDecrypt)
      | Some encryptedBuffer => DecryptCredentialsWithKey decryptorKey encryptedBuffer
      end
  end.

Section Data.
Context {V : Type} {J : Json V}.

(** Lines 65-79. *)
Definition EncryptCredentialsData (kr : Keyring) (data : V) (rand : list byte)
    : outcome (string * option error) :=
  let encryptorKey := CredentialsEncryptorKey kr in
  match encryptorKey with
  | None => Returned (EmptyString, Some errCannotEncrypt)
  | Some _ =>
      match Marshal data with
      | inl err => Returned (EmptyString, Some err)
      | inr buf =>
          r ← EncryptBufferWithKey encryptorKey buf rand;
          match r with
          | (_, Some err) => Returned (EmptyString, Some err)
          | (cipher, None) => Returned (Base64.EncodeToString cipher, None)
          end
      end
  end.

(** Lines 166-184; the first component is [None] for a [nil] interface. *)
Definition DecryptCredentialsData (kr : Keyring) (encryptedData : string)
    : outcome (option V * option error) :=
  let decryptorKey := CredentialsDecryptorKey kr in
  match decryptorKey with
  | None => Returned (None, Some errCannotDecrypt)
  | Some _ =>
      match Base64.DecodeString encryptedData with
      | None => Returned (None, Some errCannotDecrypt)
      | Some encryptedBuffer =>
          r ← DecryptBufferWithKey decryptorKey encryptedBuffer;
          match r with
          | (_, Some err) => Returned (None, Some err)
          | (plainBuffer, None) =>
              match Unmarshal plainBuffer with
              | inl err => Returned (None, Some err)
              | inr data => Returned (Some data, None)
              end
          end
      end
  end.

End Data.
End Buffers.

(** A key and a keyring for examples. *)
Definition toy_key : NACLKey := mkNACLKey (replicate 32 x01) (replicate 32 x02).
Definition toy_keyring : Keyring := mkKeyring (Some toy_key) (Some toy_key).

(** A stand-in for [encoding/json] on byte strings, for examples: a value
    is marshalled between two quotes. *)
Definition toy_json : Json (list byte) := {|
  Marshal := fun v => inr ([x22] ++ v ++ [x22]);
  Unmarshal := fun b =>
    match b with
    | x22 :: rest =>
        match reverse rest with
        | x22 :: body => inr (reverse body)
        | _ => inl "unexpected end of JSON input"%string
        end
    | _ => inl "invalid character"%string
    end
|}.


End Account.

(** * [tests/system/lib/sharing.rb]: the identifier scrambler *)
Module Sharing.
Import Go.

(** [make_xor_key] (lines 5-13): [random] is the string of
    [Random.new.bytes(8)]; each byte gives its low and its high nibble. *)
Definition make_xor_key (random : list byte) : list Z :=
  flat_map (fun c => [Z.land (u8 c) 15; Z.shiftr (u8 c) 4]) random.

(** The value of a hexadecimal digit (lines 19-27), [None] for any other
    byte. *)
Definition digit (c : Z) : option Z :=
  if (48 <=? c) && (c <=? 57) then Some (c - 48)
  else if (97 <=? c) && (c <=? 102) then Some (c - 87)
  else if (65 <=? c) && (c <=? 70) then Some (c - 55)
  else None.

(** One round of the block of [each_with_index] (lines 18-33) at index [i]:
    the new [buf[i]].  [i % l] raises [ZeroDivisionError] on an empty key. *)
Definition xor_at (key : list Z) (i : nat) (c : Z) : outcome Z :=
  match digit c with
  | None => Returned c
  | Some d =>
      if Nat.eqb (length key) 0 then Panic
      else
        let c := Z.lxor d (default 0 (key !! (i mod length key)%nat)) in
        Returned (if c <? 10 then c + 48 else c - 10 + 97)
  end.

Fixpoint xor_from (key : list Z) (i : nat) (buf : list Z) : outcome (list Z) :=
  match buf with
  | [] => Returned []
  | c :: buf =>
      c' ← xor_at key i c;
      rest ← xor_from key (S i) buf;
      Returned (c' :: rest)
  end.

(** [xor_id] (lines 15-36): [id.bytes], the loop, [pack('c*')]. *)
Definition xor_id (id : string) (key : list Z) : outcome string :=
  buf ← xor_from key 0 (u8 <$> bytes id);
  Returned (str (to_byte <$> buf)).

Definition nibble (k : Z) : Prop := 0 <= k < 16.

(** A byte that is not one of [A] to [F]. *)
Definition not_upper_hex (c : byte) : Prop := ~ (65 <= u8 c <= 70).

(** A byte value that is not one of [A] to [F]. *)
Definition plain_byte (c : Z) : Prop := 0 <= c < 256 /\ ~ (65 <= c <= 70).

End Sharing.

(** * [model/account]: encrypting a document *)
Module Doc.
Import Go Account.

(** A decoded JSON value ([interface{}]): the code tells strings and
    objects ([map[string]interface{}]) from everything else. *)
#[warnings="-register-all"] Inductive value :=
| VNil
| VBool (b : bool)
| VNum (n : Z)
| VString (s : string)
| VList (l : list value)
| VMap (m : gmap string value).

(** [v.(string)] and [v.(map[string]interface{})] with their [ok]. *)
Definition as_string (v : option value) : option string :=
  match v with Some (VString s) => Some s | _ => None end.

Definition as_map (v : option value) : option (gmap string value) :=
  match v with Some (VMap m) => Some m | _ => None end.

(** [strings.HasSuffix] and [strings.TrimSuffix]. *)
Fixpoint HasSuffix (s suffix : string) : bool :=
  if String.eqb s suffix then true
  else match s with
       | EmptyString => false
       | String _ s' => HasSuffix s' suffix
       end.

Fixpoint cut (s suffix : string) : string :=
  if String.eqb s suffix then EmptyString
  else match s with
       | EmptyString => EmptyString
       | String c s' => String c (cut s' suffix)
       end.

Definition TrimSuffix (s suffix : string) : string :=
  if HasSuffix s suffix then cut s suffix else s.

(** The keys of the second case of the switch (line 254). *)
Definition secret_keys : list string :=
  ["secret"; "dob"; "code"; "answer"; "access_token"; "refresh_token";
   "appSecret"; "session"]%string.

Definition is_secret (k : string) : bool := bool_decide (k ∈ secret_keys).

(** A computation that reads [rand.Reader]: it is given what the reader can
    still deliver and returns what is left. *)
Definition Rand (A : Type) : Type := list byte -> outcome (A * list byte).

Definition rret {A} (a : A) : Rand A := fun rand => Returned (a, rand).

Definition rbind {A B} (m : Rand A) (f : A -> Rand B) : Rand B :=
  fun rand =>
    match m rand with
    | Returned (a, rand') => f a rand'
    | Panic => Panic
    end.

Fixpoint rfold {A S} (f : S -> A -> Rand S) (st : S) (l : list A) : Rand S :=
  match l with
  | [] => rret st
  | a :: l => rbind (f st a) (fun st' => rfold f st' l)
  end.

Fixpoint ofold {A S} (f : S -> A -> outcome S) (st : S) (l : list A) : outcome S :=
  match l with
  | [] => Returned st
  | a :: l => st' ← f st a; ofold f st' l
  end.

Section Documents.
Context {B : Box} {J : Json value}.
Variable kr : Keyring.

(** [EncryptCredentials] and [EncryptCredentialsData] as readers of
    [rand.Reader]: the 24 bytes of the nonce are consumed when
    [io.ReadFull] is reached. *)
Definition encrypt_credentials (login password : string) : Rand (string * option error) :=
  fun rand =>
    match CredentialsEncryptorKey kr with
    | None => Returned ((EmptyString, Some errCannotEncrypt), rand)
    | Some _ =>
        r ← EncryptCredentials kr login password rand;
        Returned (r, drop nonceLen rand)
    end.

Definition encrypt_data (data : value) : Rand (string * option error) :=
  fun rand =>
    match CredentialsEncryptorKey kr, Marshal data with
    | Some _, inr _ =>
        r ← EncryptCredentialsData kr data rand;
        Returned (r, drop nonceLen rand)
    | _, _ =>
        r ← EncryptCredentialsData kr data rand;
        Returned (r, rand)
    end.

(** The variables of the loop of [encryptMap]. *)
Record enc_state := mkEnc {
  enc_cloned : gmap string value;
  encKeys : list string;
  encrypted : bool
}.

Definition mark (err : option error) (flag : bool) : bool :=
  match err with None => true | Some _ => flag end.

(** One round of the loop at lines 245-266. *)
Definition encrypt_entry (login : string) (st : enc_state) (kv : string * value)
    : Rand enc_state :=
  let (k, v) := kv in
  if String.eqb k "password" then
    let password := default EmptyString (as_string (Some v)) in
    rbind (encrypt_credentials login password) (fun r =>
      rret (mkEnc (<["credentials_encrypted"%string := VString r.1]> (enc_cloned st))
              (encKeys st) (mark r.2 (encrypted st))))
  else if is_secret k then
    rbind (encrypt_data v) (fun r =>
      rret (mkEnc (<[(k +:+ "_encrypted")%string := VString r.1]> (enc_cloned st))
              (encKeys st) (mark r.2 (encrypted st))))
  else if HasSuffix k "_encrypted" then
    rret (mkEnc (enc_cloned st) (encKeys st ++ [k]) (encrypted st))
  else
    rret (mkEnc (<[k := v]> (enc_cloned st)) (encKeys st) (encrypted st)).

(** One round of the loop at lines 267-271. *)
Definition restore_key (auth : gmap string value) (cloned : gmap string value)
    (key : string) : gmap string value :=
  match cloned !! key with
  | Some _ => cloned
  | None => <[key := default VNil (auth !! key)]> cloned
  end.

(** [encryptMap] (lines 237-279), the recursive call on [data] left to
    [rec]; [range] is the order in which [for k, v := range auth] visits
    the map. *)
Definition encryptMap_body (range : gmap string value -> list (string * value))
    (rec : option (Rand (bool * gmap string value)))
    (m : gmap string value) : Rand (bool * gmap string value) :=
  match as_map (m !! "auth"%string) with
  | None => rret (false, m)
  | Some auth =>
      let login := default EmptyString (as_string (auth !! "login"%string)) in
      rbind (rfold (encrypt_entry login) (mkEnc ∅ [] false) (range auth)) (fun st =>
        let cloned := foldl (restore_key auth) (enc_cloned st) (encKeys st) in
        let m := <["auth"%string := VMap cloned]> m in
        match as_map (m !! "data"%string), rec with
        | Some _, Some encrypt_data_map =>
            rbind encrypt_data_map (fun r =>
              let (enc_data, data) := r in
              rret (if enc_data && negb (encrypted st) then true else encrypted st,
                    <["data"%string := VMap data]> m))
        | _, _ => rret (encrypted st, m)
        end)
  end.

(** The recursion of [encryptMap] on [m["data"]]: the call on the value
    under [data] is looked up in the map of the calls on all the values of
    [m], which is how a recursion through [gmap] is written structurally;
    [encryptMap_eq] in Part II states it as the source does.  [depth] tells
    the calls apart, so that each [range] has its own order, and the case of
    a value that is not an object is never reached from [encryptMap]. *)
Fixpoint encryptValue (range : nat -> gmap string value -> list (string * value))
    (v : value) (depth : nat) : Rand (bool * gmap string value) :=
  match v with
  | VMap m =>
      encryptMap_body (range depth)
        ((fun rec => rec (S depth)) <$> ((encryptValue range <$> m) !! "data"%string)) m
  | _ => rret (false, ∅)
  end.

Definition encryptMap (range : nat -> gmap string value -> list (string * value))
    (m : gmap string value) (depth : nat) : Rand (bool * gmap string value) :=
  encryptValue range (VMap m) depth.

(** [Encrypt] (lines 221-226). *)
Definition Encrypt (range : nat -> gmap string value -> list (string * value))
    (doc : gmap string value) : Rand (bool * gmap string value) :=
  match CredentialsEncryptorKey kr with
  | Some _ => encryptMap range doc 0
  | None => rret (false, doc)
  end.

(** The variables of the loop of [decryptMap]. *)
Record dec_state := mkDec {
  dec_cloned : gmap string value;
  decrypted : bool
}.

(** [if !decrypted { decrypted = err == nil }] *)
Definition note (err : option error) (flag : bool) : bool :=
  if flag then true else match err with None => true | Some _ => false end.

(** One round of the loop at lines 287-308. *)
Definition decrypt_entry (st : dec_state) (kv : string * value) : outcome dec_state :=
  let (k, v) := kv in
  if negb (HasSuffix k "_encrypted") then
    Returned (mkDec (<[k := v]> (dec_cloned st)) (decrypted st))
  else
    let k := TrimSuffix k "_encrypted" in
    match as_string (Some v) with
    | None => Returned (mkDec (<[k := v]> (dec_cloned st)) (decrypted st))
    | Some str =>
        if String.eqb k "credentials" then
          '(login, password, err) ← DecryptCredentials kr str;
          Returned (mkDec (<["password"%string := VString password]>
                             (<["login"%string := VString login]> (dec_cloned st)))
                      (note err (decrypted st)))
        else
          '(data, err) ← DecryptCredentialsData (V := value) kr str;
          Returned (mkDec (<[k := default VNil data]> (dec_cloned st))
                      (note err (decrypted st)))
    end.

(** [decryptMap] (lines 281-316), the recursive call on [data] left to
    [rec]. *)
Definition decryptMap_body (range : gmap string value -> list (string * value))
    (rec : option (outcome (bool * gmap string value)))
    (m : gmap string value) : outcome (bool * gmap string value) :=
  match as_map (m !! "auth"%string) with
  | None => Returned (false, m)
  | Some auth =>
      st ← ofold decrypt_entry (mkDec ∅ false) (range auth);
      let m := <["auth"%string := VMap (dec_cloned st)]> m in
      match as_map (m !! "data"%string), rec with
      | Some _, Some decrypt_data_map =>
          '(dec_data, data) ← decrypt_data_map;
          Returned (if dec_data && negb (decrypted st) then true else decrypted st,
                    <["data"%string := VMap data]> m)
      | _, _ => Returned (decrypted st, m)
      end
  end.

(** The recursion of [decryptMap] on [m["data"]], written as that of
    [encryptValue]; [decryptMap_eq] in Part II states it as the source
    does. *)
Fixpoint decryptValue (range : nat -> gmap string value -> list (string * value))
    (v : value) (depth : nat) : outcome (bool * gmap string value) :=
  match v with
  | VMap m =>
      decryptMap_body (range depth)
        ((fun rec => rec (S depth)) <$> ((decryptValue range <$> m) !! "data"%string)) m
  | _ => Returned (false, ∅)
  end.

Definition decryptMap (range : nat -> gmap string value -> list (string * value))
    (m : gmap string value) (depth : nat) : outcome (bool * gmap string value) :=
  decryptValue range (VMap m) depth.

(** [Decrypt] (lines 230-235). *)
Definition Decrypt (range : nat -> gmap string value -> list (string * value))
    (doc : gmap string value) : outcome (bool * gmap string value) :=
  match CredentialsDecryptorKey kr with
  | Some _ => decryptMap range doc 0
  | None => Returned (false, doc)
  end.

End Documents.

(** An order of visit: some enumeration of the entries of the map. *)
Definition visits (range : nat -> gmap string value -> list (string * value)) : Prop :=
  forall depth m, range depth m ≡ₚ map_to_list m.

(** The keys that [encryptMap] does not leave in the clear. *)
Definition sensitive (k : string) : bool := String.eqb k "password" || is_secret k.

(** No sensitive key in the [auth] object, here and down the [data]
    objects that [encryptMap] visits. *)
Definition sealed_auth (auth : gmap string value) : bool :=
  forallb (fun kv : string * value => negb (sensitive kv.1)) (map_to_list auth).

Fixpoint sealed (v : value) : bool :=
  match v with
  | VMap m =>
      match as_map (m !! "auth"%string) with
      | Some auth => sealed_auth auth && default true ((sealed <$> m) !! "data"%string)
      | None => true
      end
  | _ => true
  end.

(** No key ending in [_encrypted] in the [auth] object, here and down the
    [data] objects that [decryptMap] visits. *)
Definition cleartext_auth (auth : gmap string value) : bool :=
  forallb (fun kv : string * value => negb (HasSuffix kv.1 "_encrypted"))
    (map_to_list auth).

Fixpoint cleartext (v : value) : bool :=
  match v with
  | VMap m =>
      match as_map (m !! "auth"%string) with
      | Some auth =>
          cleartext_auth auth && default true ((cleartext <$> m) !! "data"%string)
      | None => true
      end
  | _ => true
  end.

(** The bytes of [rand.Reader] that encrypting a document takes: 24 for
    each sensitive key. *)
Definition sensitive_entries (l : list (string * value)) : nat :=
  length (filter (fun kv : string * value => sensitive kv.1 = true) l).

Fixpoint need (v : value) : nat :=
  match v with
  | VMap m =>
      match as_map (m !! "auth"%string) with
      | Some auth =>
          (24 * sensitive_entries (map_to_list auth)
           + default 0 ((need <$> m) !! "data"%string))%nat
      | None => 0%nat
      end
  | _ => 0%nat
  end.

(** [json.Unmarshal] gives back what [json.Marshal] was given. *)
Definition json_round_trip {V : Type} {J : Json V} : Prop :=
  forall (v : V) (buf : list byte), Marshal v = inr buf -> Unmarshal buf = inr v.

Section Ready.
Context {J : Json value}.

(** A document as it is before its first encryption: no key ends in
    [_encrypted], a password is a string and comes with a login that is a
    string shorter than 2^32 bytes, and [json.Marshal] accepts the values
    of the secret keys. *)
Definition ready_entry (auth : gmap string value) (kv : string * value) : bool :=
  let (k, v) := kv in
  negb (HasSuffix k "_encrypted") &&
  (if String.eqb k "password" then
     match v, auth !! "login"%string with
     | VString _, Some (VString login) => Z.of_nat (String.length login) <? 2 ^ 32
     | _, _ => false
     end
   else if is_secret k then
     match Marshal v with inr _ => true | inl _ => false end
   else true).

Definition ready_auth (auth : gmap string value) : bool :=
  forallb (ready_entry auth) (map_to_list auth).

Fixpoint ready (v : value) : bool :=
  match v with
  | VMap m =>
      match as_map (m !! "auth"%string) with
      | Some auth => ready_auth auth && default true ((ready <$> m) !! "data"%string)
      | None => true
      end
  | _ => true
  end.

End Ready.

(** The number of objects down the [data] keys. *)
Fixpoint spine (v : value) : nat :=
  match v with
  | VMap m => S (default 0%nat ((spine <$> m) !! "data"%string))
  | _ => 0%nat
  end.

(** The key under which [encryptMap] stores the entry of key [k]. *)
Definition target (k : string) : string :=
  if String.eqb k "password" then "credentials_encrypted"%string
  else if is_secret k then (k +:+ "_encrypted")%string
  else k.

Section Encoded.
Context {B : Box} {J : Json value}.
Variable kr : Keyring.

(** The loop of [encryptMap] writes no sensitive key and sets none aside. *)
Definition clean (st : enc_state) : Prop :=
  (forall k, sensitive k = true -> enc_cloned st !! k = None) /\
  Forall (fun k => sensitive k = false) (encKeys st).

(** The entry [k'], [v'] stands for entries of [auth]: it is a plain entry
    of [auth], or the credentials of its login and password, or one of its
    secrets, and in the last two cases it decrypts to them. *)
Definition encodes (auth : gmap string value) (k' : string) (v' : value) : Prop :=
  (HasSuffix k' "_encrypted" = false /\ sensitive k' = false /\ auth !! k' = Some v') \/
  (k' = "credentials_encrypted"%string /\
   exists c login password,
     v' = VString c /\
     DecryptCredentials kr c = Returned (login, password, None) /\
     auth !! "login"%string = Some (VString login) /\
     auth !! "password"%string = Some (VString password)) \/
  (exists s c w,
     k' = (s +:+ "_encrypted")%string /\ is_secret s = true /\ v' = VString c /\
     DecryptCredentialsData kr c = Returned (Some w, None) /\ auth !! s = Some w).

End Encoded.

(** A stand-in for [encoding/json] on values, for examples: strings between
    quotes and [null]. *)
Definition toy_json_value : Json value := {|
  Marshal := fun v =>
    match v with
    | VString s => inr ([x22] ++ bytes s ++ [x22])
    | VNil => inr (bytes "null")
    | _ => inl "json: unsupported value"%string
    end;
  Unmarshal := fun b =>
    match b with
    | x22 :: rest =>
        match reverse rest with
        | x22 :: body => inr (VString (str (reverse body)))
        | _ => inl "unexpected end of JSON input"%string
        end
    | _ => if bool_decide (b = bytes "null") then inr VNil
           else inl "invalid character"%string
    end
|}.

(** One order of visit, and two documents, for examples: an account as
    it is before its first encryption, and one as it is stored. *)
Definition in_stored_order : nat -> gmap string value -> list (string * value) :=
  fun _ m => map_to_list m.

Definition sample_doc : gmap string value :=
  {[ "auth"%string :=
       VMap {[ "login"%string := VString "alice";
               "password"%string := VString "pw";
               "secret"%string := VString "s";
               "other"%string := VNum 3 ]};
     "data"%string :=
       VMap {[ "auth"%string :=
                 VMap {[ "login"%string := VString "bob";
                         "password"%string := VString "x" ]} ]};
     "name"%string := VString "n" ]}.

Definition stored_doc : gmap string value :=
  {[ "auth"%string :=
       VMap {[ "login"%string := VString "alice";
               "credentials_encrypted"%string := VString "bmFjbA==";
               "other"%string := VNum 3 ]};
     "name"%string := VString "n" ]}.

End Doc.

(* ===================================================================== *)
(** * Part II: properties                                                 *)
(* ===================================================================== *)

Module LockFacts.
Import Lock.

Section Invariant.
Context {L : Type} {locker : longOperationLocker L}.

Lemma no_releasing (tr : list event) :
  tally is_tick_nil tr = 0%nat -> tally is_unlock tr = 0%nat ->
  existsb releasing tr = false.
Proof.
  induction tr as [|e tr IH]; simpl; [done|].
  intros H1 H2. unfold releasing at 1.
  destruct (is_tick_nil e), (is_unlock e); simpl in *; try lia.
  apply IH; lia.
Qed.

Lemma Inv_init (lk : L) (d : Duration) : Inv d (init lk d).
Proof. unfold Inv, phase, stops; simpl. split_and!; auto. Qed.

Ltac break :=
  repeat match goal with
  | H : _ /\ _ |- _ => destruct H
  | H : exists _, _ |- _ => destruct H
  | H : one_task _ _ _ _ _ |- _ => unfold one_task in H; simpl in H
  | H : one_ticker _ _ _ |- _ => unfold one_ticker in H
  | H : stops _ = _ |- _ => unfold stops in H; simpl in H
  end; simplify_eq/=.

Ltac close :=
  unfold Inv, phase, one_task, one_ticker, stops; simpl;
  split_and?; eauto; try lia; try congruence;
  try (eexists; split_and?; eauto; done);
  try match goal with
      | Hs : staged ?tr = true, Hn : tally _ ?tr = 1%nat
        |- context [staged ?tr] => by rewrite Hs, Hn
      end.

Lemma Inv_caller (d : Duration) (w w' : world L) :
  Inv d w -> caller_step w = Some w' -> Inv d w'.
Proof.
  intros (Hf & Ht & Hq & Hsg & He & Hr & Hg & Hp) Hs.
  destruct w as [[lk m tk to] tks c gs tr f]; simpl in *.
  unfold caller_step in Hs; simpl in Hs.
  unfold phase in Hp; simpl in Hp.
  destruct c; break.
  - destruct (Lock lk) as [[e|] lk']; simplify_eq/=; close.
  - unfold NewTicker in Hs. destruct (Z.quot d 3 <=? 0); simplify_eq/=; close.
  - close.
  - unfold mu_Lock in Hs; simpl in Hs.
    destruct (in_mu x) eqn:Hx; simplify_eq/=. close.
    eexists; split_and?; eauto. by rewrite Hx.
  - close.
  - close.
  - close.
  - assert (Hm : in_mu x = false) by (by destruct (in_mu x)).
    unfold mu_Unlock; simpl. rewrite Hm; simpl. close.
    intros g [= <-]. by destruct x.
Qed.

Lemma Inv_task (d : Duration) (i : nat) (w w' : world L) :
  Inv d w -> task_step i w = Some w' -> Inv d w'.
Proof.
  intros (Hf & Ht & Hq & Hsg & He & Hr & Hg & Hp) Hs.
  destruct w as [[lk m tk to] tks c gs tr f]; simpl in *.
  unfold task_step in Hs; simpl in Hs.
  unfold phase in Hp; simpl in Hp.
  destruct c; break; try done.
  all: destruct i as [|i]; simplify_eq/=.
  all: try match goal with
       | H : forall g, [?x] = [g] -> _ |- _ => specialize (H _ eq_refl)
       end.
  all: destruct x; unfold mu_Lock, mu_Unlock, jump in *; simplify_eq/=.
  all: try match goal with
       | H : (if ?c then _ else _) = Some _ |- _ => destruct c; simplify_eq/=
       end.
  all: try (close; fail).
  all: try (close; [by rewrite no_releasing | by intros g [= <-]]; fail).
  all: try (close; by intros g [= <-]).
  all: close; by rewrite no_releasing.
Qed.

Lemma Inv_clock (d : Duration) (t : nat) (w w' : world L) :
  Inv d w -> clock_step t w = Some w' -> Inv d w'.
Proof.
  intros (Hf & Ht & Hq & Hsg & He & Hr & Hg & Hp) Hs.
  destruct w as [[lk m tk to] tks c gs tr f]; simpl in *.
  unfold clock_step in Hs; simpl in Hs.
  unfold phase in Hp; simpl in Hp.
  destruct c; break; try done.
  all: destruct t as [|t]; simplify_eq/=.
  all: try match goal with
       | H : forall g, [?x] = [g] -> _ |- _ => specialize (H _ eq_refl)
       end.
  all: unfold buffered in *; simpl in *.
  all: match goal with
       | H : context [if ?c then 1%nat else 0%nat] |- _ => destruct c
       end.
  all: close.
  all: by intros g [= <-].
Qed.

Lemma Inv_step (d : Duration) (w w' : world L) :
  Inv d w -> step w w' -> Inv d w'.
Proof.
  intros HI [a Ha]. unfold step_of in Ha.
  destruct (fatal w); [done|].
  destruct a; eauto using Inv_caller, Inv_task, Inv_clock.
Qed.

Lemma Inv_reachable (lk : L) (d : Duration) (w : world L) :
  reachable lk d w -> Inv d w.
Proof.
  unfold reachable. revert w.
  apply rtc_ind_r; eauto using Inv_init, Inv_step.
Qed.

Lemma quiet_newer (newer older : list event) (e : event) :
  quiet (newer ++ e :: older) = true -> releasing e = true -> EvExtend ∉ newer.
Proof.
  induction newer as [|x newer IH]; simpl; intros Hq He.
  - apply not_elem_of_nil.
  - apply andb_prop in Hq as [Hx Hq].
    apply not_elem_of_cons; split; [|by apply IH].
    intros <-. simpl in Hx.
    rewrite existsb_app in Hx; simpl in Hx.
    rewrite He, orb_true_r in Hx. done.
Qed.

Lemma quiet_history (tr pre post : list event) (e : event) :
  quiet tr = true -> rev tr = pre ++ e :: post -> releasing e = true ->
  EvExtend ∉ post.
Proof.
  intros Hq Hrev He.
  assert (Htr : tr = rev post ++ e :: rev pre).
  { rewrite <- (rev_involutive tr), Hrev, rev_app_distr; simpl.
    by rewrite <- app_assoc. }
  rewrite Htr in Hq. apply quiet_newer in Hq; [|done].
  intros Hin. apply Hq. apply list_elem_of_In, in_rev.
  rewrite rev_involutive. by apply list_elem_of_In.
Qed.

(** A state in which [Unlock] has returned and the goroutine waits on the
    channel of the stopped ticker, with nothing buffered, has no successor. *)
Lemma blocked_after_release (lk : L) (d : Duration) (w : world L) (ch : nat) :
  reachable lk d w -> caller w = Released -> tasks w = [G70 ch] ->
  (forall tk, tickers w !! ch = Some tk -> C tk = false) ->
  forall a, step_of a w = None.
Proof.
  intros Hr Hc Hg Hch a. apply Inv_reachable in Hr.
  destruct Hr as (Hf & Ht & Hq & Hsg & He & Hrc & Hgo & Hp).
  destruct w as [[lk0 m tk to] tks c gs tr f]; simpl in *.
  unfold phase in Hp; simpl in Hp. subst c.
  unfold step_of; simpl. break.
  destruct a as [|i|t]; [done| |].
  - unfold task_step; simpl. destruct i; [|done]. simpl.
    specialize (Hch _ eq_refl); simpl in Hch. by rewrite Hch.
  - unfold clock_step; simpl. by destruct t.
Qed.

Lemma exec_steps (sched : list tid) (w w' : world L) :
  exec sched w = Some w' -> rtc step w w'.
Proof.
  revert w. induction sched as [|a sched IH]; simpl; intros w Hx.
  - injection Hx as <-. apply rtc_refl.
  - destruct (step_of a w) as [w1|] eqn:Ha; [|done].
    eapply rtc_l; [by exists a | by apply IH].
Qed.




(** C2: with one [Lock()]/[Unlock()] pair, in every reachable state the
    history has no [Extend] of the wrapped lock after the event by which
    [Unlock] cleared the timer field, nor after the wrapped [Unlock]. *)
Theorem Extend_never_after_release (lk : L) (d : Duration) (w : world L) :
  reachable lk d w ->
  forall pre e post,
    history w = pre ++ e :: post ->
    e = EvTickNil \/ e = EvUnlock ->
    EvExtend ∉ post.
Proof.
  intros Hr pre e post Hh He. apply Inv_reachable in Hr.
  destruct Hr as (_ & _ & Hq & _).
  eapply quiet_history; eauto. by destruct He as [-> | ->].
Qed.

(** X1.  What [Unlock] does do: once it has returned, the ticker was stopped
    once, the timer field cleared once after that, the wrapped [Unlock]
    called once after that, and the ticker is off. *)
Lemma Unlock_stops_then_releases (lk : L) (d : Duration) (w : world L) :
  reachable lk d w -> caller w = Released ->
  stops w = (1, 1, 1)%nat /\ staged (trace w) = true /\
  tick (self w) = None /\ Forall (fun tk => running tk = false) (tickers w).
Proof.
  intros Hr Hc. apply Inv_reachable in Hr.
  destruct Hr as (_ & _ & _ & Hsg & _ & _ & _ & Hp).
  unfold phase in Hp. rewrite Hc in Hp.
  destruct Hp as ((g & Hg & (c & Htk) & Ht & _) & _ & Hs).
  split_and!; try done. rewrite Htk. by repeat constructor.
Qed.

(** C4: when the wrapped [Lock()] returns an error, [longOperation.Lock()]
    returns that error in one step and is over; the timer field, the mutex,
    the timeout, the tickers and the goroutines are what they were. *)
Theorem Lock_failure_changes_nothing (w : world L) (e : error) :
  fatal w = false -> caller w = L57 -> (Lock (lock (self w))).1 = Some e ->
  exists w',
    step_of Caller w = Some w' /\
    returned (caller w') = Some (Some e) /\
    tick (self w') = tick (self w) /\
    mu (self w') = mu (self w) /\
    timeout (self w') = timeout (self w) /\
    tickers w' = tickers w /\
    tasks w' = tasks w /\
    tally is_go (trace w') = tally is_go (trace w) /\
    step_of Caller w' = None.
Proof.
  intros Hf Hc Hl. unfold step_of, caller_step. rewrite Hf, Hc.
  destruct (Lock (lock (self w))) as [r lk'] eqn:HL; simpl in Hl; subst r.
  eexists; split_and!; try reflexivity. simpl. by rewrite Hf.
Qed.

End Invariant.


(** C2 at an instance: a lock held over one tick and then released. *)
Lemma Extend_never_after_release_witness :
  exists w,
    exec (locker := granted)
      ([Caller; Caller; Caller; Task 0; Task 0; Task 0; Clock 0] ++
       replicate 8 (Task 0) ++ replicate 5 Caller) (init 0%nat 60000000000) = Some w /\
    history w = [EvLock None; EvNewTicker 20000000000; EvGo; EvFire 0; EvRecv 0;
                 EvExtend; EvStop 0] ++ EvTickNil :: [EvUnlock] /\
    EvExtend ∉ [EvUnlock].
Proof.
  eexists. split; [vm_compute; reflexivity|]. split; [reflexivity|].
  refine (Extend_never_after_release (locker := granted) 0%nat 60000000000 _ _
            [EvLock None; EvNewTicker 20000000000; EvGo; EvFire 0; EvRecv 0;
             EvExtend; EvStop 0] EvTickNil [EvUnlock] _ _).
  - apply exec_steps with
      (sched := [Caller; Caller; Caller; Task 0; Task 0; Task 0; Clock 0] ++
                replicate 8 (Task 0) ++ replicate 5 Caller).
    vm_compute; reflexivity.
  - reflexivity.
  - left; reflexivity.
Defined.

(** C4 at an instance: a locker that refuses with an error. *)
Lemma Lock_failure_changes_nothing_witness :
  exists w',
    step_of (locker := refused "redis: timeout") Caller (init tt 60000000000) = Some w' /\
    returned (caller w') = Some (Some "redis: timeout"%string) /\
    tasks w' = [] /\ tickers w' = [].
Proof.
  destruct (Lock_failure_changes_nothing (locker := refused "redis: timeout")
              (init tt 60000000000) "redis: timeout" eq_refl eq_refl eq_refl)
    as (w' & Hs & Hr & _ & _ & _ & Htk & Hg & _).
  exists w'. split_and!; assumption.
Defined.

(** C3 (what the code does): [Lock()], the goroutine reaches [<-ch], then
    [Unlock()].  [Unlock] stops the ticker, clears the field and calls the
    wrapped [Unlock] once, in that order, and returns; the goroutine is left
    at [<-ch] on the stopped ticker and nothing can ever run again: it does
    not terminate. *)
Theorem Unlock_leaves_renewal_task_blocked :
  exists w,
    exec (locker := granted)
      ([Caller; Caller; Caller; Task 0; Task 0; Task 0] ++ replicate 5 Caller)
      (init 0%nat 60000000000) = Some w /\
    caller w = Released /\
    history w = [EvLock None; EvNewTicker 20000000000; EvGo;
                 EvStop 0; EvTickNil; EvUnlock] /\
    tickers w = [mkTicker 20000000000 false false] /\
    tasks w = [G70 0] /\
    forall w', rtc (step (locker := granted)) w w' -> tasks w' = [G70 0].
Proof.
  eexists. split; [vm_compute; reflexivity|]. split_and!; try reflexivity.
  intros w' Hw'.
  apply rtc_nf in Hw' as <-; [reflexivity|].
  intros [y [a Ha]]. revert Ha.
  erewrite (blocked_after_release (locker := granted) 0%nat 60000000000); [done| | | |].
  - apply exec_steps with
      (sched := [Caller; Caller; Caller; Task 0; Task 0; Task 0] ++ replicate 5 Caller).
    vm_compute; reflexivity.
  - reflexivity.
  - reflexivity.
  - by intros tk [= <-].
Qed.

(** C5: [New] returns the in-memory getter exactly when the client is
    [nil], and the redis getter built on the client otherwise. *)
Theorem New_selects_backend (UniversalClient : Type) (client : option UniversalClient) :
  (New client = NewInMemory <-> client = None) /\
  (is_in_memory (New client) = true <-> client = None) /\
  (forall c, client = Some c <-> New client = NewRedisLockGetter c).
Proof.
  unfold New, NewRedisLockGetter, NewInMemory.
  destruct client as [c|]; simpl; split_and!.
  all: try (split; intros; congruence).
  all: intros c'; split; congruence.
Qed.

End LockFacts.

Module KeyNamerFacts.
Import KeyNamer.

Lemma append_nil (s : string) : "" +:+ s = s.
Proof. reflexivity. Qed.

Lemma append_cons (c : ascii) (s1 s2 : string) :
  String c s1 +:+ s2 = String c (s1 +:+ s2).
Proof. reflexivity. Qed.

Lemma length_append (s1 s2 : string) :
  String.length (s1 +:+ s2) = (String.length s1 + String.length s2)%nat.
Proof.
  induction s1 as [|c s1 IH]; [done|].
  rewrite append_cons; simpl. by rewrite IH.
Qed.

Lemma append_inv_tail (s1 s2 s : string) : s1 +:+ s = s2 +:+ s -> s1 = s2.
Proof.
  revert s2. induction s1 as [|c s1 IH]; intros [|c2 s2] H.
  - done.
  - apply (f_equal String.length) in H.
    rewrite !length_append in H; simpl in H. lia.
  - apply (f_equal String.length) in H.
    rewrite !length_append in H; simpl in H. lia.
  - rewrite !append_cons in H. injection H as -> H. f_equal. by apply IH.
Qed.

Lemma key_split (t1 t2 n1 n2 : string) :
  no_slash t1 = true -> no_slash t2 = true ->
  key t1 n1 = key t2 n2 -> t1 = t2 /\ n1 = n2.
Proof.
  unfold key. revert t2.
  induction t1 as [|c t1 IH]; intros [|c2 t2] H1 H2 H;
    rewrite ?append_nil, ?append_cons, ?append_nil in H; simpl in H1, H2.
  - by injection H as ->.
  - injection H as <- _. by rewrite Ascii.eqb_refl in H2.
  - injection H as -> _. by rewrite Ascii.eqb_refl in H1.
  - injection H as -> H.
    apply andb_prop in H1 as [_ H1]. apply andb_prop in H2 as [_ H2].
    destruct (IH t2 H1 H2 H) as [-> ->]. done.
Qed.

(** C6 as stated fails: a slash inside the tenant moves the border. *)
Lemma key_collision :
  ~ (forall t1 n1 t2 n2 : string, key t1 n1 = key t2 n2 -> t1 = t2 /\ n1 = n2).
Proof.
  intros H. by destruct (H "a" "b/c" "a/b" "c" eq_refl) as [? _].
Qed.

(** C6, amended: [key] tells apart any two (tenant, name) pairs whose
    tenant identifiers contain no slash; and for one and the same name,
    different tenants always have different keys. *)
Theorem key_collision_free :
  (forall t1 n1 t2 n2 : string,
     no_slash t1 = true -> no_slash t2 = true ->
     key t1 n1 = key t2 n2 -> t1 = t2 /\ n1 = n2) /\
  (forall t1 t2 n : string, t1 <> t2 -> key t1 n <> key t2 n).
Proof.
  split.
  - intros t1 n1 t2 n2. apply key_split.
  - intros t1 t2 n Hne H. apply Hne. unfold key in H.
    by apply append_inv_tail in H.
Qed.

Lemma key_collision_free_witness :
  no_slash "alice.example.net" = true /\ no_slash "bob.example.net" = true /\
  key "alice.example.net" "vfs" <> key "bob.example.net" "vfs" /\
  (key "alice.example.net" "vfs" = key "alice.example.net" "vfs" ->
   "alice.example.net" = "alice.example.net" /\ "vfs" = "vfs").
Proof.
  split; [reflexivity|]. split; [reflexivity|]. split.
  - apply (proj2 key_collision_free). discriminate.
  - apply (proj1 key_collision_free); reflexivity.
Defined.

End KeyNamerFacts.

Module InMemoryFacts.
Import InMemory.

Lemma get_insert_eq (s : sys) (k : string) (m : memLock) (h : gmap nat string) :
  get (mkSys (<[k := m]> (locks s)) h) k = m.
Proof. unfold get; simpl. by rewrite lookup_insert_eq. Qed.

Lemma get_insert_ne (s : sys) (k k' : string) (m : memLock) (h : gmap nat string) :
  k <> k' -> get (mkSys (<[k := m]> (locks s)) h) k' = get s k'.
Proof. intros Hne. unfold get; simpl. by rewrite lookup_insert_ne. Qed.

Lemma mem_Inv_init : Inv init.
Proof. split; intros *; unfold init; simpl; by rewrite lookup_empty. Qed.

Lemma mem_Inv_act (a : action) (s s' : sys) : Inv s -> act a s = Some s' -> Inv s'.
Proof.
  intros [Hw Hu] Ha. destruct a as [h k|h|h|k|k]; simpl in Ha.
  - destruct (held s !! h) eqn:Hh; [done|].
    destruct (negb (writer (get s k)) && Nat.eqb (readers (get s k)) 0) eqn:Hg; [|done].
    apply andb_prop in Hg as [Hg _]. apply negb_true_iff in Hg.
    injection Ha as <-. split; simpl.
    + intros h' k' Hh'. destruct (decide (h = h')) as [<-|Hne].
      * rewrite lookup_insert_eq in Hh'. injection Hh' as <-.
        by rewrite get_insert_eq.
      * rewrite lookup_insert_ne in Hh' by done.
        destruct (decide (k = k')) as [<-|Hk].
        -- apply Hw in Hh'. congruence.
        -- rewrite get_insert_ne by done. eauto.
    + intros h1 h2 k' H1 H2.
      destruct (decide (h = h1)) as [<-|N1], (decide (h = h2)) as [<-|N2]; [done| | |].
      * rewrite lookup_insert_eq in H1. injection H1 as <-.
        rewrite lookup_insert_ne in H2 by done. apply Hw in H2. congruence.
      * rewrite lookup_insert_eq in H2. injection H2 as <-.
        rewrite lookup_insert_ne in H1 by done. apply Hw in H1. congruence.
      * rewrite lookup_insert_ne in H1, H2 by done. eauto.
  - destruct (held s !! h) as [k|] eqn:Hh; [|done].
    injection Ha as <-. split; simpl.
    + intros h' k' Hh'. destruct (decide (h = h')) as [<-|Hne].
      * by rewrite lookup_delete_eq in Hh'.
      * rewrite lookup_delete_ne in Hh' by done.
        destruct (decide (k = k')) as [<-|Hk].
        -- by destruct Hne; eapply Hu.
        -- rewrite get_insert_ne by done. eauto.
    + intros h1 h2 k' H1 H2.
      destruct (decide (h = h1)) as [<-|N1]; [by rewrite lookup_delete_eq in H1|].
      destruct (decide (h = h2)) as [<-|N2]; [by rewrite lookup_delete_eq in H2|].
      rewrite lookup_delete_ne in H1, H2 by done. eauto.
  - destruct (held s !! h); [|done]. by injection Ha as <-.
  - destruct (writer (get s k)) eqn:Hg; [done|].
    injection Ha as <-. split; simpl; [|done].
    intros h' k' Hh'. destruct (decide (k = k')) as [<-|Hk].
    + apply Hw in Hh'. congruence.
    + rewrite get_insert_ne by done. eauto.
  - injection Ha as <-. split; simpl; [|done].
    intros h' k' Hh'. destruct (decide (k = k')) as [<-|Hk].
    + rewrite get_insert_eq; simpl. eauto.
    + rewrite get_insert_ne by done. eauto.
Qed.

Lemma mem_Inv_reachable (s : sys) : rtc step init s -> Inv s.
Proof.
  revert s. apply rtc_ind_r; [apply mem_Inv_init|].
  intros s s' _ [a Ha] HI. eauto using mem_Inv_act.
Qed.

Lemma mem_mutual_exclusion (s : sys) (h1 h2 : nat) (k : string) :
  rtc step init s -> holds s h1 k -> holds s h2 k -> h1 = h2.
Proof. intros Hr. destruct (mem_Inv_reachable s Hr) as [_ Hu]. apply Hu. Qed.

Lemma Lock_waits (s : sys) (h1 h2 : nat) (k : string) :
  rtc step init s -> holds s h1 k -> act (Acquire h2 k) s = None.
Proof.
  intros Hr Hh. destruct (mem_Inv_reachable s Hr) as [Hw _].
  simpl. destruct (held s !! h2); [done|].
  by rewrite (Hw _ _ Hh).
Qed.

End InMemoryFacts.

Module RedisFacts.
Import Redis.

Section Backend.
Variable ttl : Z.

Lemma lease_Inv_init : Inv init.
Proof. split; intros *; unfold init; simpl; by rewrite lookup_empty. Qed.

Lemma lease_Inv_act (a : action) (s s' : sys) :
  Inv s -> act ttl a s = Some s' -> Inv s'.
Proof.
  intros [Hlt Hu] Ha. destruct a as [h k|h|h|k|k|d]; simpl in Ha.
  - destruct (held s !! h) eqn:Hh; [done|].
    destruct (try_Lock ttl k (fresh s) (st s)) as [[] st']; [|done].
    injection Ha as <-. split; simpl.
    + intros h' k' t Hh'. destruct (decide (h = h')) as [<-|Hne].
      * rewrite lookup_insert_eq in Hh'. injection Hh' as <- <-. lia.
      * rewrite lookup_insert_ne in Hh' by done. apply Hlt in Hh'. lia.
    + intros h1 h2 k1 k2 t H1 H2.
      destruct (decide (h = h1)) as [<-|N1], (decide (h = h2)) as [<-|N2]; [done| | |].
      * rewrite lookup_insert_eq in H1. injection H1 as <- <-.
        rewrite lookup_insert_ne in H2 by done. apply Hlt in H2. lia.
      * rewrite lookup_insert_eq in H2. injection H2 as <- <-.
        rewrite lookup_insert_ne in H1 by done. apply Hlt in H1. lia.
      * rewrite lookup_insert_ne in H1, H2 by done. eauto.
  - destruct (held s !! h) as [[k tok]|] eqn:Hh; [|done].
    injection Ha as <-. split; simpl.
    + intros h' k' t Hh'. apply lookup_delete_Some in Hh' as [_ Hh']. eauto.
    + intros h1 h2 k1 k2 t H1 H2.
      apply lookup_delete_Some in H1 as [_ H1].
      apply lookup_delete_Some in H2 as [_ H2]. eauto.
  - destruct (held s !! h) as [[k tok]|]; [|done]. by injection Ha as <-.
  - destruct (try_RLock k (st s)) as [[] st']; [|done]. by injection Ha as <-.
  - by injection Ha as <-.
  - destruct (0 <? d); [|done]. by injection Ha as <-.
Qed.

Lemma lease_Inv_reachable (s : sys) : rtc (step ttl) init s -> Inv s.
Proof.
  revert s. apply rtc_ind_r; [apply lease_Inv_init|].
  intros s s' _ [a Ha] HI. eauto using lease_Inv_act.
Qed.

Lemma run_steps (acts : list action) (s s' : sys) :
  run ttl acts s = Some s' -> rtc (step ttl) s s'.
Proof.
  revert s. induction acts as [|a acts IH]; simpl; intros s Hr.
  - injection Hr as <-. apply rtc_refl.
  - destruct (act ttl a s) as [s1|] eqn:Ha; [|done].
    eapply rtc_l; [by exists a | by apply IH].
Qed.

(** C7, amended: in the distributed backend at most one client holds a key
    with a lease that is still live, and while one does no other [Lock()]
    on that key is granted; in the in-memory backend, where nothing expires,
    at most one client holds a key and no other [Lock()] is granted before
    its [Unlock()]. *)
Theorem one_live_holder :
  (forall s h1 h2 k,
     rtc (step ttl) init s ->
     holds_live s h1 k -> holds_live s h2 k -> h1 = h2) /\
  (forall s h1 h2 k,
     rtc (step ttl) init s ->
     holds_live s h1 k -> act ttl (Acquire h2 k) s = None) /\
  (forall s h1 h2 k,
     rtc InMemory.step InMemory.init s ->
     InMemory.holds s h1 k -> InMemory.holds s h2 k -> h1 = h2) /\
  (forall s h1 h2 k,
     rtc InMemory.step InMemory.init s ->
     InMemory.holds s h1 k -> InMemory.act (InMemory.Acquire h2 k) s = None).
Proof.
  split_and!.
  - intros s h1 h2 k Hr (t1 & H1 & O1) (t2 & H2 & O2).
    destruct (lease_Inv_reachable s Hr) as [_ Hu].
    rewrite O1 in O2. injection O2 as <-. eauto.
  - intros s h1 h2 k _ (t1 & H1 & O1). simpl.
    destruct (held s !! h2); [done|].
    unfold try_Lock, set_if_absent. rewrite O1.
    by destruct (Nat.eqb (reader_count (st s) k) 0).
  - intros s h1 h2 k. apply InMemoryFacts.mem_mutual_exclusion.
  - intros s h1 h2 k. apply InMemoryFacts.Lock_waits.
Qed.

(** C8: in the distributed backend, [Unlock] with a token that is not the
    stored one deletes nothing: the store, and with it the lease of the
    current holder, is what it was, and the call returns as any other
    [Unlock] does (it has no error result). *)
Theorem Unlock_stale_token_is_noop (s : store) (k : string) (tok : nat) :
  owner s k <> Some tok ->
  delete_if_equals k tok s = (false, s) /\
  Unlock k tok s = s /\
  owner (Unlock k tok s) k = owner s k /\
  (forall (c : sys) (h : nat),
     st c = s -> held c !! h = Some (k, tok) ->
     act ttl (Release h) c = Some (mkSys s (delete h (held c)) (fresh c))).
Proof.
  intros Hne.
  assert (Hd : delete_if_equals k tok s = (false, s)).
  { unfold delete_if_equals. destruct (owner s k) as [t|]; [|done].
    destruct (Nat.eqb_spec t tok) as [->|]; [by destruct Hne | done]. }
  assert (Hu : Unlock k tok s = s) by (unfold Unlock; by rewrite Hd).
  split_and!; [done|done|by rewrite Hu|].
  intros c h <- Hh. simpl. by rewrite Hh, Hu.
Qed.

End Backend.

(** C7 as stated fails in the distributed backend: the first holder's
    lease expires and a second [Lock()] is granted before any [Unlock()]. *)
Lemma two_holders_after_expiry : ~ mutual_exclusion 20.
Proof.
  intros H.
  assert (Hr : run 20 [Acquire 1 "a/b"; Elapse 20; Acquire 2 "a/b"] init =
               Some (mkSys (mkStore {["a/b" := mkLease 1 40]} ∅ 20)
                       (<[2%nat := ("a/b"%string, 1%nat)]> {[1%nat := ("a/b"%string, 0%nat)]}) 2)).
  { vm_compute. reflexivity. }
  apply run_steps in Hr.
  specialize (H _ Hr 1%nat 2%nat "a/b"%string).
  discriminate H; [by exists 0%nat | by exists 1%nat].
Qed.

(** C7 at an instance: while client 1 holds a live lease on "a/b", the
    [Lock()] of client 2 is not granted. *)
Lemma one_live_holder_witness :
  exists s,
    run 20 [Acquire 1 "a/b"] init = Some s /\
    holds_live s 1 "a/b" /\
    act 20 (Acquire 2 "a/b") s = None.
Proof.
  eexists. split; [vm_compute; reflexivity|].
  assert (Hl : holds_live
                 (mkSys (mkStore {["a/b"%string := mkLease 0 20]} ∅ 0)
                    {[1%nat := ("a/b"%string, 0%nat)]} 1) 1 "a/b").
  { exists 0%nat. split; vm_compute; reflexivity. }
  split; [exact Hl|].
  refine (proj1 (proj2 (one_live_holder 20)) _ 1%nat 2%nat "a/b"%string _ Hl).
  apply run_steps with (acts := [Acquire 1 "a/b"]). vm_compute; reflexivity.
Defined.

(** C8 at an instance: the lease of "a/b" was reclaimed with token 1; the
    [Unlock] of the holder of token 0 leaves it alone. *)
Lemma Unlock_stale_token_is_noop_witness :
  owner (mkStore {["a/b"%string := mkLease 1 40]} ∅ 20) "a/b" <> Some 0%nat /\
  Unlock "a/b" 0 (mkStore {["a/b"%string := mkLease 1 40]} ∅ 20) =
  mkStore {["a/b"%string := mkLease 1 40]} ∅ 20.
Proof.
  assert (H : owner (mkStore {["a/b"%string := mkLease 1 40]} ∅ 20) "a/b" <> Some 0%nat).
  { vm_compute. intros [=]. }
  split; [exact H|].
  exact (proj1 (proj2 (Unlock_stale_token_is_noop 20 _ "a/b" 0%nat H))).
Defined.

End RedisFacts.

Module GoFacts.
Import Go.

Lemma u8_range (b : byte) : 0 <= u8 b < 256.
Proof. unfold u8. pose proof (Byte.to_N_bounded b). lia. Qed.

Lemma to_byte_u8 (b : byte) : to_byte (u8 b) = b.
Proof.
  unfold to_byte. pose proof (u8_range b).
  rewrite Z.mod_small by done. unfold u8.
  by rewrite N2Z.id, Byte.of_to_N.
Qed.

Lemma to_byte_mod (z : Z) (b : byte) : z mod 256 = u8 b -> to_byte z = b.
Proof.
  intros H. rewrite <- (to_byte_u8 b). unfold to_byte.
  rewrite H. by rewrite (Z.mod_small (u8 b)) by apply u8_range.
Qed.

Lemma lor_add (x lo k : Z) :
  0 <= k -> 0 <= lo < 2 ^ k -> x mod 2 ^ k = 0 -> Z.lor x lo = x + lo.
Proof.
  intros Hk Hlo Hx.
  assert (Hland : Z.land x lo = 0).
  { apply Z.bits_inj'. intros n Hn. rewrite Z.land_spec, Z.bits_0.
    destruct (Z.lt_ge_cases n k) as [Hlt|Hge].
    - assert (Hxe : x = x / 2 ^ k * 2 ^ k).
      { pose proof (Z.div_mod x (2 ^ k)). lia. }
      rewrite Hxe, Z.mul_pow2_bits_low by lia. done.
    - rewrite <- (Z.mod_small lo (2 ^ k)) by done.
      rewrite Z.mod_pow2_bits_high by lia. apply andb_false_r. }
  rewrite <- Z.lxor_lor by done. symmetry. by apply Z.add_nocarry_lxor.
Qed.

Lemma lor_shiftl (lo hi k : Z) :
  0 <= k -> 0 <= lo < 2 ^ k -> Z.lor lo (Z.shiftl hi k) = lo + hi * 2 ^ k.
Proof.
  intros Hk Hlo. rewrite Z.shiftl_mul_pow2, Z.lor_comm by done.
  rewrite (lor_add _ lo k); [lia|done|done|]. by apply Z.mod_mul, Z.pow_nonzero.
Qed.

Lemma land_63 (v : Z) : Z.land v 63 = v mod 64.
Proof. change 63 with (Z.ones 6). by rewrite Z.land_ones. Qed.

Lemma u8_to_byte (z : Z) : u8 (to_byte z) = z mod 256.
Proof.
  unfold to_byte, u8.
  pose proof (Z.mod_pos_bound z 256 eq_refl) as Hm.
  destruct (Byte.of_N (Z.to_N (z mod 256))) as [b|] eqn:Hb; simpl.
  - apply Byte.to_of_N in Hb. rewrite Hb. lia.
  - apply Byte.of_N_None_iff in Hb. lia.
Qed.

Ltac bits_to_arith :=
  rewrite ?Z.shiftr_div_pow2 by lia;
  rewrite ?land_63;
  change (2 ^ 6) with 64 in *; change (2 ^ 8) with 256 in *;
  change (2 ^ 12) with 4096 in *; change (2 ^ 16) with 65536 in *;
  change (2 ^ 18) with 262144 in *; change (2 ^ 24) with 16777216 in *;
  change (2 ^ 32) with 4294967296 in *.

Ltac arith := bits_to_arith; Z.div_mod_to_equations; lia.

Lemma Uint32_PutUint32 (b : list byte) (v : Z) (b' : list byte) :
  0 <= v < 2 ^ 32 -> PutUint32 b v = Returned b' -> Uint32 b' = Returned v.
Proof.
  intros Hv. unfold PutUint32.
  destruct (4 <=? length b)%nat; [|done]. intros [= <-]. simpl.
  f_equal. rewrite !u8_to_byte.
  rewrite (lor_shiftl _ _ 8) by arith.
  rewrite (lor_shiftl _ _ 16) by arith.
  rewrite (lor_shiftl _ _ 24) by arith.
  arith.
Qed.

End GoFacts.

Module Base64Facts.
Import Go Base64 GoFacts.


Ltac lor_step :=
  match goal with
  | |- context [Z.lor ?x ?lo] =>
      first [ rewrite (lor_add x lo 6) by arith
            | rewrite (lor_add x lo 8) by arith
            | rewrite (lor_add x lo 12) by arith
            | rewrite (lor_add x lo 16) by arith
            | rewrite (lor_add x lo 18) by arith ]
  end.

Ltac lor_to_add := rewrite ?Z.shiftl_mul_pow2 by lia; bits_to_arith; repeat lor_step.

Lemma below_64 (p : Z -> bool) :
  forallb (fun n => p (Z.of_nat n)) (seq 0 64) = true ->
  forall v, 0 <= v < 64 -> p v = true.
Proof.
  intros Hall v Hv. rewrite forallb_forall in Hall.
  rewrite <- (Z2Nat.id v) by lia. apply Hall, in_seq. lia.
Qed.

Lemma decode_encode_char (v : Z) :
  0 <= v < 64 -> decode_char (encode_char v) = Some v.
Proof.
  intros Hv.
  apply (below_64 (fun v => match decode_char (encode_char v) with
                            | Some u => u =? v
                            | None => false
                            end)) in Hv.
  - destruct (decode_char (encode_char v)) as [u|]; [|done].
    by apply Z.eqb_eq in Hv as ->.
  - vm_compute. reflexivity.
Qed.

Lemma encode_char_plain (v : Z) :
  0 <= v < 64 ->
  Ascii.eqb (encode_char v) padChar = false /\ is_newline (encode_char v) = false.
Proof.
  intros Hv.
  apply (below_64 (fun v => negb (Ascii.eqb (encode_char v) padChar) &&
                            negb (is_newline (encode_char v)))) in Hv.
  - apply andb_prop in Hv as [H1 H2].
    by apply negb_true_iff in H1, H2.
  - vm_compute. reflexivity.
Qed.

Lemma sextet_range (val sh : Z) : 0 <= sh -> 0 <= Z.land (Z.shiftr val sh) 63 < 64.
Proof. intros Hs. rewrite land_63. by apply Z.mod_pos_bound. Qed.

Lemma decode_sextet (val sh : Z) :
  0 <= sh -> decode_char (sextet val sh) = Some (Z.land (Z.shiftr val sh) 63).
Proof. intros Hs. by apply decode_encode_char, sextet_range. Qed.

Lemma sextet_plain (val sh : Z) :
  0 <= sh ->
  Ascii.eqb (sextet val sh) padChar = false /\ is_newline (sextet val sh) = false.
Proof. intros Hs. by apply encode_char_plain, sextet_range. Qed.

Lemma quantum_3 (b0 b1 b2 : byte) :
  let val := Z.lor (Z.lor (Z.shiftl (u8 b0) 16) (Z.shiftl (u8 b1) 8)) (u8 b2) in
  quantum (sextet val 18) (sextet val 12) (sextet val 6) (sextet val 0) =
  Some [b0; b1; b2].
Proof.
  intros val. unfold quantum. rewrite !decode_sextet by lia. simpl.
  pose proof (u8_range b0). pose proof (u8_range b1). pose proof (u8_range b2).
  assert (Hval : val = u8 b0 * 65536 + u8 b1 * 256 + u8 b2).
  { unfold val. lor_to_add. lia. }
  clearbody val. subst val. unfold pack.
  repeat f_equal; apply to_byte_mod; lor_to_add; arith.
Qed.

Lemma last_quantum_3 (b0 b1 b2 : byte) :
  let val := Z.lor (Z.lor (Z.shiftl (u8 b0) 16) (Z.shiftl (u8 b1) 8)) (u8 b2) in
  last_quantum (sextet val 18) (sextet val 12) (sextet val 6) (sextet val 0) =
  Some [b0; b1; b2].
Proof.
  intros val. unfold last_quantum.
  destruct (sextet_plain val 0) as [-> _]; [lia|]. apply quantum_3.
Qed.

Lemma last_quantum_2 (b0 b1 : byte) :
  let val := Z.lor (Z.shiftl (u8 b0) 16) (Z.shiftl (u8 b1) 8) in
  last_quantum (sextet val 18) (sextet val 12) (sextet val 6) padChar =
  Some [b0; b1].
Proof.
  intros val. unfold last_quantum. rewrite Ascii.eqb_refl.
  destruct (sextet_plain val 6) as [-> _]; [lia|].
  rewrite !decode_sextet by lia. simpl.
  pose proof (u8_range b0). pose proof (u8_range b1).
  assert (Hval : val = u8 b0 * 65536 + u8 b1 * 256).
  { unfold val. lor_to_add. lia. }
  clearbody val. subst val. unfold pack.
  repeat f_equal; apply to_byte_mod; lor_to_add; arith.
Qed.

Lemma last_quantum_1 (b0 : byte) :
  let val := Z.shiftl (u8 b0) 16 in
  last_quantum (sextet val 18) (sextet val 12) padChar padChar = Some [b0].
Proof.
  intros val. unfold last_quantum. rewrite !Ascii.eqb_refl.
  rewrite !decode_sextet by lia. simpl.
  pose proof (u8_range b0).
  assert (Hval : val = u8 b0 * 65536).
  { unfold val. lor_to_add. lia. }
  clearbody val. subst val. unfold pack.
  repeat f_equal; apply to_byte_mod; lor_to_add; arith.
Qed.

Lemma list_ind3 {A : Type} (P : list A -> Prop) :
  P [] -> (forall a, P [a]) -> (forall a b, P [a; b]) ->
  (forall a b c l, P l -> P (a :: b :: c :: l)) ->
  forall l, P l.
Proof.
  intros H0 H1 H2 H3 l.
  cut (P l /\ (forall a, P (a :: l)) /\ (forall a b, P (a :: b :: l))); [tauto|].
  induction l as [|x l (IH0 & IH1 & IH2)]; [by auto|].
  split_and!; auto.
Qed.

Lemma encode_nil_inv (bs : list byte) : encode bs = [] -> bs = [].
Proof. destruct bs as [|b0 [|b1 [|b2 rest]]]; simpl; by intros. Qed.

Lemma decode_encode (bs : list byte) : decode (encode bs) = Some bs.
Proof.
  induction bs as [|b0|b0 b1|b0 b1 b2 rest IH] using list_ind3.
  - done.
  - apply last_quantum_1.
  - apply last_quantum_2.
  - cbn [encode decode].
    destruct (encode rest) as [|c cs] eqn:Hr.
    + apply encode_nil_inv in Hr as ->. apply last_quantum_3.
    + rewrite quantum_3. cbn [mbind option_bind]. by rewrite IH.
Qed.

Lemma encode_plain (bs : list byte) :
  Forall (fun c => is_newline c = false) (encode bs).
Proof.
  induction bs as [|b0|b0 b1|b0 b1 b2 rest IH] using list_ind3; cbn [encode].
  all: repeat first [ apply Forall_nil_2 | apply Forall_cons_2 ]; try done.
  all: by apply sextet_plain.
Qed.

Lemma filter_all {A : Type} (p : A -> bool) (l : list A) :
  Forall (fun x => p x = true) l -> List.filter p l = l.
Proof. induction 1 as [|x l Hx _ IH]; simpl; [done|]. by rewrite Hx, IH. Qed.

(** Decoding what [EncodeToString] produced gives the bytes back. *)
Lemma DecodeString_EncodeToString (bs : list byte) :
  DecodeString (EncodeToString bs) = Some bs.
Proof.
  unfold DecodeString, EncodeToString.
  rewrite list_ascii_of_string_of_list_ascii, filter_all; [apply decode_encode|].
  eapply Forall_impl; [apply encode_plain|]. by intros c ->.
Qed.

End Base64Facts.

Module AccountFacts.
Import Go Account GoFacts Base64Facts.


Lemma length_bytes (s : string) : length (bytes s) = String.length s.
Proof.
  unfold bytes, list_byte_of_string. rewrite length_map.
  induction s as [|c s IH]; simpl; [done | by rewrite IH].
Qed.

Lemma str_bytes (s : string) : str (bytes s) = s.
Proof. apply string_of_list_byte_of_string. Qed.

Lemma copy_exact (dst src post : list byte) :
  length dst = length src -> copy (dst ++ post) src = src ++ post.
Proof.
  intros Hl. unfold copy.
  rewrite take_ge by (rewrite length_app; lia).
  by rewrite <- Hl, drop_app_length.
Qed.

Lemma copy_at_app (pre mid post src : list byte) :
  length mid = length src ->
  copy_at (length pre) (pre ++ mid ++ post) src = Returned (pre ++ src ++ post).
Proof.
  intros Hl. unfold copy_at, slice_from.
  rewrite length_app.
  destruct (Nat.leb_spec (length pre) (length pre + length (mid ++ post))); [|lia].
  cbn [mbind outcome_bind].
  by rewrite drop_app_length, take_app_length, copy_exact.
Qed.

Lemma HasPrefix_app (p s : list byte) : HasPrefix (p ++ s) p = true.
Proof.
  unfold HasPrefix. rewrite length_app, take_app_length.
  rewrite bool_decide_eq_true_2 by done.
  rewrite andb_true_r. apply Nat.leb_le. lia.
Qed.

Lemma HasPrefix_inv (s p : list byte) :
  HasPrefix s p = true -> s = p ++ drop (length p) s.
Proof.
  unfold HasPrefix. intros H. apply andb_prop in H as [_ H].
  apply bool_decide_eq_true_1 in H.
  rewrite <- H at 1. by rewrite take_drop.
Qed.

Lemma slice_from_app (p s : list byte) :
  slice_from (p ++ s) (length p) = Returned s.
Proof.
  unfold slice_from. rewrite length_app.
  destruct (Nat.leb_spec (length p) (length p + length s)); [|lia].
  by rewrite drop_app_length.
Qed.

Lemma slice_to_app (p s : list byte) :
  slice_to (p ++ s) (length p) = Returned p.
Proof.
  unfold slice_to. rewrite length_app.
  destruct (Nat.leb_spec (length p) (length p + length s)); [|lia].
  by rewrite take_app_length.
Qed.

Section Credentials.
Context {B : Box}.

(** C10: for every key, [nil] included, and every input that does not
    start with the header "nacl", or whose rest after the header is shorter
    than the 24-byte nonce, [DecryptCredentialsWithKey] returns two empty
    strings and [ErrBadCredentials]; it does not panic. *)
Theorem Decrypt_rejects_malformed (decryptorKey : option NACLKey) (buf : list byte) :
  (forall rest, buf = bytes cipherHeader ++ rest -> (length rest < nonceLen)%nat) ->
  DecryptCredentialsWithKey decryptorKey buf =
  Returned (EmptyString, EmptyString, Some ErrBadCredentials).
Proof.
  intros Hbad. unfold DecryptCredentialsWithKey.
  destruct (HasPrefix buf (bytes cipherHeader)) eqn:Hp; [|done].
  apply HasPrefix_inv in Hp. specialize (Hbad _ Hp).
  cbn [negb]. rewrite Hp at 1.
  change (String.length cipherHeader) with (length (bytes cipherHeader)).
  rewrite slice_from_app. cbn [mbind outcome_bind].
  by destruct (Nat.ltb_spec (length (drop (length (bytes cipherHeader)) buf)) nonceLen); [|lia].
Qed.


Lemma ReadFull_make (rand : list byte) :
  (nonceLen <= length rand)%nat ->
  ReadFull rand (make nonceLen) = Some (take nonceLen rand).
Proof.
  intros Hl. unfold ReadFull, make, copy. rewrite length_replicate.
  destruct (Nat.leb_spec nonceLen (length rand)); [|lia].
  by rewrite drop_ge, app_nil_r by (rewrite length_replicate; lia).
Qed.

Lemma copy_make (src : list byte) :
  copy (make (length src)) src = src.
Proof.
  unfold make. rewrite <- (app_nil_r (replicate _ _)), copy_exact, app_nil_r;
    [done | by rewrite length_replicate].
Qed.

Lemma Encrypt_run (key : NACLKey) (login password : string) (rand : list byte) :
  Z.of_nat (String.length login) < 2 ^ 32 -> (nonceLen <= length rand)%nat ->
  EncryptCredentialsWithKey (Some key) login password rand =
  Returned (Base64.EncodeToString
              (bytes cipherHeader ++ take nonceLen rand ++
               seal (plain login password) (take nonceLen rand)
                 (publicKey key) (privateKey key)), None).
Proof.
  intros Hlen Hrand. unfold EncryptCredentialsWithKey.
  set (hdr := [to_byte (Z.shiftr (Z.of_nat (String.length login)) 24);
               to_byte (Z.shiftr (Z.of_nat (String.length login)) 16);
               to_byte (Z.shiftr (Z.of_nat (String.length login)) 8);
               to_byte (Z.of_nat (String.length login))]).
  set (zl := replicate (String.length login) "000"%byte).
  set (zp := replicate (String.length password) "000"%byte).
  assert (H1 : PutUint32
                 (make (plainPrefixLen + String.length login + String.length password))
                 (uint32 (Z.of_nat (String.length login))) =
               Returned (hdr ++ zl ++ zp)).
  { unfold uint32. rewrite Z.mod_small by lia.
    unfold make, PutUint32. rewrite <- Nat.add_assoc, length_replicate.
    change (4 <=? plainPrefixLen + _)%nat with true.
    rewrite (replicate_add plainPrefixLen), drop_app_length'
      by (by rewrite length_replicate).
    by rewrite replicate_add. }
  assert (H2 : copy_at plainPrefixLen (hdr ++ zl ++ zp) (bytes login) =
               Returned (hdr ++ bytes login ++ zp)).
  { apply (copy_at_app hdr). unfold zl. by rewrite length_replicate, length_bytes. }
  assert (H3 : copy_at (plainPrefixLen + String.length login)
                 (hdr ++ bytes login ++ zp) (bytes password) =
               Returned (plain login password)).
  { replace (plainPrefixLen + String.length login)%nat
      with (length (hdr ++ bytes login)) by (by rewrite length_app, length_bytes).
    rewrite (app_assoc hdr), <- (app_nil_r zp).
    rewrite (copy_at_app (hdr ++ bytes login) zp [] (bytes password))
      by (unfold zp; by rewrite length_replicate, length_bytes).
    unfold plain. by rewrite app_nil_r, <- app_assoc. }
  rewrite H1. cbn [mbind outcome_bind]. rewrite H2. cbn [mbind outcome_bind].
  rewrite H3. cbn [mbind outcome_bind].
  rewrite ReadFull_make by done.
  set (nonce := take nonceLen rand).
  assert (Hn : length nonce = nonceLen) by (unfold nonce; rewrite length_take; lia).
  assert (H4 : copy_at 0 (make (String.length cipherHeader + length nonce))
                 (bytes cipherHeader) =
               Returned (bytes cipherHeader ++ replicate nonceLen "000"%byte)).
  { rewrite Hn. unfold make. rewrite replicate_add.
    exact (copy_at_app [] (replicate (String.length cipherHeader) "000"%byte)
             (replicate nonceLen "000"%byte) (bytes cipherHeader) eq_refl). }
  assert (H5 : copy_at (String.length cipherHeader)
                 (bytes cipherHeader ++ replicate nonceLen "000"%byte) nonce =
               Returned (bytes cipherHeader ++ nonce)).
  { change (String.length cipherHeader) with (length (bytes cipherHeader)).
    rewrite <- (app_nil_r (replicate nonceLen _)).
    rewrite (copy_at_app (bytes cipherHeader) _ [] nonce)
      by (by rewrite length_replicate, Hn).
    by rewrite app_nil_r. }
  rewrite H4. cbn [mbind outcome_bind]. rewrite H5.
  cbn [mbind outcome_bind PublicKey PrivateKey].
  unfold box_Seal. by rewrite <- app_assoc.
Qed.

Lemma Uint32_plain (login password : string) :
  Z.of_nat (String.length login) < 2 ^ 32 ->
  Uint32 (plain login password) = Returned (Z.of_nat (String.length login)).
Proof.
  intros Hlen.
  apply (Uint32_PutUint32 (make 4 ++ bytes login ++ bytes password)); [lia|].
  reflexivity.
Qed.

Lemma Decrypt_run (HB : BoxCorrect B) (key : NACLKey) (login password : string)
    (nonce : list byte) :
  key_ok key -> Z.of_nat (String.length login) < 2 ^ 32 -> length nonce = nonceLen ->
  DecryptCredentialsWithKey (Some key)
    (bytes cipherHeader ++ nonce ++
     seal (plain login password) nonce (publicKey key) (privateKey key)) =
  Returned (login, password, None).
Proof.
  intros [Hpk Hsk] Hlen Hn. unfold DecryptCredentialsWithKey.
  rewrite HasPrefix_app. cbn [negb].
  change (String.length cipherHeader) with (length (bytes cipherHeader)).
  rewrite slice_from_app. cbn [mbind outcome_bind].
  destruct (Nat.ltb_spec (length (nonce ++ seal (plain login password) nonce
                                      (publicKey key) (privateKey key))) nonceLen) as [Hlt|_].
  { rewrite length_app in Hlt. lia. }
  set (sealed := seal (plain login password) nonce (publicKey key) (privateKey key)).
  assert (Hs1 : slice_to (nonce ++ sealed) nonceLen = Returned nonce)
    by (rewrite <- Hn; apply slice_to_app).
  assert (Hs2 : slice_from (nonce ++ sealed) nonceLen = Returned sealed)
    by (rewrite <- Hn; apply slice_from_app).
  assert (Hc : copy (make nonceLen) nonce = nonce)
    by (rewrite <- Hn; apply copy_make).
  rewrite Hs1. cbn [mbind outcome_bind]. rewrite Hs2, Hc.
  cbn [mbind outcome_bind PublicKey PrivateKey].
  unfold box_Open, sealed.
  rewrite (HB _ _ _ _ Hn Hpk Hsk). cbn [fmap option_fmap option_map app].
  rewrite Uint32_plain by done. cbn [mbind outcome_bind].
  rewrite Nat2Z.id. unfold plain.
  set (hdr := [_; _; _; _]).
  change plainPrefixLen with (length hdr).
  rewrite slice_from_app. cbn [mbind outcome_bind].
  destruct (Nat.ltb_spec (length (bytes login ++ bytes password)) (String.length login))
    as [Hlt|_].
  { rewrite length_app, length_bytes in Hlt. lia. }
  rewrite <- (length_bytes login), slice_to_app, slice_from_app.
  cbn [mbind outcome_bind]. by rewrite !str_bytes.
Qed.

(** C9: for a key pair, a login shorter than 2^32 bytes, any password and
    any 24 bytes read from the random source, [EncryptCredentialsWithKey]
    returns a string with a [nil] error whose base64 decoding
    [DecryptCredentialsWithKey] turns back into the login and the password,
    with a [nil] error.  The box is any implementation that opens what it
    sealed. *)
Theorem Encrypt_Decrypt_round_trip (HB : BoxCorrect B) (key : NACLKey)
    (login password : string) (rand : list byte) :
  key_ok key -> Z.of_nat (String.length login) < 2 ^ 32 ->
  (nonceLen <= length rand)%nat ->
  exists out buf,
    EncryptCredentialsWithKey (Some key) login password rand = Returned (out, None) /\
    Base64.DecodeString out = Some buf /\
    DecryptCredentialsWithKey (Some key) buf = Returned (login, password, None).
Proof.
  intros Hk Hlen Hrand. eexists _, _. split_and!.
  - by apply Encrypt_run.
  - apply DecodeString_EncodeToString.
  - apply Decrypt_run; [done..|]. rewrite length_take. lia.
Qed.

End Credentials.

Lemma toy_box_correct : BoxCorrect toy_box.
Proof.
  intros message nonce pk sk _ _ _. unfold open, seal, toy_box.
  rewrite (take_app_length toy_tag message : take 16 (toy_tag ++ message) = toy_tag).
  rewrite bool_decide_eq_true_2 by done.
  by rewrite (drop_app_length toy_tag message : drop 16 (toy_tag ++ message) = message).
Qed.

(** C9 at an instance. *)
Lemma Encrypt_Decrypt_round_trip_witness :
  exists out buf,
    EncryptCredentialsWithKey (B := toy_box)
      (Some (mkNACLKey (replicate 32 x01) (replicate 32 x02)))
      "alice@example.net" "s3cret" (replicate 24 x07) = Returned (out, None) /\
    Base64.DecodeString out = Some buf /\
    DecryptCredentialsWithKey (B := toy_box)
      (Some (mkNACLKey (replicate 32 x01) (replicate 32 x02))) buf =
    Returned ("alice@example.net"%string, "s3cret"%string, None).
Proof.
  apply (Encrypt_Decrypt_round_trip (B := toy_box) toy_box_correct).
  - split; reflexivity.
  - reflexivity.
  - vm_compute. lia.
Defined.

(** C10 at an instance: seven bytes, header included, and a [nil] key. *)
Lemma Decrypt_rejects_malformed_witness :
  DecryptCredentialsWithKey (B := toy_box) None (bytes "nacl123") =
  Returned (EmptyString, EmptyString, Some ErrBadCredentials).
Proof.
  apply (Decrypt_rejects_malformed (B := toy_box)).
  intros rest H. injection H as <-. vm_compute. lia.
Defined.

End AccountFacts.

Module LockMore.
Import Lock LockFacts.

Section Wrapper.
Context {L : Type} {locker : longOperationLocker L}.

(** The shape of a reachable state while the lock is held and [Unlock] has
    not taken the mutex. *)
Lemma held_shape (lk : L) (d : Duration) (w : world L) :
  reachable lk d w -> caller w = U83 ->
  exists lk0 c tr g,
    chan_ok g /\
    w = mkWorld (mkLongOperation lk0 (in_mu g) (Some 0%nat) d)
          [mkTicker (Z.quot d 3) true c] U83 [g] tr false.
Proof.
  intros Hr Hc. apply Inv_reachable in Hr.
  destruct Hr as (Hf & Ht & _ & _ & _ & _ & _ & Hp).
  destruct w as [[lk0 m tk to] tks c gs tr f].
  unfold phase in Hp. cbn in Hf, Ht, Hc, Hp. subst c.
  destruct Hp as ((g & Hg & (c & Htk) & Htick & Hmu & Hch) & _).
  cbn in Hg, Htk, Htick, Hmu. subst. eauto 10.
Qed.

Lemma released_shape (lk : L) (d : Duration) (w : world L) :
  reachable lk d w -> caller w = Released ->
  exists lk0 c tr g,
    chan_ok g /\ saw_tick g = false /\
    w = mkWorld (mkLongOperation lk0 (in_mu g) None d)
          [mkTicker (Z.quot d 3) false c] Released [g] tr false.
Proof.
  intros Hr Hc. apply Inv_reachable in Hr.
  destruct Hr as (Hf & Ht & _ & _ & _ & _ & _ & Hp).
  destruct w as [[lk0 m tk to] tks c gs tr f].
  unfold phase in Hp. cbn in Hf, Ht, Hc, Hp. subst c.
  destruct Hp as ((g & Hg & (c & Htk) & Htick & Hmu & Hch) & Hs & _).
  cbn in Hg, Htk, Htick, Hmu. subst. specialize (Hs _ eq_refl). eauto 10.
Qed.

(** X2: [Unlock] is never blocked for good.  From any reachable state in
    which [Lock] has returned and [Unlock] waits for [l.mu], at most three
    steps of the goroutine, none of them a wait for a tick, free the mutex,
    and five steps of the caller then finish [Unlock]: the ticker stopped,
    the field cleared, the wrapped [Unlock] called, the mutex free. *)
Theorem Unlock_can_always_complete (lk : L) (d : Duration) (w : world L) :
  reachable lk d w -> caller w = U83 ->
  exists n w',
    (n <= 3)%nat /\
    exec (replicate n (Task 0) ++ replicate 5 Caller) w = Some w' /\
    caller w' = Released /\
    take 3 (trace w') = [EvUnlock; EvTickNil; EvStop 0] /\
    tick (self w') = None /\
    mu (self w') = false.
Proof.
  intros Hr Hc.
  destruct (held_shape lk d w Hr Hc) as (lk0 & c & tr & g & Hch & ->).
  destruct g as [| |ch|ch| | | | | |]; cbn in Hch; subst.
  - exists 0%nat. eexists. split; [lia|]. split; [vm_compute; reflexivity|]. done.
  - exists 2%nat. eexists. split; [lia|]. split; [vm_compute; reflexivity|]. done.
  - exists 1%nat. eexists. split; [lia|]. split; [vm_compute; reflexivity|]. done.
  - exists 0%nat. eexists. split; [lia|]. split; [vm_compute; reflexivity|]. done.
  - exists 0%nat. eexists. split; [lia|]. split; [vm_compute; reflexivity|]. done.
  - exists 3%nat. eexists. split; [lia|]. split; [vm_compute; reflexivity|]. done.
  - exists 2%nat. eexists. split; [lia|]. split; [vm_compute; reflexivity|]. done.
  - exists 1%nat. eexists. split; [lia|]. split; [vm_compute; reflexivity|]. done.
  - exists 1%nat. eexists. split; [lia|]. split; [vm_compute; reflexivity|]. done.
  - exists 0%nat. eexists. split; [lia|]. split; [vm_compute; reflexivity|]. done.
Qed.


(** X3: [l.mu] is used correctly.  No reachable state has crashed on the
    unlock of an unlocked mutex; the goroutine is never inside one of its
    critical sections while [Unlock] is inside its own; and the mutex is
    held exactly when one of the two is inside a critical section. *)
Theorem critical_sections_never_overlap (lk : L) (d : Duration) (w : world L) :
  reachable lk d w ->
  fatal w = false /\
  (caller_in_mu (caller w) = true -> Forall (fun g => in_mu g = false) (tasks w)) /\
  (mu (self w) = false ->
   caller_in_mu (caller w) = false /\ Forall (fun g => in_mu g = false) (tasks w)) /\
  (mu (self w) = true ->
   caller_in_mu (caller w) = true \/ Exists (fun g => in_mu g = true) (tasks w)).
Proof.
  intros Hr. apply Inv_reachable in Hr.
  destruct Hr as (Hf & _ & _ & _ & _ & _ & _ & Hp).
  split; [done|]. unfold phase, one_task in Hp.
  destruct (caller w); simpl.
  all: repeat match goal with
       | H : _ /\ _ |- _ => destruct H
       | H : exists _, _ |- _ => destruct H
       end.
  all: repeat match goal with H : tasks _ = _ |- _ => rewrite H end.
  all: split_and!; try done; try congruence.
  all: try (intros _; repeat constructor; fail).
  all: try (intros; repeat constructor; by destruct (in_mu _)).
  all: try (intros; split; [done|]; repeat constructor; congruence).
  all: try (intros; right; constructor; congruence).
  all: try (intros; by left).
  all: intros _; repeat constructor.
  all: match goal with
       | H1 : mu _ = negb (in_mu ?x), H2 : mu _ = true |- _ =>
           rewrite H2 in H1; by destruct (in_mu x)
       end.
Qed.

(** X4: a tick that was already in the channel when [Unlock] stopped the
    ticker wakes the goroutine, which sees [l.tick == nil] at line 72 and
    returns without calling [Extend], releasing the mutex; after that
    nothing can run any more. *)
Theorem buffered_tick_lets_goroutine_exit (lk : L) (d : Duration) (w : world L)
    (ch : nat) (tk : Ticker) :
  reachable lk d w -> caller w = Released -> tasks w = [G70 ch] ->
  tickers w !! ch = Some tk -> C tk = true ->
  exists w',
    exec (replicate 4 (Task 0)) w = Some w' /\
    tasks w' = [Gexit] /\
    mu (self w') = false /\
    trace w' = EvRecv ch :: trace w /\
    forall a, step_of a w' = None.
Proof.
  intros Hr Hc Hg Htk HC.
  destruct (released_shape lk d w Hr Hc) as (lk0 & c & tr & g & Hch & _ & ->).
  cbn in Hg. injection Hg as ->. cbn in Hch. subst ch.
  cbn in Htk. injection Htk as <-. cbn in HC. subst c.
  eexists. split; [vm_compute; reflexivity|].
  split_and!; try reflexivity.
  intros [|[|i]|[|t]]; reflexivity.
Qed.

End Wrapper.

(** X1 at an instance: a lock taken and released at once. *)
Lemma Unlock_stops_then_releases_witness :
  exists w,
    exec (locker := granted) (replicate 8 Caller) (init 0%nat 60000000000) = Some w /\
    caller w = Released /\ stops w = (1, 1, 1)%nat /\ tick (self w) = None.
Proof.
  eexists. split; [vm_compute; reflexivity|]. split; [reflexivity|].
  destruct (Unlock_stops_then_releases (locker := granted) 0%nat 60000000000
              (mkWorld (mkLongOperation 0%nat false None 60000000000)
                 [mkTicker 20000000000 false false] Released [G64]
                 [EvUnlock; EvTickNil; EvStop 0; EvGo; EvNewTicker 20000000000;
                  EvLock None] false))
    as (Hs & _ & Ht & _).
  - apply exec_steps with (sched := replicate 8 Caller). vm_compute; reflexivity.
  - reflexivity.
  - split; [exact Hs | exact Ht].
Defined.

(** X2 at an instance: the goroutine is inside its first critical section
    when [Unlock] is called. *)
Lemma Unlock_can_always_complete_witness :
  exists n w',
    (n <= 3)%nat /\
    exec (locker := granted) (replicate n (Task 0) ++ replicate 5 Caller)
      (mkWorld (mkLongOperation 0%nat true (Some 0%nat) 60000000000)
         [mkTicker 20000000000 true false] U83 [G65]
         [EvGo; EvNewTicker 20000000000; EvLock None] false) = Some w' /\
    caller w' = Released.
Proof.
  destruct (Unlock_can_always_complete (locker := granted) 0%nat 60000000000
              (mkWorld (mkLongOperation 0%nat true (Some 0%nat) 60000000000)
                 [mkTicker 20000000000 true false] U83 [G65]
                 [EvGo; EvNewTicker 20000000000; EvLock None] false))
    as (n & w' & Hn & Hx & Hc & _).
  - apply exec_steps with (sched := [Caller; Caller; Caller; Task 0]).
    vm_compute; reflexivity.
  - reflexivity.
  - exists n, w'. split_and!; assumption.
Defined.

(** X3 at an instance: the same state. *)
Lemma critical_sections_never_overlap_witness :
  fatal (mkWorld (mkLongOperation 0%nat true (Some 0%nat) 60000000000)
           [mkTicker 20000000000 true false] U83 [G65]
           [EvGo; EvNewTicker 20000000000; EvLock None] false) = false.
Proof.
  refine (proj1 (critical_sections_never_overlap (locker := granted) 0%nat 60000000000
                   _ _)).
  apply exec_steps with (sched := [Caller; Caller; Caller; Task 0]).
  vm_compute; reflexivity.
Defined.

(** X4 at an instance: the tick fires just before [Unlock]. *)
Lemma buffered_tick_lets_goroutine_exit_witness :
  exists w',
    exec (locker := granted) (replicate 4 (Task 0))
      (mkWorld (mkLongOperation 0%nat false None 60000000000)
         [mkTicker 20000000000 false true] Released [G70 0]
         [EvUnlock; EvTickNil; EvStop 0; EvFire 0; EvGo; EvNewTicker 20000000000;
          EvLock None] false) = Some w' /\
    tasks w' = [Gexit].
Proof.
  destruct (buffered_tick_lets_goroutine_exit (locker := granted) 0%nat 60000000000
              (mkWorld (mkLongOperation 0%nat false None 60000000000)
                 [mkTicker 20000000000 false true] Released [G70 0]
                 [EvUnlock; EvTickNil; EvStop 0; EvFire 0; EvGo;
                  EvNewTicker 20000000000; EvLock None] false)
              0%nat (mkTicker 20000000000 false true))
    as (w' & Hx & Hg & _).
  - apply exec_steps with
      (sched := [Caller; Caller; Caller; Task 0; Task 0; Task 0; Clock 0] ++
                replicate 5 Caller).
    vm_compute; reflexivity.
  - reflexivity.
  - reflexivity.
  - reflexivity.
  - reflexivity.
  - exists w'. split; assumption.
Defined.

End LockMore.

Module AccountMore.
Import Go Account GoFacts Base64Facts AccountFacts.

Section Buffers.
Context {B : Box}.

Lemma same_key_opens (HB : BoxCorrect B) (key : NACLKey) :
  key_ok key -> opens_for key key.
Proof. intros [Hpk Hsk] message nonce Hn. by apply HB. Qed.

(** What [EncryptBufferWithKey] returns. *)
Lemma EncryptBuffer_run (key : NACLKey) (buf rand : list byte) :
  (nonceLen <= length rand)%nat ->
  EncryptBufferWithKey (Some key) buf rand =
  Returned (bytes cipherHeader ++ take nonceLen rand ++
            seal buf (take nonceLen rand) (publicKey key) (privateKey key), None).
Proof.
  intros Hrand. unfold EncryptBufferWithKey.
  rewrite ReadFull_make by done.
  set (nonce := take nonceLen rand).
  assert (Hn : length nonce = nonceLen) by (unfold nonce; rewrite length_take; lia).
  assert (H4 : copy_at 0 (make (String.length cipherHeader + length nonce))
                 (bytes cipherHeader) =
               Returned (bytes cipherHeader ++ replicate nonceLen "000"%byte)).
  { rewrite Hn. unfold make. rewrite replicate_add.
    exact (copy_at_app [] (replicate (String.length cipherHeader) "000"%byte)
             (replicate nonceLen "000"%byte) (bytes cipherHeader) eq_refl). }
  assert (H5 : copy_at (String.length cipherHeader)
                 (bytes cipherHeader ++ replicate nonceLen "000"%byte) nonce =
               Returned (bytes cipherHeader ++ nonce)).
  { change (String.length cipherHeader) with (length (bytes cipherHeader)).
    rewrite <- (app_nil_r (replicate nonceLen _)).
    rewrite (copy_at_app (bytes cipherHeader) _ [] nonce)
      by (by rewrite length_replicate, Hn).
    by rewrite app_nil_r. }
  rewrite H4. cbn [mbind outcome_bind]. rewrite H5.
  cbn [mbind outcome_bind PublicKey PrivateKey].
  unfold box_Seal. by rewrite <- app_assoc.
Qed.

(** The two decryptions on an input that has the header and a nonce. *)
Lemma DecryptBuffer_run (key : NACLKey) (nonce box : list byte) :
  length nonce = nonceLen ->
  DecryptBufferWithKey (Some key) (bytes cipherHeader ++ nonce ++ box) =
  match open box nonce (publicKey key) (privateKey key) with
  | Some p => Returned (p, None)
  | None => bad_buffer
  end.
Proof.
  intros Hn. unfold DecryptBufferWithKey.
  rewrite HasPrefix_app. cbn [negb].
  change (String.length cipherHeader) with (length (bytes cipherHeader)).
  rewrite slice_from_app. cbn [mbind outcome_bind].
  destruct (Nat.ltb_spec (length (nonce ++ box)) nonceLen) as [Hlt|_].
  { rewrite length_app in Hlt. lia. }
  assert (Hs1 : slice_to (nonce ++ box) nonceLen = Returned nonce)
    by (rewrite <- Hn; apply slice_to_app).
  assert (Hs2 : slice_from (nonce ++ box) nonceLen = Returned box)
    by (rewrite <- Hn; apply slice_from_app).
  assert (Hc : copy (make nonceLen) nonce = nonce)
    by (rewrite <- Hn; apply copy_make).
  rewrite Hs1. cbn [mbind outcome_bind]. rewrite Hs2, Hc.
  cbn [mbind outcome_bind PublicKey PrivateKey].
  unfold box_Open. by destruct (open box nonce _ _).
Qed.

(** An input either lacks the header or a full nonce, or splits. *)
Lemma input_cases (buf : list byte) :
  (forall rest, buf = bytes cipherHeader ++ rest -> (length rest < nonceLen)%nat) \/
  exists nonce box, buf = bytes cipherHeader ++ nonce ++ box /\ length nonce = nonceLen.
Proof.
  destruct (HasPrefix buf (bytes cipherHeader)) eqn:Hp.
  - apply HasPrefix_inv in Hp.
    set (rest := drop (length (bytes cipherHeader)) buf) in *.
    destruct (Nat.lt_ge_cases (length rest) nonceLen) as [Hlt|Hge].
    + left. intros rest' H. rewrite H in Hp at 1.
      apply app_inv_head in Hp. by subst rest'.
    + right. exists (take nonceLen rest), (drop nonceLen rest). split.
      * by rewrite take_drop.
      * rewrite length_take. lia.
  - left. intros rest H. rewrite H, HasPrefix_app in Hp. done.
Qed.

Lemma DecryptBuffer_malformed (key : option NACLKey) (buf : list byte) :
  (forall rest, buf = bytes cipherHeader ++ rest -> (length rest < nonceLen)%nat) ->
  DecryptBufferWithKey key buf = bad_buffer.
Proof.
  intros Hbad. unfold DecryptBufferWithKey.
  destruct (HasPrefix buf (bytes cipherHeader)) eqn:Hp; [|done].
  apply HasPrefix_inv in Hp. specialize (Hbad _ Hp).
  cbn [negb]. rewrite Hp at 1.
  change (String.length cipherHeader) with (length (bytes cipherHeader)).
  rewrite slice_from_app. cbn [mbind outcome_bind].
  by destruct (Nat.ltb_spec (length (drop (length (bytes cipherHeader)) buf)) nonceLen); [|lia].
Qed.


Lemma DecryptCredentials_run (key : NACLKey) (nonce box : list byte) :
  length nonce = nonceLen ->
  DecryptCredentialsWithKey (Some key) (bytes cipherHeader ++ nonce ++ box) =
  match open box nonce (publicKey key) (privateKey key) with
  | None => bad
  | Some creds =>
      v ← Uint32 creds;
      creds ← slice_from creds plainPrefixLen;
      if (length creds <? Z.to_nat v)%nat then bad else
      lo ← slice_to creds (Z.to_nat v);
      hi ← slice_from creds (Z.to_nat v);
      Returned (str lo, str hi, None)
  end.
Proof.
  intros Hn. unfold DecryptCredentialsWithKey.
  rewrite HasPrefix_app. cbn [negb].
  change (String.length cipherHeader) with (length (bytes cipherHeader)).
  rewrite slice_from_app. cbn [mbind outcome_bind].
  destruct (Nat.ltb_spec (length (nonce ++ box)) nonceLen) as [Hlt|_].
  { rewrite length_app in Hlt. lia. }
  assert (Hs1 : slice_to (nonce ++ box) nonceLen = Returned nonce)
    by (rewrite <- Hn; apply slice_to_app).
  assert (Hs2 : slice_from (nonce ++ box) nonceLen = Returned box)
    by (rewrite <- Hn; apply slice_from_app).
  assert (Hc : copy (make nonceLen) nonce = nonce)
    by (rewrite <- Hn; apply copy_make).
  rewrite Hs1. cbn [mbind outcome_bind]. rewrite Hs2, Hc.
  cbn [mbind outcome_bind PublicKey PrivateKey].
  unfold box_Open. by destruct (open box nonce _ _).
Qed.

(** X5: [DecryptBufferWithKey] gives back the buffer that
    [EncryptBufferWithKey] encrypted, for keys made for one another and 24
    bytes read from the random source. *)
Theorem Buffer_round_trip (enc dec : NACLKey) (buf rand : list byte) :
  opens_for enc dec -> (nonceLen <= length rand)%nat ->
  exists cipher,
    EncryptBufferWithKey (Some enc) buf rand = Returned (cipher, None) /\
    DecryptBufferWithKey (Some dec) cipher = Returned (buf, None).
Proof.
  intros Hk Hrand. eexists. split; [by apply EncryptBuffer_run|].
  assert (Hn : length (take nonceLen rand) = nonceLen) by (rewrite length_take; lia).
  rewrite DecryptBuffer_run by done. by rewrite Hk.
Qed.

(** X6: with a key, [DecryptBufferWithKey] never panics; it returns either
    an empty buffer with [ErrBadCredentials], or a [nil] error, and then the
    input was the header, a 24-byte nonce and a box that opens, under that
    nonce and the key, to the buffer returned. *)
Theorem DecryptBuffer_sound (key : NACLKey) (buf : list byte) :
  DecryptBufferWithKey (Some key) buf <> Panic /\
  forall p e,
    DecryptBufferWithKey (Some key) buf = Returned (p, e) ->
    (e = None /\
     exists nonce box,
       buf = bytes cipherHeader ++ nonce ++ box /\ length nonce = nonceLen /\
       open box nonce (publicKey key) (privateKey key) = Some p) \/
    (e = Some ErrBadCredentials /\ p = []).
Proof.
  destruct (input_cases buf) as [Hbad|(nonce & box & -> & Hn)].
  - rewrite DecryptBuffer_malformed by done. split; [done|].
    intros p e [= <- <-]. by right.
  - rewrite DecryptBuffer_run by done.
    destruct (open box nonce _ _) as [q|] eqn:Ho.
    + split; [done|]. intros p e [= <- <-]. left. eauto 10.
    + split; [done|]. intros p e [= <- <-]. by right.
Qed.


Lemma bytes_str (l : list byte) : bytes (str l) = l.
Proof. apply list_byte_of_string_of_list_byte. Qed.

Lemma length_str (l : list byte) : String.length (str l) = length l.
Proof. by rewrite <- length_bytes, bytes_str. Qed.

(** The four bytes of a big-endian word are those of its value. *)
Lemma be32_value (b0 b1 b2 b3 : byte) (rest : list byte) (v : Z) :
  Uint32 (b0 :: b1 :: b2 :: b3 :: rest) = Returned v ->
  0 <= v < 2 ^ 32 /\
  [to_byte (Z.shiftr v 24); to_byte (Z.shiftr v 16); to_byte (Z.shiftr v 8); to_byte v] =
  [b0; b1; b2; b3].
Proof.
  intros [= <-].
  pose proof (u8_range b0). pose proof (u8_range b1).
  pose proof (u8_range b2). pose proof (u8_range b3).
  rewrite (lor_shiftl _ _ 8) by arith.
  rewrite (lor_shiftl _ _ 16) by arith.
  rewrite (lor_shiftl _ _ 24) by arith.
  split; [arith|].
  repeat f_equal; apply to_byte_mod; arith.
Qed.

(** X7: when [DecryptCredentialsWithKey] returns a login and a password
    with a [nil] error, its input was the header, a 24-byte nonce and a box
    that opens to exactly the plain text of that login and password: the
    length of the login on four bytes, the login, the password. *)
Theorem DecryptCredentials_sound (key : NACLKey) (buf : list byte)
    (login password : string) :
  DecryptCredentialsWithKey (Some key) buf = Returned (login, password, None) ->
  exists nonce box,
    buf = bytes cipherHeader ++ nonce ++ box /\ length nonce = nonceLen /\
    open box nonce (publicKey key) (privateKey key) = Some (plain login password) /\
    Z.of_nat (String.length login) < 2 ^ 32.
Proof.
  destruct (input_cases buf) as [Hbad|(nonce & box & -> & Hn)].
  { by rewrite Decrypt_rejects_malformed. }
  rewrite DecryptCredentials_run by done. intros Hd.
  exists nonce, box. split; [done|]. split; [done|].
  destruct (open box nonce _ _) as [creds|]; [|done].
  destruct creds as [|b0 [|b1 [|b2 [|b3 rest]]]]; try done.
  destruct (Uint32 (b0 :: b1 :: b2 :: b3 :: rest)) as [v|] eqn:Hv; [|done].
  apply be32_value in Hv as [Hv Hb].
  cbn [mbind outcome_bind] in Hd.
  change (slice_from (b0 :: b1 :: b2 :: b3 :: rest) plainPrefixLen)
    with (slice_from ([b0; b1; b2; b3] ++ rest) (length [b0; b1; b2; b3])) in Hd.
  rewrite slice_from_app in Hd. cbn [mbind outcome_bind] in Hd.
  destruct (Nat.ltb_spec (length rest) (Z.to_nat v)) as [|Hle]; [done|].
  unfold slice_to, slice_from in Hd.
  destruct (Nat.leb_spec (Z.to_nat v) (length rest)); [|lia].
  cbn [mbind outcome_bind] in Hd. injection Hd as <- <-.
  assert (Hl : Z.of_nat (String.length (str (take (Z.to_nat v) rest))) = v).
  { rewrite length_str, length_take. lia. }
  split; [|lia]. f_equal. unfold plain.
  rewrite Hl, Hb, !bytes_str, take_drop. done.
Qed.

(** X8: whenever [DecryptCredentialsWithKey] returns an error, it is
    [ErrBadCredentials], and the login and the password are empty. *)
Theorem Decrypt_errors_are_bad_credentials (key : option NACLKey) (buf : list byte)
    (login password : string) (e : error) :
  DecryptCredentialsWithKey key buf = Returned (login, password, Some e) ->
  login = EmptyString /\ password = EmptyString /\ e = ErrBadCredentials.
Proof.
  unfold DecryptCredentialsWithKey, bad.
  destruct (negb _); [by intros [= <- <- <-]|].
  destruct (slice_from buf _) as [b1|]; [|done]. cbn [mbind outcome_bind].
  destruct (_ <? _)%nat; [by intros [= <- <- <-]|].
  destruct (slice_to b1 _) as [hd|]; [|done]. cbn [mbind outcome_bind].
  destruct (slice_from b1 _) as [b2|]; [|done]. cbn [mbind outcome_bind].
  destruct (PublicKey key) as [pk|]; [|done]. cbn [mbind outcome_bind].
  destruct (PrivateKey key) as [sk|]; [|done]. cbn [mbind outcome_bind].
  destruct (box_Open _ _ _ _ _) as [creds|]; [|by intros [= <- <- <-]].
  destruct (Uint32 creds) as [v|]; [|done]. cbn [mbind outcome_bind].
  destruct (slice_from creds _) as [c2|]; [|done]. cbn [mbind outcome_bind].
  destruct (_ <? _)%nat; [by intros [= <- <- <-]|].
  destruct (slice_to c2 _) as [lo|]; [|done]. cbn [mbind outcome_bind].
  destruct (slice_from c2 _) as [hi|]; [|done]. cbn [mbind outcome_bind].
  done.
Qed.

(** X9: the check announced at lines 142-143 is missing.  A buffer of
    fewer than four bytes, encrypted by [EncryptBufferWithKey], makes
    [DecryptCredentialsWithKey] panic in [binary.BigEndian.Uint32] instead of
    returning [ErrBadCredentials]. *)
Theorem Decrypt_short_plain_panics (enc dec : NACLKey) (buf rand : list byte) :
  opens_for enc dec -> (nonceLen <= length rand)%nat -> (length buf < plainPrefixLen)%nat ->
  exists cipher,
    EncryptBufferWithKey (Some enc) buf rand = Returned (cipher, None) /\
    DecryptCredentialsWithKey (Some dec) cipher = Panic.
Proof.
  intros Hk Hrand Hshort. eexists. split; [by apply EncryptBuffer_run|].
  assert (Hn : length (take nonceLen rand) = nonceLen) by (rewrite length_take; lia).
  rewrite DecryptCredentials_run by done. rewrite Hk by done.
  destruct buf as [|b0 [|b1 [|b2 [|b3 rest]]]]; try done.
  simpl in Hshort. unfold plainPrefixLen in Hshort. lia.
Qed.


(** The plain text is built without a panic, whatever the lengths. *)
Lemma creds_built (login password : string) :
  exists hdr,
    length hdr = plainPrefixLen /\
    (creds ← PutUint32
               (make (plainPrefixLen + String.length login + String.length password))
               (uint32 (Z.of_nat (String.length login)));
     creds ← copy_at plainPrefixLen creds (bytes login);
     copy_at (plainPrefixLen + String.length login) creds (bytes password)) =
    Returned (hdr ++ bytes login ++ bytes password).
Proof.
  set (v := uint32 (Z.of_nat (String.length login))).
  exists [to_byte (Z.shiftr v 24); to_byte (Z.shiftr v 16); to_byte (Z.shiftr v 8); to_byte v].
  set (hdr := [_; _; _; _]). split; [done|].
  set (zl := replicate (String.length login) "000"%byte).
  set (zp := replicate (String.length password) "000"%byte).
  assert (H1 : PutUint32
                 (make (plainPrefixLen + String.length login + String.length password)) v =
               Returned (hdr ++ zl ++ zp)).
  { unfold make, PutUint32. rewrite <- Nat.add_assoc, length_replicate.
    change (4 <=? plainPrefixLen + _)%nat with true.
    rewrite (replicate_add plainPrefixLen), drop_app_length'
      by (by rewrite length_replicate).
    by rewrite replicate_add. }
  assert (H2 : copy_at plainPrefixLen (hdr ++ zl ++ zp) (bytes login) =
               Returned (hdr ++ bytes login ++ zp)).
  { apply (copy_at_app hdr). unfold zl. by rewrite length_replicate, length_bytes. }
  assert (H3 : copy_at (plainPrefixLen + String.length login)
                 (hdr ++ bytes login ++ zp) (bytes password) =
               Returned (hdr ++ bytes login ++ bytes password)).
  { replace (plainPrefixLen + String.length login)%nat
      with (length (hdr ++ bytes login)) by (by rewrite length_app, length_bytes).
    rewrite (app_assoc hdr), <- (app_nil_r zp).
    rewrite (copy_at_app (hdr ++ bytes login) zp [] (bytes password))
      by (unfold zp; by rewrite length_replicate, length_bytes).
    by rewrite app_nil_r, <- app_assoc. }
  rewrite H1. cbn [mbind outcome_bind]. rewrite H2. cbn [mbind outcome_bind].
  exact H3.
Qed.

Lemma ReadFull_short (rand : list byte) :
  (length rand < nonceLen)%nat -> ReadFull rand (make nonceLen) = None.
Proof.
  intros Hl. unfold ReadFull, make. rewrite length_replicate.
  by destruct (Nat.leb_spec nonceLen (length rand)); [lia|].
Qed.

(** X10: with a key, the two encryptions panic exactly when the random
    source delivers fewer than 24 bytes, and otherwise return a [nil]
    error, whatever the lengths of the login, password or buffer. *)
Theorem Encrypt_panics_iff_short_of_entropy (key : NACLKey)
    (login password : string) (buf rand : list byte) :
  (EncryptCredentialsWithKey (Some key) login password rand = Panic <->
   (length rand < nonceLen)%nat) /\
  (EncryptBufferWithKey (Some key) buf rand = Panic <-> (length rand < nonceLen)%nat) /\
  (forall out e,
     EncryptCredentialsWithKey (Some key) login password rand = Returned (out, e) ->
     e = None) /\
  (forall out e,
     EncryptBufferWithKey (Some key) buf rand = Returned (out, e) -> e = None).
Proof.
  destruct (creds_built login password) as (hdr & Hh & Hc).
  assert (HE : EncryptCredentialsWithKey (Some key) login password rand =
               match ReadFull rand (make nonceLen) with
               | None => Panic
               | Some nonce =>
                   encryptedOut ← copy_at 0
                     (make (String.length cipherHeader + length nonce)) (bytes cipherHeader);
                   encryptedOut ← copy_at (String.length cipherHeader) encryptedOut nonce;
                   Returned (Base64.EncodeToString
                               (box_Seal encryptedOut (hdr ++ bytes login ++ bytes password)
                                  nonce (publicKey key) (privateKey key)), None)
               end).
  { unfold EncryptCredentialsWithKey.
    destruct (PutUint32 _ _) as [c1|]; [|done]. cbn [mbind outcome_bind] in *.
    destruct (copy_at plainPrefixLen c1 _) as [c2|]; [|done]. cbn [mbind outcome_bind] in *.
    rewrite Hc. cbn [mbind outcome_bind]. done. }
  destruct (Nat.lt_ge_cases (length rand) nonceLen) as [Hlt|Hge].
  - rewrite HE. unfold EncryptBufferWithKey. rewrite ReadFull_short by done.
    split_and!; try done.
  - pose proof (EncryptBuffer_run key buf rand Hge) as HB.
    rewrite HB. rewrite HE, ReadFull_make by done.
    set (nonce := take nonceLen rand).
    assert (Hn : length nonce = nonceLen) by (unfold nonce; rewrite length_take; lia).
    rewrite Hn.
    assert (H4 : copy_at 0 (make (String.length cipherHeader + nonceLen))
                   (bytes cipherHeader) =
                 Returned (bytes cipherHeader ++ replicate nonceLen "000"%byte)).
    { unfold make. rewrite replicate_add.
      exact (copy_at_app [] (replicate (String.length cipherHeader) "000"%byte)
               (replicate nonceLen "000"%byte) (bytes cipherHeader) eq_refl). }
    assert (H5 : copy_at (String.length cipherHeader)
                   (bytes cipherHeader ++ replicate nonceLen "000"%byte) nonce =
                 Returned (bytes cipherHeader ++ nonce)).
    { change (String.length cipherHeader) with (length (bytes cipherHeader)).
      rewrite <- (app_nil_r (replicate nonceLen _)).
      rewrite (copy_at_app (bytes cipherHeader) _ [] nonce)
        by (by rewrite length_replicate, Hn).
      by rewrite app_nil_r. }
    rewrite H4. cbn [mbind outcome_bind]. rewrite H5. cbn [mbind outcome_bind].
    split_and!; try (split; [done|lia]).
    + by intros out e [= _ <-].
    + by intros out e [= _ <-].
Qed.


(** Reading back the plain text of a login and a password. *)
Lemma parse_plain (login password : string) :
  Z.of_nat (String.length login) < 2 ^ 32 ->
  (v ← Uint32 (plain login password);
   creds ← slice_from (plain login password) plainPrefixLen;
   if (length creds <? Z.to_nat v)%nat then bad else
   lo ← slice_to creds (Z.to_nat v);
   hi ← slice_from creds (Z.to_nat v);
   Returned (str lo, str hi, None)) = Returned (login, password, None).
Proof.
  intros Hlen. rewrite Uint32_plain by done. cbn [mbind outcome_bind].
  rewrite Nat2Z.id. unfold plain.
  set (hdr := [_; _; _; _]).
  change plainPrefixLen with (length hdr).
  rewrite slice_from_app. cbn [mbind outcome_bind].
  destruct (Nat.ltb_spec (length (bytes login ++ bytes password)) (String.length login))
    as [Hlt|_].
  { rewrite length_app, length_bytes in Hlt. lia. }
  rewrite <- (length_bytes login), slice_to_app, slice_from_app.
  cbn [mbind outcome_bind]. by rewrite !str_bytes.
Qed.

(** X11: with both keys configured and made for one another,
    [DecryptCredentials] applied to what [EncryptCredentials] returned gives
    the login and the password back, for a login shorter than 2^32 bytes. *)
Theorem Credentials_round_trip_keyring (kr : Keyring) (enc dec : NACLKey)
    (login password : string) (rand : list byte) :
  CredentialsEncryptorKey kr = Some enc -> CredentialsDecryptorKey kr = Some dec ->
  opens_for enc dec ->
  Z.of_nat (String.length login) < 2 ^ 32 -> (nonceLen <= length rand)%nat ->
  exists out,
    EncryptCredentials kr login password rand = Returned (out, None) /\
    DecryptCredentials kr out = Returned (login, password, None).
Proof.
  intros He Hd Hk Hlen Hrand. unfold EncryptCredentials, DecryptCredentials.
  rewrite He, Hd. eexists. split; [by apply Encrypt_run|].
  rewrite DecodeString_EncodeToString.
  assert (Hn : length (take nonceLen rand) = nonceLen) by (rewrite length_take; lia).
  rewrite DecryptCredentials_run by done. rewrite Hk by done.
  by apply parse_plain.
Qed.

Section Data.
Context {V : Type} {J : Json V}.

(** X12: [DecryptCredentialsData] hands to [json.Unmarshal] exactly the
    bytes that [json.Marshal] produced in [EncryptCredentialsData], and
    returns its result or its error. *)
Theorem Data_round_trip (kr : Keyring) (enc dec : NACLKey) (data : V)
    (buf rand : list byte) :
  CredentialsEncryptorKey kr = Some enc -> CredentialsDecryptorKey kr = Some dec ->
  opens_for enc dec ->
  Marshal data = inr buf -> (nonceLen <= length rand)%nat ->
  exists out,
    EncryptCredentialsData kr data rand = Returned (out, None) /\
    DecryptCredentialsData kr out =
    match Unmarshal buf with
    | inl err => Returned (None, Some err)
    | inr data' => Returned (Some data', None)
    end.
Proof.
  intros He Hd Hk Hm Hrand. unfold EncryptCredentialsData, DecryptCredentialsData.
  rewrite He, Hd, Hm. rewrite EncryptBuffer_run by done. cbn [mbind outcome_bind].
  eexists. split; [reflexivity|].
  rewrite DecodeString_EncodeToString.
  assert (Hn : length (take nonceLen rand) = nonceLen) by (rewrite length_take; lia).
  rewrite DecryptBuffer_run by done. rewrite Hk by done.
  cbn [mbind outcome_bind]. by destruct (Unmarshal buf).
Qed.

End Data.
End Buffers.

Lemma toy_keys_open :
  opens_for (B := toy_box) toy_key toy_key.
Proof. apply (same_key_opens (B := toy_box) toy_box_correct). by split. Qed.

(** X5 at an instance. *)
Lemma Buffer_round_trip_witness :
  exists cipher,
    EncryptBufferWithKey (B := toy_box)
      (Some toy_key)
      (bytes "{}") (replicate 24 x07) = Returned (cipher, None) /\
    DecryptBufferWithKey (B := toy_box)
      (Some toy_key) cipher =
    Returned (bytes "{}", None).
Proof.
  apply (Buffer_round_trip (B := toy_box) _ _ _ _ toy_keys_open).
  vm_compute. lia.
Defined.

(** X7 at an instance: a box holding the plain text of "a" and "b". *)
Lemma DecryptCredentials_sound_witness :
  exists nonce box,
    bytes cipherHeader ++ replicate 24 x07 ++ toy_tag ++ plain "a" "b" =
    bytes cipherHeader ++ nonce ++ box /\
    open (Box := toy_box) box nonce (publicKey toy_key) (privateKey toy_key) =
    Some (plain "a" "b").
Proof.
  destruct (DecryptCredentials_sound (B := toy_box)
              toy_key
              (bytes cipherHeader ++ replicate 24 x07 ++ toy_tag ++ plain "a" "b")
              "a" "b") as (nonce & box & H1 & _ & H2 & _).
  - vm_compute. reflexivity.
  - exists nonce, box. split; assumption.
Defined.

(** X8 at an instance: an input without a nonce. *)
Lemma Decrypt_errors_are_bad_credentials_witness :
  DecryptCredentialsWithKey (B := toy_box) None (bytes "nacl123") =
  Returned (EmptyString, EmptyString, Some ErrBadCredentials) /\
  ErrBadCredentials = ErrBadCredentials.
Proof.
  split; [vm_compute; reflexivity|].
  refine (proj2 (proj2 (Decrypt_errors_are_bad_credentials (B := toy_box) None
                          (bytes "nacl123") EmptyString EmptyString
                          ErrBadCredentials _))).
  vm_compute. reflexivity.
Defined.

(** X9 at an instance: a buffer of two bytes. *)
Lemma Decrypt_short_plain_panics_witness :
  exists cipher,
    EncryptBufferWithKey (B := toy_box)
      (Some toy_key)
      (bytes "{}") (replicate 24 x07) = Returned (cipher, None) /\
    DecryptCredentialsWithKey (B := toy_box)
      (Some toy_key) cipher = Panic.
Proof.
  apply (Decrypt_short_plain_panics (B := toy_box) _ _ _ _ toy_keys_open).
  - vm_compute. lia.
  - vm_compute. lia.
Defined.

(** X11 at an instance. *)
Lemma Credentials_round_trip_keyring_witness :
  exists out,
    EncryptCredentials (B := toy_box)
      toy_keyring
      "alice@example.net" "s3cret" (replicate 24 x07) = Returned (out, None) /\
    DecryptCredentials (B := toy_box)
      toy_keyring out =
    Returned ("alice@example.net"%string, "s3cret"%string, None).
Proof.
  apply (Credentials_round_trip_keyring (B := toy_box) toy_keyring toy_key toy_key
           _ _ _ eq_refl eq_refl toy_keys_open).
  - reflexivity.
  - vm_compute. lia.
Defined.

(** X12 at an instance. *)
Lemma Data_round_trip_witness :
  exists out,
    EncryptCredentialsData (B := toy_box) (J := toy_json)
      toy_keyring
      (bytes "token") (replicate 24 x07) = Returned (out, None) /\
    DecryptCredentialsData (B := toy_box) (J := toy_json)
      toy_keyring out =
    Returned (Some (bytes "token"), None).
Proof.
  apply (Data_round_trip (B := toy_box) (J := toy_json) toy_keyring toy_key toy_key
           (bytes "token") ([x22] ++ bytes "token" ++ [x22]) _
           eq_refl eq_refl toy_keys_open eq_refl).
  vm_compute. lia.
Defined.

End AccountMore.

Module SharingFacts.
Import Go Sharing GoFacts AccountFacts AccountMore.

(** The byte written for a digit value (lines 28-32). *)
Lemma lxor_nibble (d k : Z) : 0 <= d < 16 -> 0 <= k < 16 -> 0 <= Z.lxor d k < 16.
Proof.
  intros Hd Hk.
  assert (H : forallb (fun a => forallb (fun b =>
                 (0 <=? Z.lxor (Z.of_nat a) (Z.of_nat b)) &&
                 (Z.lxor (Z.of_nat a) (Z.of_nat b) <? 16)) (seq 0 16)) (seq 0 16) = true)
    by (vm_compute; reflexivity).
  rewrite forallb_forall in H.
  specialize (H (Z.to_nat d)). rewrite forallb_forall in H.
  specialize (H ltac:(apply in_seq; lia) (Z.to_nat k) ltac:(apply in_seq; lia)).
  rewrite !Z2Nat.id in H by lia. lia.
Qed.

Lemma lxor_twice (d k : Z) : Z.lxor (Z.lxor d k) k = d.
Proof. by rewrite Z.lxor_assoc, Z.lxor_nilpotent, Z.lxor_0_r. Qed.

Lemma digit_range (c d : Z) : digit c = Some d -> 0 <= d < 16.
Proof.
  unfold digit. intros H.
  destruct (Z.leb_spec 48 c), (Z.leb_spec c 57), (Z.leb_spec 97 c),
    (Z.leb_spec c 102), (Z.leb_spec 65 c), (Z.leb_spec c 70);
    simpl in H; simplify_eq; lia.
Qed.

Lemma digit_written (d : Z) :
  0 <= d < 16 -> digit (if d <? 10 then d + 48 else d - 10 + 97) = Some d.
Proof.
  intros Hd. unfold digit. destruct (Z.ltb_spec d 10).
  - replace ((48 <=? d + 48) && (d + 48 <=? 57)) with true by lia. f_equal. lia.
  - replace ((48 <=? d - 10 + 97) && (d - 10 + 97 <=? 57)) with false by lia.
    replace ((97 <=? d - 10 + 97) && (d - 10 + 97 <=? 102)) with true by lia.
    f_equal. lia.
Qed.

Lemma written_digit (c d : Z) :
  digit c = Some d -> ~ (65 <= c <= 70) ->
  (if d <? 10 then d + 48 else d - 10 + 97) = c.
Proof.
  unfold digit. intros H Hup.
  destruct (Z.leb_spec 48 c), (Z.leb_spec c 57), (Z.leb_spec 97 c),
    (Z.leb_spec c 102), (Z.leb_spec 65 c), (Z.leb_spec c 70);
    simpl in H; simplify_eq; try lia.
  all: destruct (Z.ltb_spec (c - 48) 10), (Z.ltb_spec (c - 87) 10); lia.
Qed.

Lemma key_lookup (key : list Z) (i : nat) :
  key <> [] -> Forall nibble key ->
  exists k, key !! (i mod length key)%nat = Some k /\ 0 <= k < 16.
Proof.
  intros Hne Hk.
  assert (Hl : (i mod length key < length key)%nat).
  { apply Nat.mod_upper_bound. by destruct key. }
  apply lookup_lt_is_Some in Hl as [k Hl]. exists k. split; [done|].
  rewrite Forall_forall in Hk. apply Hk. by eapply list_elem_of_lookup_2.
Qed.

Lemma xor_at_twice (key : list Z) (i : nat) (c : Z) :
  key <> [] -> Forall nibble key -> plain_byte c ->
  exists c', xor_at key i c = Returned c' /\ plain_byte c' /\
             xor_at key i c' = Returned c /\
             (digit c = None -> c' = c) /\
             (digit c <> None -> 48 <= c' <= 57 \/ 97 <= c' <= 102).
Proof.
  intros Hne Hk [Hc Hup]. unfold xor_at.
  destruct (digit c) as [d|] eqn:Hd.
  - destruct (key_lookup key i Hne Hk) as (k & -> & Hkr).
    destruct (Nat.eqb_spec (length key) 0) as [H0|_]; [by destruct key|].
    change (default 0 (Some k)) with k.
    pose proof (digit_range _ _ Hd) as Hdr.
    pose proof (lxor_nibble d k Hdr Hkr) as Hx.
    eexists. split; [reflexivity|].
    rewrite digit_written by done.
    rewrite lxor_twice. rewrite (written_digit c d) by done.
    split_and!; try done.
    + split; destruct (Z.ltb_spec (Z.lxor d k) 10); lia.
    + intros _. destruct (Z.ltb_spec (Z.lxor d k) 10); lia.
  - exists c. rewrite Hd. split_and!; try done.
Qed.


Lemma xor_from_twice (key : list Z) (buf : list Z) :
  key <> [] -> Forall nibble key -> Forall plain_byte buf ->
  forall i, exists out,
    xor_from key i buf = Returned out /\ Forall plain_byte out /\
    xor_from key i out = Returned buf /\
    Forall2 (fun c c' =>
               (digit c = None -> c' = c) /\
               (digit c <> None -> 48 <= c' <= 57 \/ 97 <= c' <= 102)) buf out.
Proof.
  intros Hne Hk Hbuf. induction Hbuf as [|c buf Hc _ IH]; intros i.
  - exists []. by split_and!.
  - destruct (xor_at_twice key i c Hne Hk Hc) as (c' & H1 & Hp & H2 & H3 & H4).
    destruct (IH (S i)) as (out & Ho & Hpo & Hback & Hall).
    exists (c' :: out). cbn [xor_from].
    rewrite H1, H2. cbn [mbind outcome_bind]. rewrite Ho, Hback.
    split_and!; try done; by constructor.
Qed.

Lemma u8_to_byte_all (l : list Z) :
  Forall plain_byte l -> u8 <$> (to_byte <$> l) = l.
Proof.
  induction 1 as [|c l [Hc _] _ IH]; [done|].
  cbn [fmap list_fmap]. rewrite u8_to_byte, Z.mod_small by done.
  f_equal. exact IH.
Qed.

Lemma to_byte_u8_all (l : list byte) : to_byte <$> (u8 <$> l) = l.
Proof.
  induction l as [|b l IH]; [done|].
  cbn [fmap list_fmap]. rewrite to_byte_u8. f_equal. exact IH.
Qed.

Lemma plain_bytes (l : list byte) :
  Forall not_upper_hex l -> Forall plain_byte (u8 <$> l).
Proof.
  induction 1 as [|b l Hb _ IH]; [by constructor|].
  constructor; [|done]. split; [apply u8_range | exact Hb].
Qed.

(** X13: [xor_id] undoes itself.  For a non-empty key of nibbles and an
    identifier without the capitals [A] to [F], scrambling keeps the length,
    and scrambling the result with the same key gives the identifier
    back. *)
Theorem xor_id_involution (id : string) (key : list Z) :
  key <> [] -> Forall nibble key -> Forall not_upper_hex (bytes id) ->
  exists scrambled,
    xor_id id key = Returned scrambled /\
    String.length scrambled = String.length id /\
    xor_id scrambled key = Returned id.
Proof.
  intros Hne Hk Hid. unfold xor_id.
  destruct (xor_from_twice key _ Hne Hk (plain_bytes _ Hid) 0%nat)
    as (out & Ho & Hpo & Hback & Hall).
  rewrite Ho. cbn [mbind outcome_bind]. eexists. split; [reflexivity|].
  split.
  - rewrite length_str, !length_fmap.
    apply Forall2_length in Hall. rewrite length_fmap in Hall.
    by rewrite <- Hall, length_bytes.
  - rewrite bytes_str, u8_to_byte_all, Hback by done.
    cbn [mbind outcome_bind]. by rewrite to_byte_u8_all, str_bytes.
Qed.


Lemma xor_at_shape (key : list Z) (i : nat) (c : Z) :
  key <> [] -> Forall nibble key -> 0 <= c < 256 ->
  exists c', xor_at key i c = Returned c' /\ 0 <= c' < 256 /\
             (digit c = None -> c' = c) /\
             (digit c <> None -> 48 <= c' <= 57 \/ 97 <= c' <= 102).
Proof.
  intros Hne Hk Hc. unfold xor_at.
  destruct (digit c) as [d|] eqn:Hd.
  - destruct (key_lookup key i Hne Hk) as (k & -> & Hkr).
    destruct (Nat.eqb_spec (length key) 0) as [H0|_]; [by destruct key|].
    change (default 0 (Some k)) with k.
    pose proof (digit_range _ _ Hd) as Hdr.
    pose proof (lxor_nibble d k Hdr Hkr) as Hx.
    eexists. split; [reflexivity|].
    split_and!; try done; destruct (Z.ltb_spec (Z.lxor d k) 10); lia.
  - exists c. split_and!; [done|lia|lia|done|done].
Qed.

(** X14: [xor_id] with a non-empty key of nibbles keeps every byte that is
    not a hexadecimal digit and writes a digit or a lower-case letter [a] to
    [f] in place of every hexadecimal digit. *)
Theorem xor_id_keeps_other_bytes (id : string) (key : list Z) :
  key <> [] -> Forall nibble key ->
  exists scrambled,
    xor_id id key = Returned scrambled /\
    Forall2 (fun b b' =>
               (digit (u8 b) = None -> b' = b) /\
               (digit (u8 b) <> None ->
                48 <= u8 b' <= 57 \/ 97 <= u8 b' <= 102))
      (bytes id) (bytes scrambled).
Proof.
  intros Hne Hk. unfold xor_id.
  assert (H : forall (l : list byte) i, exists out,
             xor_from key i (u8 <$> l) = Returned out /\
             Forall2 (fun b b' =>
               (digit (u8 b) = None -> b' = b) /\
               (digit (u8 b) <> None ->
                48 <= u8 b' <= 57 \/ 97 <= u8 b' <= 102)) l (to_byte <$> out)).
  { induction l as [|b l IH]; intros i.
    - exists []. split; [done|]. constructor.
    - destruct (xor_at_shape key i (u8 b) Hne Hk (u8_range b))
        as (c' & H1 & Hr & H3 & H4).
      destruct (IH (S i)) as (out & Ho & Hall).
      exists (c' :: out). cbn [fmap list_fmap xor_from].
      rewrite H1. cbn [mbind outcome_bind]. rewrite Ho. split; [done|].
      constructor; [|done]. rewrite u8_to_byte, Z.mod_small by done.
      split; [|done]. intros Hn. rewrite (H3 Hn). apply to_byte_u8. }
  destruct (H (bytes id) 0%nat) as (out & Ho & Hall).
  rewrite Ho. cbn [mbind outcome_bind]. eexists. split; [reflexivity|].
  by rewrite bytes_str.
Qed.

(** X15: with an empty key, [i % l] is a division by zero at the first
    hexadecimal digit, so [xor_id] raises; a string without one is returned
    as it is. *)
Theorem xor_id_empty_key (id : string) :
  (Exists (fun b => digit (u8 b) <> None) (bytes id) -> xor_id id [] = Panic) /\
  (Forall (fun b => digit (u8 b) = None) (bytes id) -> xor_id id [] = Returned id).
Proof.
  unfold xor_id.
  assert (H1 : forall (l : list byte) i,
             Forall (fun b => digit (u8 b) = None) l ->
             xor_from [] i (u8 <$> l) = Returned (u8 <$> l)).
  { induction l as [|b l IH]; intros i Hl; [done|].
    apply Forall_cons in Hl as [Hb Hl].
    cbn [fmap list_fmap xor_from]. unfold xor_at. rewrite Hb.
    cbn [mbind outcome_bind]. by rewrite (IH (S i) Hl). }
  assert (H2 : forall (l : list byte) i,
             Exists (fun b => digit (u8 b) <> None) l ->
             xor_from [] i (u8 <$> l) = Panic).
  { induction l as [|b l IH]; intros i Hl; [by apply Exists_nil in Hl|].
    cbn [fmap list_fmap xor_from]. unfold xor_at.
    destruct (digit (u8 b)) as [d|] eqn:Hb; [done|].
    cbn [mbind outcome_bind].
    apply Exists_cons in Hl as [Hl|Hl]; [done|]. by rewrite (IH (S i) Hl). }
  split; intros Hl.
  - by rewrite H2.
  - rewrite H1 by done. cbn [mbind outcome_bind].
    by rewrite to_byte_u8_all, str_bytes.
Qed.

(** X16: [make_xor_key] returns two values per random byte, each a nibble
    (between 0 and 15), so that its result is a key [xor_id] accepts. *)
Theorem make_xor_key_nibbles (random : list byte) :
  length (make_xor_key random) = (2 * length random)%nat /\
  Forall nibble (make_xor_key random) /\
  (random <> [] -> make_xor_key random <> []).
Proof.
  unfold make_xor_key. split_and!.
  - induction random as [|c r IH]; [done|]. cbn [flat_map app length]. lia.
  - induction random as [|c r IH]; [constructor|]. cbn [flat_map app].
    pose proof (u8_range c).
    constructor; [|constructor; [|done]]; unfold nibble.
    + change 15 with (Z.ones 4). rewrite Z.land_ones by lia.
      change (2 ^ 4) with 16. Z.div_mod_to_equations; lia.
    + rewrite Z.shiftr_div_pow2 by lia. change (2 ^ 4) with 16.
      Z.div_mod_to_equations; lia.
  - by destruct random.
Qed.

Lemma sample_key_ok : [3; 10; 15; 0] <> [] /\ Forall nibble [3; 10; 15; 0].
Proof. split; [done|]. repeat constructor; unfold nibble; lia. Qed.

(** X13 at an instance. *)
Lemma xor_id_involution_witness :
  exists scrambled,
    xor_id "7f0c-1a" [3; 10; 15; 0] = Returned scrambled /\
    String.length scrambled = String.length "7f0c-1a" /\
    xor_id scrambled [3; 10; 15; 0] = Returned "7f0c-1a"%string.
Proof.
  apply xor_id_involution; [apply sample_key_ok..|].
  repeat constructor; unfold not_upper_hex; vm_compute; intros [H1 H2];
    first [by apply H1 | by apply H2].
Defined.

(** X14 at an instance. *)
Lemma xor_id_keeps_other_bytes_witness :
  exists scrambled, xor_id "7F0c-1a" [3; 10; 15; 0] = Returned scrambled.
Proof.
  destruct (xor_id_keeps_other_bytes "7F0c-1a" [3; 10; 15; 0]
              (proj1 sample_key_ok) (proj2 sample_key_ok)) as (s & Hs & _).
  by exists s.
Defined.

End SharingFacts.

(** * [model/account]: documents *)
Module DocFacts.
Import Go Account Doc GoFacts Base64Facts AccountFacts AccountMore KeyNamerFacts.

(** ** Suffixes *)

Lemma eqb_append_self (k suffix : string) :
  String.eqb (k +:+ suffix) suffix = true -> k = EmptyString.
Proof.
  intros H. apply String.eqb_eq in H.
  apply (f_equal String.length) in H. rewrite length_append in H.
  destruct k; [done|]. simpl in H. lia.
Qed.

Lemma HasSuffix_append (k suffix : string) : HasSuffix (k +:+ suffix) suffix = true.
Proof.
  induction k as [|c k IH].
  - rewrite append_nil. destruct suffix; cbn [HasSuffix]; by rewrite String.eqb_refl.
  - rewrite append_cons. cbn [HasSuffix].
    destruct (String.eqb _ _); [done|]. exact IH.
Qed.

Lemma cut_append (k suffix : string) : cut (k +:+ suffix) suffix = k.
Proof.
  induction k as [|c k IH].
  - rewrite append_nil. destruct suffix; cbn [cut]; by rewrite String.eqb_refl.
  - destruct (String.eqb (String c k +:+ suffix) suffix) eqn:He.
    + by apply eqb_append_self in He.
    + rewrite append_cons in *. cbn [cut]. rewrite He. by rewrite IH.
Qed.

Lemma TrimSuffix_append (k suffix : string) : TrimSuffix (k +:+ suffix) suffix = k.
Proof. unfold TrimSuffix. by rewrite HasSuffix_append, cut_append. Qed.

Lemma sensitive_no_suffix (k : string) :
  sensitive k = true -> HasSuffix k "_encrypted" = false.
Proof.
  unfold sensitive, is_secret. intros H. apply orb_true_iff in H as [H|H].
  - apply String.eqb_eq in H. by subst.
  - apply bool_decide_eq_true in H. unfold secret_keys in H.
    repeat (apply elem_of_cons in H as [->|H]; [reflexivity|]).
    by apply elem_of_nil in H.
Qed.


(** ** Folds *)

Lemma rfold_inv {A S} (f : S -> A -> Rand S) (P : S -> Prop) (l : list A) :
  (forall st a rand st' rand',
     a ∈ l -> P st -> f st a rand = Returned (st', rand') -> P st') ->
  forall st rand st' rand',
    P st -> rfold f st l rand = Returned (st', rand') -> P st'.
Proof.
  induction l as [|a l IH]; intros Hf st rand st' rand' HP Hrun.
  - cbv [rfold rret] in Hrun. by simplify_eq.
  - cbn [rfold] in Hrun. unfold rbind in Hrun at 1.
    destruct (f st a rand) as [[st1 rand1]|] eqn:Hstep; [|done].
    eapply IH; [| |exact Hrun].
    + intros. eapply Hf; [|eassumption..]. by right.
    + eapply Hf; [|eassumption..]. by left.
Qed.

Lemma rfold_progress {A S} (f : S -> A -> Rand S)
    (P : list A -> S -> list byte -> Prop) (l : list A) :
  (forall pre a post st rand, l = pre ++ a :: post -> P pre st rand ->
     exists st' rand', f st a rand = Returned (st', rand') /\ P (pre ++ [a]) st' rand') ->
  forall st rand, P [] st rand ->
    exists st' rand', rfold f st l rand = Returned (st', rand') /\ P l st' rand'.
Proof.
  intros Hstep.
  enough (forall post pre st rand, l = pre ++ post -> P pre st rand ->
            exists st' rand', rfold f st post rand = Returned (st', rand') /\ P l st' rand')
    as H by (intros; by eapply (H l [])).
  induction post as [|a post IH]; intros pre st rand Hl HP.
  - rewrite app_nil_r in Hl. subst. by eexists _, _.
  - destruct (Hstep pre a post st rand Hl HP) as (st1 & rand1 & Hf & HP1).
    destruct (IH (pre ++ [a]) st1 rand1) as (st' & rand' & Hr & HP');
      [by rewrite <- app_assoc|done|].
    exists st', rand'. split; [|done]. cbn [rfold]. unfold rbind. by rewrite Hf.
Qed.

Lemma ofold_progress {A S} (f : S -> A -> outcome S)
    (P : list A -> S -> Prop) (l : list A) :
  (forall pre a post st, l = pre ++ a :: post -> P pre st ->
     exists st', f st a = Returned st' /\ P (pre ++ [a]) st') ->
  forall st, P [] st -> exists st', ofold f st l = Returned st' /\ P l st'.
Proof.
  intros Hstep.
  enough (forall post pre st, l = pre ++ post -> P pre st ->
            exists st', ofold f st post = Returned st' /\ P l st')
    as H by (intros; by eapply (H l [])).
  induction post as [|a post IH]; intros pre st Hl HP.
  - rewrite app_nil_r in Hl. subst. by eexists.
  - destruct (Hstep pre a post st Hl HP) as (st1 & Hf & HP1).
    destruct (IH (pre ++ [a]) st1) as (st' & Hr & HP');
      [by rewrite <- app_assoc|done|].
    exists st'. split; [|done]. cbn [ofold]. by rewrite Hf.
Qed.

(** ** Orders of visit *)

Lemma visit_elem (l : list (string * value)) (auth : gmap string value) k v :
  l ≡ₚ map_to_list auth -> (k, v) ∈ l <-> auth !! k = Some v.
Proof. intros ->. apply elem_of_map_to_list. Qed.

Lemma visit_fresh (l pre post : list (string * value)) (auth : gmap string value) k v v' :
  l ≡ₚ map_to_list auth -> l = pre ++ (k, v) :: post -> (k, v') ∈ pre -> False.
Proof.
  intros Hl -> Hin.
  assert (Hnd : NoDup ((pre ++ (k, v) :: post).*1)).
  { rewrite Hl. apply NoDup_fst_map_to_list. }
  rewrite fmap_app in Hnd. apply NoDup_app in Hnd as (_ & Hnd & _).
  apply (Hnd k).
  - apply list_elem_of_fmap. by exists (k, v').
  - cbn. left.
Qed.

Lemma visit_here (l pre post : list (string * value)) (auth : gmap string value) k v :
  l ≡ₚ map_to_list auth -> l = pre ++ (k, v) :: post -> auth !! k = Some v.
Proof.
  intros Hl ->. apply (visit_elem _ _ _ _ Hl).
  apply elem_of_app. right. left.
Qed.

Section Documents.
Context {B : Box} {J : Json value}.
Variable kr : Keyring.

(** ** The recursion, as the source writes it *)

Lemma encryptMap_eq range (m : gmap string value) (depth : nat) :
  encryptMap kr range m depth =
  encryptMap_body kr (range depth)
    (match m !! "data"%string with
     | Some v => Some (encryptValue kr range v (S depth))
     | None => None
     end) m.
Proof.
  unfold encryptMap. cbn [encryptValue]. rewrite lookup_fmap.
  by destruct (m !! "data"%string).
Qed.

Lemma decryptMap_eq range (m : gmap string value) (depth : nat) :
  decryptMap kr range m depth =
  decryptMap_body kr (range depth)
    (match m !! "data"%string with
     | Some v => Some (decryptValue kr range v (S depth))
     | None => None
     end) m.
Proof.
  unfold decryptMap. cbn [decryptValue]. rewrite lookup_fmap.
  by destruct (m !! "data"%string).
Qed.

Lemma spine_data (m d : gmap string value) :
  m !! "data"%string = Some (VMap d) -> (spine (VMap d) < spine (VMap m))%nat.
Proof.
  intros H. cbn [spine]. rewrite !lookup_fmap, H. cbn.
  rewrite lookup_fmap. lia.
Qed.

(** What [encryptMap] returns, case by case. *)
Lemma encryptMap_cases range (m : gmap string value) (depth : nat) rand b m' rand' :
  encryptMap kr range m depth rand = Returned ((b, m'), rand') ->
  (as_map (m !! "auth"%string) = None /\ b = false /\ m' = m /\ rand' = rand) \/
  exists auth st rand1,
    m !! "auth"%string = Some (VMap auth) /\
    rfold (encrypt_entry kr (default EmptyString (as_string (auth !! "login"%string))))
      (mkEnc ∅ [] false) (range depth auth) rand = Returned (st, rand1) /\
    let cloned := foldl (restore_key auth) (enc_cloned st) (encKeys st) in
    ((exists d b1 d',
        m !! "data"%string = Some (VMap d) /\
        encryptMap kr range d (S depth) rand1 = Returned ((b1, d'), rand') /\
        b = (if b1 && negb (encrypted st) then true else encrypted st) /\
        m' = <["data"%string := VMap d']> (<["auth"%string := VMap cloned]> m)) \/
     (as_map (m !! "data"%string) = None /\ b = encrypted st /\ rand' = rand1 /\
      m' = <["auth"%string := VMap cloned]> m)).
Proof.
  rewrite encryptMap_eq. unfold encryptMap_body.
  destruct (m !! "auth"%string) as [[| | | | |auth]|] eqn:Hauth; cbn [as_map];
    try (cbv [rret]; intros; simplify_eq; by left).
  intros Hrun. right. unfold rbind in Hrun at 1.
  match type of Hrun with
  | context [rfold ?f ?s ?l ?r] => destruct (rfold f s l r) as [[st rand1]|] eqn:Hloop
  end; [|done].
  exists auth, st, rand1. split; [done|]. split; [done|]. cbn zeta.
  rewrite lookup_insert_ne in Hrun by done.
  destruct (m !! "data"%string) as [[| | | | |d]|] eqn:Hdata; cbn [as_map] in Hrun |- *;
    try (cbv [rret] in Hrun; simplify_eq; right; done).
  left. unfold rbind in Hrun.
  change (encryptValue kr range (VMap d) (S depth)) with (encryptMap kr range d (S depth)) in Hrun.
  destruct (encryptMap kr range d (S depth) rand1) as [[[b1 d'] rand2]|] eqn:Hrec; [|done].
  cbv [rret] in Hrun. simplify_eq. by exists d, b1, d'.
Qed.

(** ** No secret is left in the clear *)

Lemma encrypt_entry_clean login st kv rand st' rand' :
  clean st -> encrypt_entry kr login st kv rand = Returned (st', rand') -> clean st'.
Proof.
  intros [Hc Hk]. destruct kv as [k v]. unfold encrypt_entry.
  destruct (String.eqb k "password") eqn:Hpw.
  { unfold rbind. destruct (encrypt_credentials _ _ _ _) as [[r rand1]|]; [|done].
    cbv [rret]. intros ?; simplify_eq. split; [|done]. cbn. intros k' Hs.
    rewrite lookup_insert_ne; [by apply Hc|]. intros <-. done. }
  destruct (is_secret k) eqn:Hsec.
  { unfold rbind. destruct (encrypt_data _ _ _) as [[r rand1]|]; [|done].
    cbv [rret]. intros ?; simplify_eq. split; [|done]. cbn. intros k' Hs.
    rewrite lookup_insert_ne; [by apply Hc|]. intros <-.
    apply sensitive_no_suffix in Hs. by rewrite HasSuffix_append in Hs. }
  assert (Hns : sensitive k = false) by (unfold sensitive; by rewrite Hpw, Hsec).
  destruct (HasSuffix k "_encrypted"); cbv [rret]; intros ?; simplify_eq.
  - split; [done|]. cbn. apply Forall_app. split; [done|]. by constructor.
  - split; [|done]. cbn. intros k' Hs.
    rewrite lookup_insert_ne; [by apply Hc|]. intros <-. congruence.
Qed.

Lemma restore_clean auth (keys : list string) (cloned : gmap string value) :
  (forall k, sensitive k = true -> cloned !! k = None) ->
  Forall (fun k => sensitive k = false) keys ->
  forall k, sensitive k = true -> foldl (restore_key auth) cloned keys !! k = None.
Proof.
  revert cloned. induction keys as [|key keys IH]; intros cloned Hc Hk; [done|].
  apply Forall_cons in Hk as [Hkey Hk]. cbn [foldl]. apply IH; [|done].
  intros k Hs. unfold restore_key. destruct (cloned !! key); [by apply Hc|].
  rewrite lookup_insert_ne; [by apply Hc|]. intros <-. congruence.
Qed.

Lemma sealed_auth_intro (auth : gmap string value) :
  (forall k, sensitive k = true -> auth !! k = None) -> sealed_auth auth = true.
Proof.
  intros H. apply forallb_forall. intros [k v] Hin.
  apply list_elem_of_In, elem_of_map_to_list in Hin. cbn.
  destruct (sensitive k) eqn:Hs; [|done]. rewrite (H k Hs) in Hin. done.
Qed.

Lemma sealed_auth_elim (auth : gmap string value) (k : string) :
  sealed_auth auth = true -> sensitive k = true -> auth !! k = None.
Proof.
  intros H Hs. destruct (auth !! k) as [v|] eqn:Hk; [|done].
  apply elem_of_map_to_list, list_elem_of_In in Hk.
  eapply forallb_forall in H; [|exact Hk]. cbn in H. by rewrite Hs in H.
Qed.

Lemma sealed_eq (m : gmap string value) :
  sealed (VMap m) =
  match as_map (m !! "auth"%string) with
  | Some auth =>
      sealed_auth auth &&
      match m !! "data"%string with Some d => sealed d | None => true end
  | None => true
  end.
Proof.
  cbn [sealed]. rewrite lookup_fmap. by destruct (m !! "data"%string).
Qed.

Lemma encryptMap_sealed range (n : nat) :
  forall (m : gmap string value) depth rand b m' rand',
    (spine (VMap m) <= n)%nat ->
    encryptMap kr range m depth rand = Returned ((b, m'), rand') ->
    sealed (VMap m') = true.
Proof.
  induction n as [|n IH]; intros m depth rand b m' rand' Hn Hrun.
  { cbn [spine] in Hn. lia. }
  apply encryptMap_cases in Hrun
    as [(Hauth & -> & -> & ->)|(auth & st & rand1 & Hauth & Hloop & Hrest)].
  { rewrite sealed_eq. by rewrite Hauth. }
  assert (Hclean : forall k, sensitive k = true ->
            foldl (restore_key auth) (enc_cloned st) (encKeys st) !! k = None).
  { eapply (rfold_inv _ clean) in Hloop as [Hc Hk].
    - by apply restore_clean.
    - intros. by eapply encrypt_entry_clean.
    - split; [done|]. constructor. }
  apply sealed_auth_intro in Hclean.
  cbn zeta in Hrest.
  destruct Hrest as [(d & b1 & d' & Hdata & Hrec & -> & ->)|(Hdata & -> & -> & ->)].
  - apply IH in Hrec; [|pose proof (spine_data _ _ Hdata); lia].
    rewrite sealed_eq. rewrite lookup_insert_ne by done.
    rewrite !lookup_insert_eq. cbn [as_map]. by rewrite Hclean, Hrec.
  - rewrite sealed_eq. rewrite lookup_insert_eq. cbn [as_map].
    rewrite Hclean. rewrite lookup_insert_ne by done.
    destruct (m !! "data"%string) as [[]|]; done.
Qed.

(** ** A document without secrets is left as it is *)

Lemma restore_lookup auth (keys : list string) (cloned : gmap string value) (k : string) :
  foldl (restore_key auth) cloned keys !! k =
  match cloned !! k with
  | Some v => Some v
  | None => if bool_decide (k ∈ keys) then Some (default VNil (auth !! k)) else None
  end.
Proof.
  revert cloned. induction keys as [|key keys IH]; intros cloned.
  { cbn. by destruct (cloned !! k). }
  cbn [foldl]. rewrite IH. unfold restore_key.
  destruct (cloned !! key) eqn:Hkey.
  - destruct (cloned !! k) eqn:Hk; [done|].
    assert (k <> key) by congruence.
    destruct (bool_decide (k ∈ keys)) eqn:Hd.
    + apply bool_decide_eq_true in Hd. rewrite bool_decide_eq_true_2; [done|by right].
    + apply bool_decide_eq_false in Hd. rewrite bool_decide_eq_false_2; [done|].
      intros [?|?]%elem_of_cons; done.
  - destruct (decide (k = key)) as [->|Hne].
    + rewrite lookup_insert_eq, Hkey. rewrite bool_decide_eq_true_2; [done|by left].
    + rewrite lookup_insert_ne by done. destruct (cloned !! k); [done|].
      destruct (bool_decide (k ∈ keys)) eqn:Hd.
      * apply bool_decide_eq_true in Hd. rewrite bool_decide_eq_true_2; [done|by right].
      * apply bool_decide_eq_false in Hd. rewrite bool_decide_eq_false_2; [done|].
        intros [?|?]%elem_of_cons; done.
Qed.

Lemma encrypt_loop_sealed (auth : gmap string value) (l : list (string * value))
    login rand :
  l ≡ₚ map_to_list auth -> sealed_auth auth = true ->
  exists st,
    rfold (encrypt_entry kr login) (mkEnc ∅ [] false) l rand = Returned (st, rand) /\
    encrypted st = false /\
    foldl (restore_key auth) (enc_cloned st) (encKeys st) = auth.
Proof.
  intros Hl Hs.
  destruct (rfold_progress (encrypt_entry kr login)
    (fun pre st rand' =>
       rand' = rand /\ encrypted st = false /\
       (forall k v, enc_cloned st !! k = Some v <->
                    (k, v) ∈ pre /\ HasSuffix k "_encrypted" = false) /\
       (forall k, k ∈ encKeys st <-> k ∈ pre.*1 /\ HasSuffix k "_encrypted" = true))
    l) with (st := mkEnc ∅ [] false) (rand := rand)
    as (st & rand' & Hrun & -> & Hflag & Hc & Hk).
  - intros pre [k v] post st rand' Hsplit (-> & Hflag & Hc & Hk).
    pose proof (visit_here _ _ _ _ _ _ Hl Hsplit) as Hkv.
    assert (Hns : sensitive k = false).
    { destruct (sensitive k) eqn:E; [|done].
      rewrite (sealed_auth_elim _ _ Hs E) in Hkv. done. }
    apply orb_false_iff in Hns as [Hpw Hsec].
    unfold encrypt_entry. rewrite Hpw, Hsec.
    destruct (HasSuffix k "_encrypted") eqn:Hsuf; cbv [rret]; eexists _, _;
      (split; [reflexivity|]); cbn; (split; [done|]); (split; [done|]); split.
    + intros k' v'. rewrite Hc, elem_of_app, list_elem_of_singleton.
      split; [tauto|]. intros [[?|?] ?]; [done|]. simplify_eq. congruence.
    + intros k'. rewrite elem_of_app, Hk, fmap_app, elem_of_app. cbn.
      rewrite !list_elem_of_singleton. split; [|tauto].
      intros [?|?]; [tauto|subst; tauto].
    + intros k' v'. rewrite elem_of_app, list_elem_of_singleton.
      destruct (decide (k' = k)) as [->|Hne].
      * rewrite lookup_insert_eq. split.
        -- intros ?; simplify_eq. tauto.
        -- intros [[Hin|?] _]; [|by simplify_eq].
           destruct (visit_fresh _ _ _ _ _ _ _ Hl Hsplit Hin).
      * rewrite lookup_insert_ne by done. rewrite Hc.
        split; [tauto|]. intros [[?|?] ?]; [done|]. simplify_eq.
    + intros k'. rewrite Hk, fmap_app, elem_of_app. cbn.
      rewrite list_elem_of_singleton. split; [tauto|].
      intros [[?|?] ?]; [done|congruence].
  - split; [done|]. split; [done|]. cbn [enc_cloned encKeys]. split.
    + intros k v. rewrite lookup_empty. split; [done|].
      intros [H%elem_of_nil _]. done.
    + intros k. cbn. split; [intros H%elem_of_nil; done|].
      intros [H%elem_of_nil _]. done.
  - exists st. split; [done|]. split; [done|].
    apply map_eq. intros k. rewrite restore_lookup.
    destruct (enc_cloned st !! k) as [v|] eqn:Hck.
    + apply Hc in Hck as [Hin _]. symmetry. by apply (visit_elem _ _ _ _ Hl).
    + destruct (bool_decide (k ∈ encKeys st)) eqn:Hd.
      * apply bool_decide_eq_true, Hk in Hd as [Hin _].
        apply list_elem_of_fmap in Hin as ([k' v] & -> & Hin).
        apply (visit_elem _ _ _ _ Hl) in Hin. cbn. by rewrite Hin.
      * apply bool_decide_eq_false in Hd.
        destruct (auth !! k) as [v|] eqn:Hak; [|done].
        apply (visit_elem _ _ _ _ Hl) in Hak.
        destruct (HasSuffix k "_encrypted") eqn:Hsuf.
        -- destruct Hd. apply Hk. split; [|done].
           apply list_elem_of_fmap. by exists (k, v).
        -- assert (enc_cloned st !! k = Some v) by (by apply Hc). congruence.
Qed.

Lemma encryptMap_sealed_id range (n : nat) :
  visits range ->
  forall (m : gmap string value) depth rand,
    (spine (VMap m) <= n)%nat -> sealed (VMap m) = true ->
    encryptMap kr range m depth rand = Returned ((false, m), rand).
Proof.
  intros Hv. induction n as [|n IH]; intros m depth rand Hn Hs.
  { cbn [spine] in Hn. lia. }
  rewrite sealed_eq in Hs. rewrite encryptMap_eq. unfold encryptMap_body.
  destruct (m !! "auth"%string) as [[| | | | |auth]|] eqn:Hauth; cbn [as_map] in Hs |- *;
    try reflexivity.
  apply andb_true_iff in Hs as [Hsa Hsd].
  destruct (encrypt_loop_sealed auth (range depth auth)
              (default EmptyString (as_string (auth !! "login"%string))) rand)
    as (st & Hrun & Hflag & Hcl); [apply Hv|done|].
  unfold rbind at 1. rewrite Hrun. rewrite Hcl.
  rewrite (insert_id m "auth"%string) by done. rewrite Hflag.
  destruct (m !! "data"%string) as [[| | | | |d]|] eqn:Hdata; cbn [as_map]; try reflexivity.
  change (encryptValue kr range (VMap d) (S depth)) with (encryptMap kr range d (S depth)).
  unfold rbind. rewrite IH; [|pose proof (spine_data _ _ Hdata); lia|done].
  cbv [rret]. cbn. by rewrite insert_id.
Qed.

(** ** Counting and naming keys *)

Lemma ready_eq (m : gmap string value) :
  ready (VMap m) =
  match as_map (m !! "auth"%string) with
  | Some auth =>
      ready_auth auth &&
      match m !! "data"%string with Some d => ready d | None => true end
  | None => true
  end.
Proof.
  cbn [ready]. rewrite lookup_fmap. by destruct (m !! "data"%string).
Qed.

Lemma need_eq (m : gmap string value) :
  need (VMap m) =
  match as_map (m !! "auth"%string) with
  | Some auth =>
      (24 * sensitive_entries (map_to_list auth)
       + match m !! "data"%string with Some d => need d | None => 0 end)%nat
  | None => 0%nat
  end.
Proof.
  cbn [need]. rewrite lookup_fmap. by destruct (m !! "data"%string).
Qed.

Lemma sensitive_entries_app (l1 l2 : list (string * value)) :
  sensitive_entries (l1 ++ l2) = (sensitive_entries l1 + sensitive_entries l2)%nat.
Proof. unfold sensitive_entries. by rewrite filter_app, length_app. Qed.

Lemma sensitive_entries_one (k : string) (v : value) :
  sensitive_entries [(k, v)] = if sensitive k then 1%nat else 0%nat.
Proof.
  unfold sensitive_entries. rewrite filter_cons. cbn [fst].
  destruct (decide (sensitive k = true)) as [->|Hn]; [done|].
  by destruct (sensitive k).
Qed.

Lemma sensitive_entries_perm (l1 l2 : list (string * value)) :
  l1 ≡ₚ l2 -> sensitive_entries l1 = sensitive_entries l2.
Proof. intros H. unfold sensitive_entries. by rewrite H. Qed.

Lemma secret_not_credentials (s : string) :
  is_secret s = true -> String.eqb s "credentials" = false.
Proof.
  intros H. apply bool_decide_eq_true in H. unfold secret_keys in H.
  repeat (apply elem_of_cons in H as [->|H]; [reflexivity|]).
  by apply elem_of_nil in H.
Qed.

Lemma append_suffix_inj (k s suffix : string) :
  (k +:+ suffix)%string = (s +:+ suffix)%string -> k = s.
Proof.
  intros H. rewrite <- (TrimSuffix_append k suffix), H. apply TrimSuffix_append.
Qed.

Lemma target_plain (k : string) : sensitive k = false -> target k = k.
Proof.
  unfold sensitive, target. intros [-> ->]%orb_false_iff. done.
Qed.

(** ** A document without encrypted keys is left as it is *)

Lemma cleartext_eq (m : gmap string value) :
  cleartext (VMap m) =
  match as_map (m !! "auth"%string) with
  | Some auth =>
      cleartext_auth auth &&
      match m !! "data"%string with Some d => cleartext d | None => true end
  | None => true
  end.
Proof.
  cbn [cleartext]. rewrite lookup_fmap. by destruct (m !! "data"%string).
Qed.

Lemma decrypt_loop_cleartext (auth : gmap string value) (l : list (string * value)) :
  l ≡ₚ map_to_list auth -> cleartext_auth auth = true ->
  exists st,
    ofold (decrypt_entry kr) (mkDec ∅ false) l = Returned st /\
    decrypted st = false /\ dec_cloned st = auth.
Proof.
  intros Hl Hc.
  destruct (ofold_progress (decrypt_entry kr)
    (fun pre st =>
       decrypted st = false /\
       (forall k v, dec_cloned st !! k = Some v <-> (k, v) ∈ pre))
    l) with (st := mkDec ∅ false) as (st & Hrun & Hflag & Hlook).
  - intros pre [k v] post st Hsplit (Hflag & Hlook).
    pose proof (visit_here _ _ _ _ _ _ Hl Hsplit) as Hkv.
    assert (Hsuf : HasSuffix k "_encrypted" = false).
    { unfold cleartext_auth in Hc.
      eapply forallb_forall in Hc; [|by apply list_elem_of_In, elem_of_map_to_list].
      by apply negb_true_iff in Hc. }
    unfold decrypt_entry. rewrite Hsuf. cbn [negb].
    eexists. split; [reflexivity|]. cbn [dec_cloned decrypted]. split; [done|].
    intros k' v'. rewrite elem_of_app, list_elem_of_singleton.
    destruct (decide (k' = k)) as [->|Hne].
    + rewrite lookup_insert_eq. split.
      * intros ?; simplify_eq. tauto.
      * intros [Hin|?]; [|by simplify_eq].
        destruct (visit_fresh _ _ _ _ _ _ _ Hl Hsplit Hin).
    + rewrite lookup_insert_ne by done. rewrite Hlook.
      split; [tauto|]. intros [?|?]; [done|]. simplify_eq.
  - cbn [dec_cloned decrypted]. split; [done|].
    intros k v. rewrite lookup_empty. split; [done|]. intros H%elem_of_nil. done.
  - exists st. split; [done|]. split; [done|].
    apply map_eq. intros k. apply option_eq. intros v.
    rewrite Hlook. apply (visit_elem _ _ _ _ Hl).
Qed.

Lemma decryptMap_cleartext_id range (n : nat) :
  visits range ->
  forall (m : gmap string value) depth,
    (spine (VMap m) <= n)%nat -> cleartext (VMap m) = true ->
    decryptMap kr range m depth = Returned (false, m).
Proof.
  intros Hv. induction n as [|n IH]; intros m depth Hn Hs.
  { cbn [spine] in Hn. lia. }
  rewrite cleartext_eq in Hs. rewrite decryptMap_eq. unfold decryptMap_body.
  destruct (m !! "auth"%string) as [[| | | | |auth]|] eqn:Hauth; cbn [as_map] in Hs |- *;
    try reflexivity.
  apply andb_true_iff in Hs as [Hsa Hsd].
  destruct (decrypt_loop_cleartext auth (range depth auth))
    as (st & Hrun & Hflag & Hcl); [apply Hv|done|].
  rewrite Hrun. cbn [mbind outcome_bind]. rewrite Hcl.
  rewrite (insert_id m "auth"%string) by done. rewrite Hflag.
  destruct (m !! "data"%string) as [[| | | | |d]|] eqn:Hdata; cbn [as_map]; try reflexivity.
  change (decryptValue kr range (VMap d) (S depth)) with (decryptMap kr range d (S depth)).
  rewrite IH; [|pose proof (spine_data _ _ Hdata); lia|done].
  cbn. by rewrite insert_id.
Qed.

(** ** Enough entropy *)

Lemma credentials_returns (key : NACLKey) (login password : string) (rand : list byte) :
  (nonceLen <= length rand)%nat ->
  exists out, EncryptCredentialsWithKey (Some key) login password rand = Returned (out, None).
Proof.
  intros Hge. destruct (creds_built login password) as (hdr & Hh & Hc).
  unfold EncryptCredentialsWithKey.
  destruct (PutUint32 _ _) as [c1|]; [|done]. cbn [mbind outcome_bind] in *.
  destruct (copy_at plainPrefixLen c1 _) as [c2|]; [|done]. cbn [mbind outcome_bind] in *.
  rewrite Hc. cbn [mbind outcome_bind]. rewrite ReadFull_make by done.
  set (nonce := take nonceLen rand).
  assert (Hn : length nonce = nonceLen) by (unfold nonce; rewrite length_take; lia).
  rewrite Hn.
  assert (H4 : copy_at 0 (make (String.length cipherHeader + nonceLen))
                 (bytes cipherHeader) =
               Returned (bytes cipherHeader ++ replicate nonceLen "000"%byte)).
  { unfold make. rewrite replicate_add.
    exact (copy_at_app [] (replicate (String.length cipherHeader) "000"%byte)
             (replicate nonceLen "000"%byte) (bytes cipherHeader) eq_refl). }
  assert (H5 : copy_at (String.length cipherHeader)
                 (bytes cipherHeader ++ replicate nonceLen "000"%byte) nonce =
               Returned (bytes cipherHeader ++ nonce)).
  { change (String.length cipherHeader) with (length (bytes cipherHeader)).
    rewrite <- (app_nil_r (replicate nonceLen _)).
    rewrite (copy_at_app (bytes cipherHeader) _ [] nonce)
      by (by rewrite length_replicate, Hn).
    by rewrite app_nil_r. }
  rewrite H4. cbn [mbind outcome_bind]. rewrite H5. cbn [mbind outcome_bind].
  by eexists.
Qed.

Lemma encrypt_entry_returns (key : NACLKey) login st (k : string) (v : value)
    (rand : list byte) :
  CredentialsEncryptorKey kr = Some key ->
  (24 * sensitive_entries [(k, v)] <= length rand)%nat ->
  exists st' rand',
    encrypt_entry kr login st (k, v) rand = Returned (st', rand') /\
    (length rand <= length rand' + 24 * sensitive_entries [(k, v)])%nat.
Proof.
  intros Hkey. rewrite sensitive_entries_one. unfold sensitive, encrypt_entry.
  destruct (String.eqb k "password") eqn:Hpw; cbn [orb].
  { intros Hrand. unfold rbind, encrypt_credentials, EncryptCredentials. rewrite Hkey.
    destruct (credentials_returns key login
                (default EmptyString (as_string (Some v))) rand) as (out & ->);
      [unfold nonceLen; lia|].
    cbn [mbind outcome_bind]. cbv [rret]. eexists _, _. split; [reflexivity|].
    rewrite length_drop. unfold nonceLen. lia. }
  destruct (is_secret k) eqn:Hsec.
  { intros Hrand. unfold rbind, encrypt_data, EncryptCredentialsData. rewrite Hkey.
    destruct (Marshal v) as [err|buf].
    - cbn [mbind outcome_bind]. cbv [rret]. eexists _, _. split; [reflexivity|]. lia.
    - rewrite EncryptBuffer_run by (unfold nonceLen; lia).
      cbn [mbind outcome_bind]. cbv [rret]. eexists _, _. split; [reflexivity|].
      rewrite length_drop. unfold nonceLen. lia. }
  intros _. destruct (HasSuffix k "_encrypted"); cbv [rret];
    eexists _, _; (split; [reflexivity|]); lia.
Qed.

Lemma encryptMap_returns (key : NACLKey) range (n : nat) :
  CredentialsEncryptorKey kr = Some key -> visits range ->
  forall (m : gmap string value) depth rand,
    (spine (VMap m) <= n)%nat -> (need (VMap m) <= length rand)%nat ->
    exists b m' rand',
      encryptMap kr range m depth rand = Returned ((b, m'), rand') /\
      (length rand <= length rand' + need (VMap m))%nat.
Proof.
  intros Hkey Hv. induction n as [|n IH]; intros m depth rand Hn Hneed.
  { cbn [spine] in Hn. lia. }
  rewrite need_eq in Hneed |- *. rewrite encryptMap_eq. unfold encryptMap_body.
  destruct (m !! "auth"%string) as [[| | | | |auth]|] eqn:Hauth; cbn [as_map] in Hneed |- *;
    try (cbv [rret]; eexists _, _, _; split; [reflexivity|lia]).
  set (login := default EmptyString (as_string (auth !! "login"%string))).
  set (l := range depth auth).
  assert (Hl : sensitive_entries l = sensitive_entries (map_to_list auth))
    by apply sensitive_entries_perm, Hv.
  destruct (rfold_progress (encrypt_entry kr login)
    (fun pre st rand' =>
       (length rand <= length rand' + 24 * sensitive_entries pre)%nat)
    l) with (st := mkEnc ∅ [] false) (rand := rand) as (st & rand1 & Hrun & Hlen).
  - intros pre [k v] post st rand' Hsplit Hlen.
    assert (Hcount : (sensitive_entries pre + sensitive_entries [(k, v)]
                      <= sensitive_entries l)%nat).
    { rewrite Hsplit, sensitive_entries_app.
      change ((k, v) :: post) with ([(k, v)] ++ post).
      rewrite sensitive_entries_app. lia. }
    destruct (encrypt_entry_returns key login st k v rand' Hkey) as (st' & rand2 & -> & Hl2);
      [lia|].
    eexists _, _. split; [reflexivity|]. rewrite sensitive_entries_app. lia.
  - cbn. lia.
  - unfold rbind at 1. rewrite Hrun. rewrite lookup_insert_ne by done.
    destruct (m !! "data"%string) as [[| | | | |d]|] eqn:Hdata; cbn [as_map];
      try (cbv [rret]; eexists _, _, _; split; [reflexivity|cbn [need]; lia]).
    change (encryptValue kr range (VMap d) (S depth)) with (encryptMap kr range d (S depth)).
    destruct (IH d (S depth) rand1) as (b1 & d' & rand2 & Hrec & Hlen');
      [pose proof (spine_data _ _ Hdata); lia|lia|].
    unfold rbind. rewrite Hrec. cbv [rret]. eexists _, _, _. split; [reflexivity|]. lia.
Qed.

(** ** Decrypting what was encrypted *)

Section RoundTrip.
Variables enc dec : NACLKey.
Hypothesis He : CredentialsEncryptorKey kr = Some enc.
Hypothesis Hd : CredentialsDecryptorKey kr = Some dec.
Hypothesis Hopen : opens_for enc dec.
Hypothesis Hjson : json_round_trip (V := value).

Lemma credentials_trip (login password : string) (rand : list byte) :
  Z.of_nat (String.length login) < 2 ^ 32 -> (nonceLen <= length rand)%nat ->
  exists out,
    encrypt_credentials kr login password rand =
      Returned ((out, None), drop nonceLen rand) /\
    DecryptCredentials kr out = Returned (login, password, None).
Proof.
  intros Hlen Hrand. unfold encrypt_credentials, EncryptCredentials, DecryptCredentials.
  rewrite He, Hd. rewrite Encrypt_run by done. cbn [mbind outcome_bind].
  eexists. split; [reflexivity|].
  rewrite DecodeString_EncodeToString.
  assert (Hn : length (take nonceLen rand) = nonceLen) by (rewrite length_take; lia).
  rewrite DecryptCredentials_run by done. rewrite Hopen by done.
  by apply parse_plain.
Qed.

Lemma data_trip (v : value) (buf rand : list byte) :
  Marshal v = inr buf -> (nonceLen <= length rand)%nat ->
  exists out,
    encrypt_data kr v rand = Returned ((out, None), drop nonceLen rand) /\
    DecryptCredentialsData kr out = Returned (Some v, None).
Proof.
  intros Hm Hrand. unfold encrypt_data, EncryptCredentialsData, DecryptCredentialsData.
  rewrite He, Hd, Hm. rewrite EncryptBuffer_run by done. cbn [mbind outcome_bind].
  eexists. split; [reflexivity|].
  rewrite DecodeString_EncodeToString.
  assert (Hn : length (take nonceLen rand) = nonceLen) by (rewrite length_take; lia).
  rewrite DecryptBuffer_run by done. rewrite Hopen by done.
  cbn [mbind outcome_bind]. by rewrite (Hjson _ _ Hm).
Qed.

Lemma encrypt_loop_ready (auth : gmap string value) (l : list (string * value))
    (rand : list byte) :
  l ≡ₚ map_to_list auth -> ready_auth auth = true ->
  (24 * sensitive_entries l <= length rand)%nat ->
  exists st rand',
    rfold (encrypt_entry kr (default EmptyString (as_string (auth !! "login"%string))))
      (mkEnc ∅ [] false) l rand = Returned (st, rand') /\
    encKeys st = [] /\
    encrypted st = negb (sensitive_entries l =? 0)%nat /\
    (length rand <= length rand' + 24 * sensitive_entries l)%nat /\
    (forall k' v', enc_cloned st !! k' = Some v' -> encodes kr auth k' v') /\
    (forall k w, auth !! k = Some w -> is_Some (enc_cloned st !! target k)).
Proof.
  intros Hl Hready Hrand.
  destruct (rfold_progress
    (encrypt_entry kr (default EmptyString (as_string (auth !! "login"%string))))
    (fun pre st rand' =>
       encKeys st = [] /\
       encrypted st = negb (sensitive_entries pre =? 0)%nat /\
       (length rand <= length rand' + 24 * sensitive_entries pre)%nat /\
       (forall k' v', enc_cloned st !! k' = Some v' -> encodes kr auth k' v') /\
       (forall k w, (k, w) ∈ pre -> is_Some (enc_cloned st !! target k)))
    l) with (st := mkEnc ∅ [] false) (rand := rand)
    as (st & rand' & Hrun & Hk & Hflag & Hlen & He1 & He2).
  - intros pre [k v] post st rand' Hsplit (Hk & Hflag & Hlen & He1 & He2).
    pose proof (visit_here _ _ _ _ _ _ Hl Hsplit) as Hkv.
    assert (Hre : ready_entry auth (k, v) = true).
    { unfold ready_auth in Hready. eapply forallb_forall in Hready; [exact Hready|].
      by apply list_elem_of_In, elem_of_map_to_list. }
    assert (Hcount : (sensitive_entries pre + (if sensitive k then 1 else 0)
                      <= sensitive_entries l)%nat).
    { rewrite Hsplit, sensitive_entries_app.
      change ((k, v) :: post) with ([(k, v)] ++ post).
      rewrite sensitive_entries_app, sensitive_entries_one. lia. }
    assert (Hkeep : forall k0 w0 c x,
              (k0, w0) ∈ pre ++ [(k, v)] ->
              is_Some ((<[target k := x]> c : gmap string value) !! target k0) \/
              ((k0, w0) ∈ pre)).
    { intros k0 w0 c x [Hin|Hin%list_elem_of_singleton]%elem_of_app; [by right|].
      simplify_eq. left. by rewrite lookup_insert_eq. }
    unfold ready_entry in Hre. apply andb_true_iff in Hre as [Hsuf Hre].
    apply negb_true_iff in Hsuf.
    unfold encrypt_entry. rewrite Hsuf.
    destruct (String.eqb k "password") eqn:Hpw.
    { apply String.eqb_eq in Hpw. subst k.
      destruct v as [| | |password| |]; try done.
      destruct (auth !! "login"%string) as [[| | |login| |]|] eqn:Hlogin; try done.
      apply Z.ltb_lt in Hre. cbn [as_string default]. unfold id.
      change (sensitive "password") with true in Hcount. cbv iota in Hcount.
      destruct (credentials_trip login password rand') as (out & Henc & Hdec);
        [done|unfold nonceLen; lia|].
      unfold rbind. rewrite Henc. cbv [rret]. cbn [fst snd mark].
      eexists _, _. split; [reflexivity|]. cbn [encKeys enc_cloned encrypted].
      split; [done|].
      rewrite sensitive_entries_app, sensitive_entries_one.
      change (sensitive "password") with true. cbv iota.
      split; [by rewrite Nat.add_1_r|]. split.
      { rewrite length_drop. unfold nonceLen. lia. }
      split.
      - intros k' v'. destruct (decide (k' = "credentials_encrypted"%string)) as [->|Hne].
        + rewrite lookup_insert_eq. intros ?; simplify_eq.
          right. left. split; [done|]. by exists out, login, password.
        + rewrite lookup_insert_ne by done. apply He1.
      - intros k0 w0 Hin.
        destruct (Hkeep k0 w0 (enc_cloned st) (VString out) Hin) as [H|H]; [exact H|].
        apply lookup_insert_is_Some'. right. by eapply He2. }
    destruct (is_secret k) eqn:Hsec.
    { destruct (Marshal v) as [|buf] eqn:Hm; [done|].
      assert (Hs : sensitive k = true) by (unfold sensitive; by rewrite Hsec, orb_true_r).
      rewrite Hs in Hcount. cbv iota in Hcount.
      destruct (data_trip v buf rand') as (out & Henc & Hdec);
        [done|unfold nonceLen; lia|].
      unfold rbind. rewrite Henc. cbv [rret]. cbn [fst snd mark].
      eexists _, _. split; [reflexivity|]. cbn [encKeys enc_cloned encrypted].
      split; [done|].
      rewrite sensitive_entries_app, sensitive_entries_one, Hs.
      split; [by rewrite Nat.add_1_r|]. split.
      { rewrite length_drop. unfold nonceLen. lia. }
      assert (Ht : target k = (k +:+ "_encrypted")%string).
      { unfold target. by rewrite Hpw, Hsec. }
      split.
      - intros k' v'. destruct (decide (k' = (k +:+ "_encrypted")%string)) as [->|Hne].
        + rewrite lookup_insert_eq. intros ?; simplify_eq.
          right. right. by exists k, out, v.
        + rewrite lookup_insert_ne by done. apply He1.
      - intros k0 w0 Hin. rewrite <- Ht.
        destruct (Hkeep k0 w0 (enc_cloned st) (VString out) Hin) as [H|H]; [exact H|].
        apply lookup_insert_is_Some'. right. by eapply He2. }
    assert (Hs : sensitive k = false) by (unfold sensitive; by rewrite Hpw, Hsec).
    rewrite Hs in Hcount. cbv iota in Hcount.
    cbv [rret]. eexists _, _. split; [reflexivity|]. cbn [encKeys enc_cloned encrypted].
    split; [done|].
    rewrite sensitive_entries_app, sensitive_entries_one, Hs.
    split; [by rewrite Nat.add_0_r|]. split; [lia|].
    assert (Ht : target k = k) by (by apply target_plain).
    split.
    + intros k' v'. destruct (decide (k' = k)) as [->|Hne].
      * rewrite lookup_insert_eq. intros ?; simplify_eq. by left.
      * rewrite lookup_insert_ne by done. apply He1.
    + intros k0 w0 Hin. rewrite <- Ht at 1.
      destruct (Hkeep k0 w0 (enc_cloned st) v Hin) as [H|H]; [exact H|].
      apply lookup_insert_is_Some'. right. by eapply He2.
  - cbn [encKeys enc_cloned encrypted]. split; [done|]. split; [done|].
    split; [cbn; lia|]. split.
    + intros k' v'. by rewrite lookup_empty.
    + intros k w H%elem_of_nil. done.
  - exists st, rand'. repeat (split; [done|]).
    intros k w Hkw. eapply He2. by apply (visit_elem _ _ _ _ Hl).
Qed.

Lemma ready_no_suffix (auth : gmap string value) (k : string) (w : value) :
  ready_auth auth = true -> auth !! k = Some w -> HasSuffix k "_encrypted" = false.
Proof.
  intros Hready Hk. unfold ready_auth in Hready.
  eapply forallb_forall in Hready; [|by apply list_elem_of_In, elem_of_map_to_list].
  unfold ready_entry in Hready. apply andb_true_iff in Hready as [H _].
  by apply negb_true_iff in H.
Qed.

Lemma target_of_key (auth : gmap string value) (k k' : string) (w : value) :
  (forall k w, auth !! k = Some w -> HasSuffix k "_encrypted" = false) ->
  auth !! k = Some w -> target k = k' ->
  (HasSuffix k' "_encrypted" = false /\ k = k') \/
  (k' = "credentials_encrypted"%string /\ k = "password"%string) \/
  (k' = (k +:+ "_encrypted")%string /\ is_secret k = true).
Proof.
  intros Hplain Hk <-. unfold target.
  destruct (String.eqb k "password") eqn:Hpw.
  { apply String.eqb_eq in Hpw. right. left. done. }
  destruct (is_secret k) eqn:Hsec.
  { right. right. done. }
  left. split; [|done]. by eapply Hplain.
Qed.

Lemma decrypt_loop_encoded (auth a1 : gmap string value) (l : list (string * value)) :
  l ≡ₚ map_to_list a1 ->
  (forall k w, auth !! k = Some w -> HasSuffix k "_encrypted" = false) ->
  (forall k' v', a1 !! k' = Some v' -> encodes kr auth k' v') ->
  exists st,
    ofold (decrypt_entry kr) (mkDec ∅ false) l = Returned st /\
    (forall k v, dec_cloned st !! k = Some v -> auth !! k = Some v) /\
    (forall k w v', auth !! k = Some w -> a1 !! target k = Some v' ->
                    is_Some (dec_cloned st !! k)).
Proof.
  intros Hl Hplain Henc.
  destruct (ofold_progress (decrypt_entry kr)
    (fun pre st =>
       (forall k v, dec_cloned st !! k = Some v -> auth !! k = Some v) /\
       (forall k w v', auth !! k = Some w -> (target k, v') ∈ pre ->
                       is_Some (dec_cloned st !! k)))
    l) with (st := mkDec ∅ false) as (st & Hrun & Hsub & Hcov).
  - intros pre [k' v'] post st Hsplit (Hsub & Hcov).
    pose proof (visit_here _ _ _ _ _ _ Hl Hsplit) as Hkv.
    assert (Hold : forall k w v0 (c : gmap string value),
              auth !! k = Some w -> (target k, v0) ∈ pre ++ [(k', v')] ->
              (forall k, is_Some (dec_cloned st !! k) -> is_Some (c !! k)) ->
              (target k = k' -> is_Some (c !! k)) -> is_Some (c !! k)).
    { intros k w v0 c Hk [Hin|Hin%list_elem_of_singleton]%elem_of_app Hmono Hnew.
      - apply Hmono. by eapply Hcov.
      - apply Hnew. congruence. }
    destruct (Henc _ _ Hkv)
      as [(Hsuf & Hns & Hk')|[(-> & c & login & password & -> & Hdec & Hlg & Hpw)
                             |(s & c & w & -> & Hsec & -> & Hdec & Hs)]].
    + unfold decrypt_entry. rewrite Hsuf. cbn [negb].
      eexists. split; [reflexivity|]. cbn [dec_cloned]. split.
      * intros k v. destruct (decide (k = k')) as [->|Hne].
        -- rewrite lookup_insert_eq. congruence.
        -- rewrite lookup_insert_ne by done. apply Hsub.
      * intros k w v0 Hk Hin. eapply Hold; [exact Hk|exact Hin| |].
        -- intros k0 H. apply lookup_insert_is_Some'. by right.
        -- intros Ht.
           destruct (target_of_key _ _ _ _ Hplain Hk Ht) as [[_ ->]|[[-> _]|[-> _]]].
           ++ by rewrite lookup_insert_eq.
           ++ done.
           ++ by rewrite HasSuffix_append in Hsuf.
    + unfold decrypt_entry.
      change (HasSuffix "credentials_encrypted" "_encrypted") with true.
      change (TrimSuffix "credentials_encrypted" "_encrypted") with "credentials"%string.
      cbn [negb as_string]. rewrite String.eqb_refl. rewrite Hdec.
      cbn [mbind outcome_bind].
      eexists. split; [reflexivity|]. cbn [dec_cloned]. split.
      * intros k v. destruct (decide (k = "password"%string)) as [->|Hne].
        { rewrite lookup_insert_eq. congruence. }
        rewrite lookup_insert_ne by done.
        destruct (decide (k = "login"%string)) as [->|Hne'].
        { rewrite lookup_insert_eq. congruence. }
        rewrite lookup_insert_ne by done. apply Hsub.
      * intros k w v0 Hk Hin. eapply Hold; [exact Hk|exact Hin| |].
        -- intros k0 H. apply lookup_insert_is_Some'. right.
           apply lookup_insert_is_Some'. by right.
        -- intros Ht.
           destruct (target_of_key _ _ _ _ Hplain Hk Ht) as [[Hsuf _]|[[_ ->]|[Heq Hsec]]].
           ++ done.
           ++ by rewrite lookup_insert_eq.
           ++ apply (append_suffix_inj "credentials" k "_encrypted") in Heq. by subst k.
    + unfold decrypt_entry. rewrite HasSuffix_append, TrimSuffix_append.
      cbn [negb as_string]. rewrite (secret_not_credentials _ Hsec). rewrite Hdec.
      cbn [mbind outcome_bind default].
      eexists. split; [reflexivity|]. cbn [dec_cloned]. unfold id. split.
      * intros k v. destruct (decide (k = s)) as [->|Hne].
        -- rewrite lookup_insert_eq. congruence.
        -- rewrite lookup_insert_ne by done. apply Hsub.
      * intros k w0 v0 Hk Hin. eapply Hold; [exact Hk|exact Hin| |].
        -- intros k0 H. apply lookup_insert_is_Some'. by right.
        -- intros Ht.
           destruct (target_of_key _ _ _ _ Hplain Hk Ht) as [[Hsuf _]|[[Heq _]|[Heq _]]].
           ++ by rewrite HasSuffix_append in Hsuf.
           ++ apply (append_suffix_inj s "credentials" "_encrypted") in Heq. by subst s.
           ++ apply append_suffix_inj in Heq. subst k. by rewrite lookup_insert_eq.
  - cbn [dec_cloned]. split.
    + intros k v. by rewrite lookup_empty.
    + intros k w v' _ H%elem_of_nil. done.
  - exists st. split; [done|]. split; [done|].
    intros k w v' Hk Ht. eapply Hcov; [exact Hk|]. by apply (visit_elem _ _ _ _ Hl).
Qed.

Lemma auth_round_trip (auth : gmap string value) (l1 : list (string * value))
    (range2 : gmap string value -> list (string * value)) (rand : list byte) :
  l1 ≡ₚ map_to_list auth -> (forall a, range2 a ≡ₚ map_to_list a) ->
  ready_auth auth = true ->
  (24 * sensitive_entries (map_to_list auth) <= length rand)%nat ->
  exists st rand' st',
    rfold (encrypt_entry kr (default EmptyString (as_string (auth !! "login"%string))))
      (mkEnc ∅ [] false) l1 rand = Returned (st, rand') /\
    encKeys st = [] /\
    encrypted st = negb (sensitive_entries (map_to_list auth) =? 0)%nat /\
    (length rand <= length rand' + 24 * sensitive_entries (map_to_list auth))%nat /\
    ofold (decrypt_entry kr) (mkDec ∅ false) (range2 (enc_cloned st)) = Returned st' /\
    dec_cloned st' = auth.
Proof.
  intros Hl1 Hl2 Hready Hrand.
  rewrite <- (sensitive_entries_perm _ _ Hl1) in Hrand |- *.
  destruct (encrypt_loop_ready auth l1 rand Hl1 Hready Hrand)
    as (st & rand' & Hrun & Hk & Hflag & Hlen & He1 & He2).
  destruct (decrypt_loop_encoded auth (enc_cloned st) (range2 (enc_cloned st)))
    as (st' & Hrun' & Hsub & Hcov); [apply Hl2| |done|].
  { intros k w. by apply ready_no_suffix. }
  exists st, rand', st'. repeat (split; [done|]).
  apply map_eq. intros k. destruct (auth !! k) as [w|] eqn:Hkw.
  - destruct (He2 k w Hkw) as [v' Hv'].
    destruct (Hcov k w v' Hkw Hv') as [v Hv]. rewrite Hv.
    apply Hsub in Hv. congruence.
  - destruct (dec_cloned st' !! k) as [v|] eqn:Hv; [|done].
    apply Hsub in Hv. congruence.
Qed.

Lemma round_trip_levels range1 range2 (n : nat) :
  visits range1 -> visits range2 ->
  forall (m : gmap string value) depth1 depth2 rand,
    (spine (VMap m) <= n)%nat -> ready (VMap m) = true ->
    (need (VMap m) <= length rand)%nat ->
    exists m1 rand' b',
      encryptMap kr range1 m depth1 rand =
        Returned ((negb (need (VMap m) =? 0)%nat, m1), rand') /\
      decryptMap kr range2 m1 depth2 = Returned (b', m).
Proof.
  intros Hv1 Hv2. induction n as [|n IH]; intros m depth1 depth2 rand Hn Hready Hneed.
  { cbn [spine] in Hn. lia. }
  rewrite ready_eq in Hready. rewrite need_eq in Hneed |- *.
  rewrite encryptMap_eq. unfold encryptMap_body.
  destruct (m !! "auth"%string) as [va|] eqn:Hauth.
  2:{ cbn [as_map]. eexists _, _, _. split; [reflexivity|].
      rewrite decryptMap_eq. unfold decryptMap_body. by rewrite Hauth. }
  destruct (as_map (Some va)) as [auth|] eqn:Hva.
  2:{ eexists _, _, _. split; [reflexivity|].
      rewrite decryptMap_eq. unfold decryptMap_body. by rewrite Hauth, Hva. }
  assert (va = VMap auth) as -> by (destruct va; cbn in Hva; congruence).
  apply andb_true_iff in Hready as [Hra Hrd].
  destruct (auth_round_trip auth (range1 depth1 auth) (range2 depth2) rand)
    as (st & rand1 & st' & Hrun & Hk & Hflag & Hlen & Hrun' & Hback);
    [apply Hv1|intros; apply Hv2|done|lia|].
  unfold rbind at 1. rewrite Hrun, Hk. cbn [foldl].
  rewrite lookup_insert_ne by done.
  destruct (m !! "data"%string) as [vd|] eqn:Hdata.
  2:{ cbn [as_map]. rewrite Nat.add_0_r.
      assert (Hz : (24 * sensitive_entries (map_to_list auth) =? 0)%nat
                   = (sensitive_entries (map_to_list auth) =? 0)%nat).
      { by destruct (sensitive_entries (map_to_list auth)). }
      rewrite Hz, <- Hflag.
      eexists _, _, _. split; [reflexivity|].
      rewrite decryptMap_eq. unfold decryptMap_body.
      rewrite lookup_insert_eq. cbn [as_map]. rewrite Hrun'.
      cbn [mbind outcome_bind]. rewrite lookup_insert_ne by done.
      rewrite lookup_insert_ne by done. rewrite Hdata. cbn [as_map].
      rewrite Hback. rewrite insert_insert_eq. by rewrite insert_id. }
  destruct (as_map (Some vd)) as [d|] eqn:Hvd.
  2:{ assert (Hnd : need vd = 0%nat) by (destruct vd; cbn in Hvd |- *; congruence).
      rewrite Hnd, Nat.add_0_r.
      assert (Hz : (24 * sensitive_entries (map_to_list auth) =? 0)%nat
                   = (sensitive_entries (map_to_list auth) =? 0)%nat).
      { by destruct (sensitive_entries (map_to_list auth)). }
      rewrite Hz, <- Hflag.
      eexists _, _, _. split; [reflexivity|].
      rewrite decryptMap_eq. unfold decryptMap_body.
      rewrite lookup_insert_eq. cbn [as_map]. rewrite Hrun'.
      cbn [mbind outcome_bind]. rewrite lookup_insert_ne by done.
      rewrite lookup_insert_ne by done. rewrite Hdata, Hvd.
      rewrite Hback. rewrite insert_insert_eq. by rewrite insert_id. }
  assert (vd = VMap d) as -> by (destruct vd; cbn in Hvd; congruence).
  change (encryptValue kr range1 (VMap d) (S depth1))
    with (encryptMap kr range1 d (S depth1)).
  destruct (IH d (S depth1) (S depth2) rand1)
    as (d1 & rand2 & b1' & Henc & Hdec);
    [pose proof (spine_data _ _ Hdata); lia|done|lia|].
  unfold rbind. rewrite Henc. cbv [rret].
  assert (Hb : (if negb (need (VMap d) =? 0)%nat && negb (encrypted st)
                then true else encrypted st)
               = negb (24 * sensitive_entries (map_to_list auth) + need (VMap d) =? 0)%nat).
  { rewrite Hflag.
    generalize (need (VMap d)), (sensitive_entries (map_to_list auth)).
    intros a c. destruct c, a; reflexivity. }
  rewrite Hb.
  eexists _, _, _. split; [reflexivity|].
  rewrite decryptMap_eq. unfold decryptMap_body.
  rewrite lookup_insert_ne by done. rewrite lookup_insert_eq. cbn [as_map].
  rewrite Hrun'. cbn [mbind outcome_bind].
  rewrite lookup_insert_eq. rewrite lookup_insert_ne by done.
  rewrite lookup_insert_eq. cbn [as_map].
  change (decryptValue kr range2 (VMap d1) (S depth2))
    with (decryptMap kr range2 d1 (S depth2)).
  rewrite Hdec. cbn [mbind outcome_bind]. rewrite Hback.
  match goal with
  | |- context [<["data"%string := VMap d]> ?x] =>
      assert (<["data"%string := VMap d]> x = m) as ->; [|reflexivity]
  end.
  apply map_eq. intros k.
  destruct (decide (k = "data"%string)) as [->|Hnd].
  { by rewrite lookup_insert_eq. }
  rewrite lookup_insert_ne by done.
  destruct (decide (k = "auth"%string)) as [->|Hna].
  { by rewrite lookup_insert_eq. }
  rewrite lookup_insert_ne by done. rewrite lookup_insert_ne by done.
  by rewrite lookup_insert_ne by done.
Qed.

End RoundTrip.

(** X17: with both keys configured and made for one another, a document
    as it is before its first encryption (no key ending in [_encrypted]; a
    password that is a string, with a login that is a string shorter than
    2^32 bytes; secrets that [json.Marshal] accepts) and 24 bytes of
    entropy for each of its sensitive keys: [Encrypt] returns, its result
    is [true] exactly when the document has a sensitive key, and [Decrypt]
    turns the document it leaves back into the original, whatever the
    orders in which the two visit the maps. *)
Theorem Decrypt_Encrypt_round_trip (enc dec : NACLKey) range1 range2
    (doc : gmap string value) (rand : list byte) :
  CredentialsEncryptorKey kr = Some enc -> CredentialsDecryptorKey kr = Some dec ->
  opens_for enc dec -> json_round_trip (V := value) ->
  visits range1 -> visits range2 ->
  ready (VMap doc) = true -> (need (VMap doc) <= length rand)%nat ->
  exists doc' rand' b',
    Encrypt kr range1 doc rand =
      Returned ((negb (need (VMap doc) =? 0)%nat, doc'), rand') /\
    Decrypt kr range2 doc' = Returned (b', doc).
Proof.
  intros He Hd Hopen Hjson Hv1 Hv2 Hready Hneed. unfold Encrypt, Decrypt.
  rewrite He, Hd.
  by apply (round_trip_levels enc dec He Hd Hopen Hjson range1 range2 (spine (VMap doc))).
Qed.

(** X18: whenever [Encrypt] returns with a key configured, no [password]
    and none of the eight secret keys is left in an [auth] object of the
    document, at the top or down the [data] objects it went through,
    whatever the order of visit and whether or not the encryptions
    succeeded. *)
Theorem Encrypt_leaves_no_secret (key : NACLKey) range (doc : gmap string value)
    (rand : list byte) (b : bool) (doc' : gmap string value) (rand' : list byte) :
  CredentialsEncryptorKey kr = Some key ->
  Encrypt kr range doc rand = Returned ((b, doc'), rand') ->
  sealed (VMap doc') = true.
Proof.
  intros Hkey. unfold Encrypt. rewrite Hkey.
  by apply (encryptMap_sealed range (spine (VMap doc))).
Qed.

(** X19: a document without [password] and secret keys in its [auth]
    objects, such as one that [Encrypt] has returned, is left as it is by
    [Encrypt]: the result is [false], its keys ending in [_encrypted] are
    kept with their values, and [rand.Reader] is not read. *)
Theorem Encrypt_sealed_is_identity range (doc : gmap string value) (rand : list byte) :
  visits range -> sealed (VMap doc) = true ->
  Encrypt kr range doc rand = Returned ((false, doc), rand).
Proof.
  intros Hv Hs. unfold Encrypt. destruct (CredentialsEncryptorKey kr); [|done].
  by apply (encryptMap_sealed_id range (spine (VMap doc))).
Qed.

(** X20: with a key configured, [Encrypt] returns (it does not panic) for
    every document, whatever its values, as soon as [rand.Reader] delivers
    24 bytes for each sensitive key, and it reads no more than that. *)
Theorem Encrypt_returns_with_entropy (key : NACLKey) range (doc : gmap string value)
    (rand : list byte) :
  CredentialsEncryptorKey kr = Some key -> visits range ->
  (need (VMap doc) <= length rand)%nat ->
  exists b doc' rand',
    Encrypt kr range doc rand = Returned ((b, doc'), rand') /\
    (length rand <= length rand' + need (VMap doc))%nat.
Proof.
  intros Hkey Hv Hneed. unfold Encrypt. rewrite Hkey.
  by apply (encryptMap_returns key range (spine (VMap doc))).
Qed.

(** X21: a document without a key ending in [_encrypted] in its [auth]
    objects is left as it is by [Decrypt], and the result is [false]. *)
Theorem Decrypt_cleartext_is_identity range (doc : gmap string value) :
  visits range -> cleartext (VMap doc) = true ->
  Decrypt kr range doc = Returned (false, doc).
Proof.
  intros Hv Hs. unfold Decrypt. destruct (CredentialsDecryptorKey kr); [|done].
  by apply (decryptMap_cleartext_id range (spine (VMap doc))).
Qed.

End Documents.

Lemma stored_order_visits : visits in_stored_order.
Proof. intros depth m. reflexivity. Qed.

Lemma toy_json_value_round_trip : json_round_trip (J := toy_json_value).
Proof.
  intros v buf. destruct v as [| | |s| |]; cbn; intros H; simplify_eq.
  - reflexivity.
  - rewrite reverse_app, reverse_singleton. cbn [app].
    by rewrite reverse_involutive, str_bytes.
Qed.

(** X18 at an instance. *)
Lemma Encrypt_leaves_no_secret_witness :
  exists b doc' rand',
    Encrypt (B := toy_box) (J := toy_json_value) toy_keyring in_stored_order
      sample_doc (replicate 100 x07) = Returned ((b, doc'), rand') /\
    sealed (VMap doc') = true.
Proof.
  destruct (Encrypt (B := toy_box) (J := toy_json_value) toy_keyring in_stored_order
              sample_doc (replicate 100 x07)) as [[[b doc'] rand']|] eqn:E.
  - exists b, doc', rand'. split; [reflexivity|].
    exact (Encrypt_leaves_no_secret (B := toy_box) (J := toy_json_value)
             toy_keyring toy_key _ _ _ _ _ _ eq_refl E).
  - vm_compute in E. discriminate E.
Defined.

(** X19 at an instance. *)
Lemma Encrypt_sealed_is_identity_witness :
  Encrypt (B := toy_box) (J := toy_json_value) toy_keyring in_stored_order
    stored_doc [] = Returned ((false, stored_doc), []).
Proof.
  apply (Encrypt_sealed_is_identity (B := toy_box) (J := toy_json_value)
           toy_keyring in_stored_order stored_doc [] stored_order_visits).
  vm_compute. reflexivity.
Defined.

(** X17 at an instance. *)
Lemma Decrypt_Encrypt_round_trip_witness :
  exists doc' rand' b',
    Encrypt (B := toy_box) (J := toy_json_value) toy_keyring in_stored_order
      sample_doc (replicate 100 x07) =
      Returned ((negb (need (VMap sample_doc) =? 0)%nat, doc'), rand') /\
    Decrypt (B := toy_box) (J := toy_json_value) toy_keyring in_stored_order doc' =
      Returned (b', sample_doc).
Proof.
  apply (Decrypt_Encrypt_round_trip (B := toy_box) (J := toy_json_value)
           toy_keyring toy_key toy_key in_stored_order in_stored_order
           sample_doc (replicate 100 x07) eq_refl eq_refl toy_keys_open
           toy_json_value_round_trip stored_order_visits stored_order_visits).
  - vm_compute. reflexivity.
  - vm_compute. lia.
Defined.

(** X20 at an instance. *)
Lemma Encrypt_returns_with_entropy_witness :
  exists b doc' rand',
    Encrypt (B := toy_box) (J := toy_json_value) toy_keyring in_stored_order
      sample_doc (replicate 72 x07) = Returned ((b, doc'), rand') /\
    (length (replicate 72 x07) <= length rand' + need (VMap sample_doc))%nat.
Proof.
  apply (Encrypt_returns_with_entropy (B := toy_box) (J := toy_json_value)
           toy_keyring toy_key in_stored_order sample_doc (replicate 72 x07)
           eq_refl stored_order_visits).
  vm_compute. lia.
Defined.

(** X21 at an instance. *)
Lemma Decrypt_cleartext_is_identity_witness :
  Decrypt (B := toy_box) (J := toy_json_value) toy_keyring in_stored_order
    sample_doc = Returned (false, sample_doc).
Proof.
  apply (Decrypt_cleartext_is_identity (B := toy_box) (J := toy_json_value)
           toy_keyring in_stored_order sample_doc stored_order_visits).
  vm_compute. reflexivity.
Defined.

End DocFacts.
